(** * The INSERT ... VALUES row parser of the KMS loading scripts

    A shallow embedding of the hand-built parser that the scripts
    [backend/scripts/load_sql_data.py] (class [SQLDataLoader]) and
    [backend/scripts/create_full_database.py] (class [FullDatabaseCreator])
    each carry a copy of, and of the row loop of their loaders.

    Text is [String.string], one [ascii] per code point: the model covers
    the code points 0..255.  Cursor variables are [nat] indices into the
    text, and [s[i]] is partial, as in Python: reading outside the text
    raises [IndexError].  The counter [paren_count] is a [Z], since the
    source lets it go below zero.  Every [while] loop of the source is run
    by the combinator [while], with an explicit bound on the number of
    iterations; that the bound used is enough is a theorem, not an
    assumption.

    Besides the parser and the row loops, the development embeds the two
    loaders as whole functions, the schema scripts
    ([create_complete_schema], [create_cases_table]) over a catalog of
    tables, the sample rows of [create_sample_related_data], and the
    batch loop of the ingestion in [main] of create_full_database.py. *)

From Stdlib Require Import String Ascii List Bool Arith ZArith Lia.
From Stdlib Require DecimalString.
Import ListNotations.

Local Open Scope string_scope.
Local Open Scope list_scope.
Local Open Scope nat_scope.

(** ** Outcomes of running Python code *)

Inductive exn : Type :=
| IndexError                       (* reading [s[i]] outside of [s] *)
| IntegrityError (msg : string)    (* [sqlite3.IntegrityError], [str(e) = msg] *)
| OtherException (msg : string)    (* any other subclass of [Exception] *)
| KeyboardInterrupt.               (* a [BaseException] that is no [Exception] *)

(** [isinstance(e, Exception)] *)
Definition is_Exception (e : exn) : bool :=
  match e with
  | KeyboardInterrupt => false
  | _ => true
  end.

Inductive result (A : Type) : Type :=
| Ok (a : A)
| Raise (e : exn)
| OutOfFuel.

Arguments Ok {A} a.
Arguments Raise {A} e.
Arguments OutOfFuel {A}.

Definition bind {A B : Type} (m : result A) (k : A -> result B) : result B :=
  match m with
  | Ok a => k a
  | Raise e => Raise e
  | OutOfFuel => OutOfFuel
  end.

Notation "x <- m ;; k" := (bind m (fun x => k))
  (at level 61, m at next level, right associativity).

(** [while fuel cond body st]: the Python statement [while cond: body],
    run for at most [fuel] iterations. *)
Fixpoint while {S : Type} (fuel : nat) (cond : S -> result bool)
    (body : S -> result S) (st : S) {struct fuel} : result S :=
  c <- cond st ;;
  if c : bool then
    match fuel with
    | O => OutOfFuel
    | S fuel' => st' <- body st ;; while fuel' cond body st'
    end
  else Ok st.

(** ** The operations on [str] that the parser uses *)

Module Str.

Definition len (s : string) : nat := String.length s.

(** [s[i]] for [0 <= i]. *)
Definition getitem (s : string) (i : nat) : result ascii :=
  match String.get i s with
  | Some c => Ok c
  | None => Raise IndexError
  end.

(** [s += char]. *)
Definition add_char (s : string) (c : ascii) : string :=
  (s ++ String c EmptyString)%string.

Definition code (c : ascii) : nat := nat_of_ascii c.

(** [str.isspace] on one code point below 256. *)
Definition isspace (c : ascii) : bool :=
  let n := code c in
  ((9 <=? n) && (n <=? 13)) || ((28 <=? n) && (n <=? 32))
  || (n =? 133) || (n =? 160).

Fixpoint lstrip (s : string) : string :=
  match s with
  | String c s' => if isspace c then lstrip s' else s
  | EmptyString => EmptyString
  end.

Fixpoint rstrip (s : string) : string :=
  match s with
  | String c s' =>
      match rstrip s' with
      | EmptyString => if isspace c then EmptyString else String c EmptyString
      | r => String c r
      end
  | EmptyString => EmptyString
  end.

(** [s.strip()]. *)
Definition strip (s : string) : string := rstrip (lstrip s).

Definition upper_char (c : ascii) : ascii :=
  let n := code c in
  if (97 <=? n) && (n <=? 122) then ascii_of_nat (n - 32) else c.

(** [s.upper()].  The source only compares the result with ['NULL'], and
    no code point other than [n], [u], [l] upper-cases to one of [N],
    [U], [L]: mapping the letters [a-z] and leaving every other code
    point in place decides that comparison as Python does. *)
Fixpoint upper (s : string) : string :=
  match s with
  | String c s' => String (upper_char c) (upper s')
  | EmptyString => EmptyString
  end.

(** The truth value of a [str]: non-empty. *)
Definition truthy (s : string) : bool :=
  match s with
  | EmptyString => false
  | String _ _ => true
  end.

(** [sub in s]. *)
Fixpoint contains (sub s : string) : bool :=
  String.prefix sub s ||
  match s with
  | String _ s' => contains sub s'
  | EmptyString => false
  end.

Definition backslash : ascii := ascii_of_nat 92.
Definition quote : ascii := ascii_of_nat 39.
Definition comma : ascii := ascii_of_nat 44.
Definition lparen : ascii := ascii_of_nat 40.
Definition rparen : ascii := ascii_of_nat 41.
Definition semicolon : ascii := ascii_of_nat 59.
Definition newline : ascii := ascii_of_nat 10.
Definition tab : ascii := ascii_of_nat 9.
Definition space : ascii := ascii_of_nat 32.

(** [char in ' \t\n'] for a one-character [char]. *)
Definition in_blank (c : ascii) : bool :=
  Ascii.eqb c space || Ascii.eqb c tab || Ascii.eqb c newline.

End Str.

(** The marker the parser stores for a bare [NULL]: both copies do
    [values.append('')]. *)
Definition null_sentinel : string := "".

(** The four lines both tokenizers run on a finished unquoted token:
    [value = current_value.strip()], then [''] if [value.upper() == 'NULL']
    and [value] otherwise. *)
Definition bare_value (current_value : string) : string :=
  let value := Str.strip current_value in
  if String.eqb (Str.upper value) "NULL" then null_sentinel else value.

(** The look-ahead that follows a closing quote.  Both copies of the
    tokenizer contain these four lines verbatim (on [record_str] in one,
    on [values_str] in the other). *)

(** [i + 1 < len(s) and s[i + 1] in ' \t\n'] *)
Definition blank_ahead (s : string) (i : nat) : result bool :=
  if i + 1 <? Str.len s then
    c <- Str.getitem s (i + 1) ;; Ok (Str.in_blank c)
  else Ok false.

(** [while i + 1 < len(s) and s[i + 1] in ' \t\n': i += 1] *)
Definition skip_blanks (s : string) (i : nat) : result nat :=
  while (Str.len s) (blank_ahead s) (fun i => Ok (i + 1)) i.

(** [if i + 1 < len(s) and s[i + 1] == ',': i += 1] *)
Definition skip_comma (s : string) (i : nat) : result nat :=
  if i + 1 <? Str.len s then
    c <- Str.getitem s (i + 1) ;;
    Ok (if Ascii.eqb c Str.comma then i + 1 else i)
  else Ok i.

(** ** [SQLDataLoader.parse_record_values] (load_sql_data.py) *)

Module RecordValues.

Record state : Type := mk {
  i : nat;
  values : list string;
  current_value : string;
  in_string : bool;
  escape_next : bool
}.

Definition init : state := mk 0 [] "" false false.

(** One iteration of the main loop.  The two [continue] branches do their
    own [i += 1]; every other branch falls through to the [i += 1] that
    ends the loop body. *)
Definition body (record_str : string) (st : state) : result state :=
  char <- Str.getitem record_str (i st) ;;
  if escape_next st then
    Ok (mk (i st + 1) (values st) (Str.add_char (current_value st) char)
           (in_string st) false)
  else if Ascii.eqb char Str.backslash then
    Ok (mk (i st + 1) (values st) (Str.add_char (current_value st) char)
           (in_string st) true)
  else if Ascii.eqb char Str.quote && negb (escape_next st) then
    let in_string' := negb (in_string st) in
    if negb in_string' then
      i1 <- skip_blanks record_str (i st) ;;
      i2 <- skip_comma record_str i1 ;;
      Ok (mk (i2 + 1) (values st ++ [current_value st]) "" in_string'
             (escape_next st))
    else
      Ok (mk (i st + 1) (values st) (current_value st) in_string'
             (escape_next st))
  else if in_string st then
    Ok (mk (i st + 1) (values st) (Str.add_char (current_value st) char)
           (in_string st) (escape_next st))
  else if Ascii.eqb char Str.comma && negb (in_string st) then
    Ok (mk (i st + 1) (values st ++ [bare_value (current_value st)]) ""
           (in_string st) (escape_next st))
  else
    Ok (mk (i st + 1) (values st) (Str.add_char (current_value st) char)
           (in_string st) (escape_next st)).

(** [i < len(record_str)] *)
Definition cond (record_str : string) (st : state) : result bool :=
  Ok (i st <? Str.len record_str).

Definition scan (fuel : nat) (record_str : string) (st : state)
  : result state :=
  while fuel (cond record_str) (body record_str) st.

(** The code after the loop: "Handle last value". *)
Definition last_value (st : state) : list string :=
  if Str.truthy (Str.strip (current_value st))
  then values st ++ [bare_value (current_value st)]
  else values st.

Definition parse_record_values (record_str : string) : result (list string) :=
  st <- scan (Str.len record_str) record_str init ;;
  Ok (last_value st).

End RecordValues.

Definition parse_record_values := RecordValues.parse_record_values.

(** ** [FullDatabaseCreator.parse_values_string] (create_full_database.py) *)

Module ValuesString.

Record state : Type := mk {
  i : nat;
  values : list string;
  current_value : string;
  in_string : bool;
  escape_next : bool;
  paren_count : Z
}.

Definition init : state := mk 0 [] "" false false 0%Z.

Definition body (values_str : string) (st : state) : result state :=
  char <- Str.getitem values_str (i st) ;;
  if escape_next st then
    Ok (mk (i st + 1) (values st) (Str.add_char (current_value st) char)
           (in_string st) false (paren_count st))
  else if Ascii.eqb char Str.backslash then
    Ok (mk (i st + 1) (values st) (Str.add_char (current_value st) char)
           (in_string st) true (paren_count st))
  else if Ascii.eqb char Str.quote && negb (escape_next st) then
    let in_string' := negb (in_string st) in
    if negb in_string' then
      i1 <- skip_blanks values_str (i st) ;;
      i2 <- skip_comma values_str i1 ;;
      Ok (mk (i2 + 1) (values st ++ [current_value st]) "" in_string'
             (escape_next st) (paren_count st))
    else
      Ok (mk (i st + 1) (values st) (current_value st) in_string'
             (escape_next st) (paren_count st))
  else if in_string st then
    Ok (mk (i st + 1) (values st) (Str.add_char (current_value st) char)
           (in_string st) (escape_next st) (paren_count st))
  else if Ascii.eqb char Str.comma && negb (in_string st)
          && (paren_count st =? 0)%Z then
    Ok (mk (i st + 1) (values st ++ [bare_value (current_value st)]) ""
           (in_string st) (escape_next st) (paren_count st))
  else if Ascii.eqb char Str.lparen && negb (in_string st) then
    Ok (mk (i st + 1) (values st) (Str.add_char (current_value st) char)
           (in_string st) (escape_next st) (paren_count st + 1)%Z)
  else if Ascii.eqb char Str.rparen && negb (in_string st) then
    Ok (mk (i st + 1) (values st) (Str.add_char (current_value st) char)
           (in_string st) (escape_next st) (paren_count st - 1)%Z)
  else
    Ok (mk (i st + 1) (values st) (Str.add_char (current_value st) char)
           (in_string st) (escape_next st) (paren_count st)).

(** [i < len(values_str)] *)
Definition cond (values_str : string) (st : state) : result bool :=
  Ok (i st <? Str.len values_str).

Definition scan (fuel : nat) (values_str : string) (st : state)
  : result state :=
  while fuel (cond values_str) (body values_str) st.

Definition last_value (st : state) : list string :=
  if Str.truthy (Str.strip (current_value st))
  then values st ++ [bare_value (current_value st)]
  else values st.

Definition parse_values_string (values_str : string) : result (list string) :=
  st <- scan (Str.len values_str) values_str init ;;
  Ok (last_value st).

End ValuesString.

Definition parse_values_string := ValuesString.parse_values_string.

(** ** The record-splitting loop of [SQLDataLoader.parse_sql_values] *)

Module Split.

Record state : Type := mk {
  i : nat;
  records : list (list string);
  current_record : string;
  paren_count : Z;
  in_string : bool;
  escape_next : bool
}.

Definition init : state := mk 0 [] "" 0%Z false false.

(** [if current_record.strip():
       records.append(self.parse_record_values(current_record.strip()))] *)
Definition append_record (records : list (list string))
    (current_record : string) : result (list (list string)) :=
  if Str.truthy (Str.strip current_record) then
    r <- parse_record_values (Str.strip current_record) ;;
    Ok (records ++ [r])
  else Ok records.

Definition body (values_section : string) (st : state) : result state :=
  char <- Str.getitem values_section (i st) ;;
  if escape_next st then
    Ok (mk (i st + 1) (records st) (Str.add_char (current_record st) char)
           (paren_count st) (in_string st) false)
  else if Ascii.eqb char Str.backslash then
    Ok (mk (i st + 1) (records st) (Str.add_char (current_record st) char)
           (paren_count st) (in_string st) true)
  else if Ascii.eqb char Str.quote && negb (escape_next st) then
    Ok (mk (i st + 1) (records st) (Str.add_char (current_record st) char)
           (paren_count st) (negb (in_string st)) (escape_next st))
  else if negb (in_string st) then
    if Ascii.eqb char Str.lparen then
      let paren_count' := (paren_count st + 1)%Z in
      if (paren_count' =? 1)%Z then
        Ok (mk (i st + 1) (records st) "" paren_count'
               (in_string st) (escape_next st))
      else
        Ok (mk (i st + 1) (records st)
               (Str.add_char (current_record st) char) paren_count'
               (in_string st) (escape_next st))
    else if Ascii.eqb char Str.rparen then
      let paren_count' := (paren_count st - 1)%Z in
      if (paren_count' =? 0)%Z then
        records' <- append_record (records st) (current_record st) ;;
        Ok (mk (i st + 1) records' "" paren_count'
               (in_string st) (escape_next st))
      else
        Ok (mk (i st + 1) (records st)
               (Str.add_char (current_record st) char) paren_count'
               (in_string st) (escape_next st))
    else
      Ok (mk (i st + 1) (records st) (Str.add_char (current_record st) char)
             (paren_count st) (in_string st) (escape_next st))
  else
    Ok (mk (i st + 1) (records st) (Str.add_char (current_record st) char)
           (paren_count st) (in_string st) (escape_next st)).

(** [i < len(values_section)] *)
Definition cond (values_section : string) (st : state) : result bool :=
  Ok (i st <? Str.len values_section).

Definition scan (fuel : nat) (values_section : string) (st : state)
  : result state :=
  while fuel (cond values_section) (body values_section) st.

(** "Handle last record if it doesn't end with ),":
    [if current_record.strip() and paren_count == 0: records.append(...)] *)
Definition last_record (st : state) : result (list (list string)) :=
  if Str.truthy (Str.strip (current_record st)) && (paren_count st =? 0)%Z
  then
    r <- parse_record_values (Str.strip (current_record st)) ;;
    Ok (records st ++ [r])
  else Ok (records st).

Definition split_records (values_section : string)
  : result (list (list string)) :=
  st <- scan (Str.len values_section) values_section init ;;
  last_record st.

End Split.

(** ** The regular expressions of the two segmenters

    The patterns of the source are sequences of literal characters and of
    character classes, a class being possibly repeated ([*], [+]), with one
    capturing group.  [Re] is Python's backtracking matcher for that
    fragment: a repetition is greedy, it takes the longest run first and
    gives characters back one at a time when the rest of the pattern does
    not match.  All patterns are compiled with [re.DOTALL | re.IGNORECASE]. *)

Module Re.

Inductive atom : Type :=
| Lit (c : ascii)            (* a literal character, letters in any case *)
| One (p : ascii -> bool)    (* one character of a class *)
| Star (p : ascii -> bool)   (* [p*], greedy *)
| Open                       (* [(] of the capturing group *)
| Close.                     (* [)] of the capturing group *)

Definition pattern : Type := list atom.

(** [p+] is [p p*]. *)
Definition plus (p : ascii -> bool) : pattern := [One p; Star p].

Fixpoint lits (s : string) : pattern :=
  match s with
  | String c s' => Lit c :: lits s'
  | EmptyString => []
  end.

Definition eq_nocase (a b : ascii) : bool :=
  Ascii.eqb (Str.upper_char a) (Str.upper_char b).

(** [\s] *)
Definition space : ascii -> bool := Str.isspace.

(** [\w]: [ch.isalnum() or ch == '_'], on the code points below 256. *)
Definition word (c : ascii) : bool :=
  let n := Str.code c in
  ((48 <=? n) && (n <=? 57)) || ((65 <=? n) && (n <=? 90))
  || ((97 <=? n) && (n <=? 122)) || (n =? 95)
  || (n =? 170) || (n =? 178) || (n =? 179) || (n =? 181)
  || (n =? 185) || (n =? 186) || ((188 <=? n) && (n <=? 190))
  || ((192 <=? n) && (n <=? 214)) || ((216 <=? n) && (n <=? 246))
  || (248 <=? n).

(** [[^x]] *)
Definition other_than (x : ascii) (c : ascii) : bool := negb (Ascii.eqb c x).

(** [.] under [re.DOTALL] *)
Definition any (c : ascii) : bool := true.

(** A match is the text of group 1 and the number of characters matched. *)
Definition found : Type := (string * nat)%type.

Definition took (in_group : bool) (c : ascii) (r : option found)
  : option found :=
  match r with
  | Some (g, n) => Some (if in_group then String c g else g, S n)
  | None => None
  end.

(** [match_here pat s in_group]: match [pat] at the start of [s]. *)
Fixpoint match_here (pat : pattern) (s : string) (in_group : bool)
  {struct pat} : option found :=
  match pat with
  | [] => Some (EmptyString, 0)
  | Lit c :: pat' =>
      match s with
      | String d s' =>
          if eq_nocase c d then took in_group d (match_here pat' s' in_group)
          else None
      | EmptyString => None
      end
  | One p :: pat' =>
      match s with
      | String d s' =>
          if p d then took in_group d (match_here pat' s' in_group)
          else None
      | EmptyString => None
      end
  | Star p :: pat' =>
      (fix star (s : string) : option found :=
         match s with
         | String d s' =>
             if p d then
               match took in_group d (star s') with
               | Some r => Some r
               | None => match_here pat' s in_group
               end
             else match_here pat' s in_group
         | EmptyString => match_here pat' s in_group
         end) s
  | Open :: pat' => match_here pat' s true
  | Close :: pat' => match_here pat' s false
  end.

(** [re.findall(pat, s)] for a pattern with one group that matches no
    empty text: the group of every match, the search resuming where the
    previous match ended.  [skip] counts the characters of the current
    match that are still to be passed over. *)
Fixpoint findall_from (pat : pattern) (s : string) (skip : nat)
  : list string :=
  match s with
  | EmptyString => []
  | String _ s' =>
      match skip with
      | S k => findall_from pat s' k
      | O =>
          match match_here pat s false with
          | Some (g, n) => g :: findall_from pat s' (n - 1)
          | None => findall_from pat s' 0
          end
      end
  end.

Definition findall (pat : pattern) (s : string) : list string :=
  findall_from pat s 0.

(** [re.search(pat, s)], returning [group(1)] of the leftmost match. *)
Fixpoint search (pat : pattern) (s : string) : option string :=
  match match_here pat s false with
  | Some (g, _) => Some g
  | None =>
      match s with
      | String _ s' => search pat s'
      | EmptyString => None
      end
  end.

End Re.

(** ** Log records *)

Inductive level : Type := DEBUG | INFO | WARNING | ERROR.

Inductive message : Type :=
| No_values_section                 (* "No VALUES section found in SQL" *)
| Parsed_individual (n : nat)       (* "Parsed {n} records from individual INSERT statements" *)
| Parsed_records (n : nat)          (* "Parsed {n} records from SQL" *)
| Skipping_duplicate (case : string)(* "Skipping duplicate case: {record[0]}" *)
| Integrity_error (e : string)      (* "Integrity error [inserting record]: {e}" *)
| Error_inserting (e : exn)         (* "Error inserting record: {e}" *)
| Record_data (fields : list string). (* "Record [data]: {record[:3]}..." *)

Definition log : Type := list (level * message).

(** ** [SQLDataLoader.parse_sql_values] (load_sql_data.py) *)

(** [r'INSERT\s+INTO\s+\w+\s*\([^)]+\)\s+VALUES\s*\n\s*\(([^;]+)\);'] *)
Definition insert_pattern_nl : Re.pattern :=
  Re.lits "INSERT" ++ Re.plus Re.space ++ Re.lits "INTO" ++ Re.plus Re.space
  ++ Re.plus Re.word ++ [Re.Star Re.space; Re.Lit Str.lparen]
  ++ Re.plus (Re.other_than Str.rparen) ++ [Re.Lit Str.rparen]
  ++ Re.plus Re.space ++ Re.lits "VALUES"
  ++ [Re.Star Re.space; Re.Lit Str.newline; Re.Star Re.space;
      Re.Lit Str.lparen; Re.Open]
  ++ Re.plus (Re.other_than Str.semicolon)
  ++ [Re.Close; Re.Lit Str.rparen; Re.Lit Str.semicolon].

(** [r'VALUES\s*\n(G)'], the group [G] being [.] repeated with a star. *)
Definition values_pattern : Re.pattern :=
  Re.lits "VALUES"
  ++ [Re.Star Re.space; Re.Lit Str.newline; Re.Open; Re.Star Re.any; Re.Close].

(** [for match in matches: ...], shared in shape by both segmenters:
    [values = parse(match.strip())], kept [if values]. *)
Fixpoint parse_matches (parse : string -> result (list string))
    (matches : list string) : result (list (list string)) :=
  match matches with
  | [] => Ok []
  | m :: rest =>
      values <- parse (Str.strip m) ;;
      records <- parse_matches parse rest ;;
      Ok (match values with [] => records | _ => values :: records end)
  end.

Definition parse_sql_values (sql_content : string)
  : result (log * list (list string)) :=
  match Re.findall insert_pattern_nl sql_content with
  | [] =>
      match Re.search values_pattern sql_content with
      | None => Ok ([(ERROR, No_values_section)], [])
      | Some values_section =>
          records <- Split.split_records values_section ;;
          Ok ([(INFO, Parsed_records (List.length records))], records)
      end
  | matches =>
      records <- parse_matches parse_record_values matches ;;
      Ok ([(INFO, Parsed_individual (List.length records))], records)
  end.

(** ** [FullDatabaseCreator.parse_sql_insert_statements]
       (create_full_database.py) *)

(** [r"INSERT\s+INTO\s+\w+\s*\([^)]+\)\s+VALUES\s*\(([^;]+)\);"] *)
Definition insert_pattern : Re.pattern :=
  Re.lits "INSERT" ++ Re.plus Re.space ++ Re.lits "INTO" ++ Re.plus Re.space
  ++ Re.plus Re.word ++ [Re.Star Re.space; Re.Lit Str.lparen]
  ++ Re.plus (Re.other_than Str.rparen) ++ [Re.Lit Str.rparen]
  ++ Re.plus Re.space ++ Re.lits "VALUES"
  ++ [Re.Star Re.space; Re.Lit Str.lparen; Re.Open]
  ++ Re.plus (Re.other_than Str.semicolon)
  ++ [Re.Close; Re.Lit Str.rparen; Re.Lit Str.semicolon].

Definition parse_sql_insert_statements (sql_content : string)
  : result (list (list string)) :=
  parse_matches parse_values_string (Re.findall insert_pattern sql_content).

(** A line feed inside a text: [nl] is the one-character text ["\n"]. *)
Definition nl : string := String Str.newline EmptyString.

(** ** The row loops of the two loaders

    The relational store is an external collaborator: [execute] is
    [cursor.execute(insert_sql, params)] for the fixed [insert_sql] of a
    loader, which changes the store and either returns or raises. *)

Record loader_state (Store : Type) : Type := mk_loader {
  store : Store;
  inserted_count : nat;
  logged : log
}.

Arguments mk_loader {Store} _ _ _.
Arguments store {Store} _.
Arguments inserted_count {Store} _.
Arguments logged {Store} _.

(** [while len(record) < N: record.append('')] *)
Definition pad (N : nat) (record : list string) : result (list string) :=
  while N (fun r => Ok (List.length r <? N)) (fun r => Ok (r ++ [""])) record.

Section Loader.

Variable Store : Type.
Variable execute : Store -> list string -> Store * option exn.

(** The two [except] clauses, the same in both loaders; [record] is the
    row as the handler sees it. *)
Definition except_clauses (record : list string) (e : exn)
    (st : loader_state Store) : result (loader_state Store) :=
  match e with
  | IntegrityError msg =>
      if Str.contains "UNIQUE constraint failed" msg then
        Ok (mk_loader (store st) (inserted_count st)
              (logged st ++ [(DEBUG, Skipping_duplicate (hd "unknown" record))]))
      else
        Ok (mk_loader (store st) (inserted_count st)
              (logged st ++ [(ERROR, Integrity_error msg)]))
  | KeyboardInterrupt => Raise e
  | _ =>
      Ok (mk_loader (store st) (inserted_count st)
            (logged st ++ [(ERROR, Error_inserting e);
                           (DEBUG, Record_data (firstn 3 record))]))
  end.

(** [cursor.execute(insert_sql, params)] then [inserted_count += 1],
    inside the [try]. *)
Definition write (record params : list string) (st : loader_state Store)
  : result (loader_state Store) :=
  let (store', raised) := execute (store st) params in
  match raised with
  | None => Ok (mk_loader store' (inserted_count st + 1) (logged st))
  | Some e => except_clauses record e (mk_loader store' (inserted_count st) (logged st))
  end.

(** One row of [load_sql_file]: pad in place to 58, write [record[:58]]. *)
Definition load_sql_file_row (st : loader_state Store)
    (record : list string) : result (loader_state Store) :=
  match pad 58 record with
  | Ok record' => write record' (firstn 58 record') st
  | Raise e => except_clauses record e st
  | OutOfFuel => OutOfFuel
  end.

(** One row of [load_sample_cases_500]: pad in place to 57, rebind
    [record = record[:57]], write [record]. *)
Definition load_sample_cases_500_row (st : loader_state Store)
    (record : list string) : result (loader_state Store) :=
  match pad 57 record with
  | Ok record' => write (firstn 57 record') (firstn 57 record') st
  | Raise e => except_clauses record e st
  | OutOfFuel => OutOfFuel
  end.

(** [for record in records: ...] *)
Fixpoint for_records
    (row : loader_state Store -> list string -> result (loader_state Store))
    (records : list (list string)) (st : loader_state Store)
  : result (loader_state Store) :=
  match records with
  | [] => Ok st
  | record :: rest => st' <- row st record ;; for_records row rest st'
  end.

End Loader.

Arguments except_clauses {Store} record e st.
Arguments write {Store} execute record params st.
Arguments load_sql_file_row {Store} execute st record.
Arguments load_sample_cases_500_row {Store} execute st record.
Arguments for_records {Store} row records st.

(** ** Notions used to state the properties *)

(** [reaches cond body st st']: some iterations of the loop
    [while cond: body] lead from [st] to [st']. *)
Inductive reaches {S : Type} (cond : S -> result bool) (body : S -> result S)
  : S -> S -> Prop :=
| reaches_refl st : reaches cond body st st
| reaches_step st st1 st2 :
    cond st = Ok true -> body st = Ok st1 -> reaches cond body st1 st2 ->
    reaches cond body st st2.

(** [s[n:]] *)
Fixpoint drop (n : nat) (s : string) : string :=
  match n, s with
  | O, _ => s
  | S n', String _ s' => drop n' s'
  | S _, EmptyString => EmptyString
  end.

(** [literal_body s]: [s] can stand between an opening quote and its
    closing quote: a quote occurs in [s] only right after an escape marker,
    and [s] does not end on a pending escape marker. *)
Fixpoint literal_body (s : string) : bool :=
  match s with
  | EmptyString => true
  | String c s' =>
      if Ascii.eqb c Str.backslash then
        match s' with
        | EmptyString => false
        | String _ s'' => literal_body s''
        end
      else if Ascii.eqb c Str.quote then false
      else literal_body s'
  end.

Fixpoint all_chars (p : ascii -> bool) (s : string) : bool :=
  match s with
  | EmptyString => true
  | String c s' => p c && all_chars p s'
  end.

(** A character that no branch of a tokenizer singles out. *)
Definition ordinary (c : ascii) : bool :=
  negb (Ascii.eqb c Str.backslash) && negb (Ascii.eqb c Str.quote)
  && negb (Ascii.eqb c Str.comma) && negb (Ascii.eqb c Str.lparen)
  && negb (Ascii.eqb c Str.rparen).

(** A character that [upper] sends to a letter of [NULL]. *)
Definition null_letter (c : ascii) : bool :=
  let u := Str.upper_char c in
  Ascii.eqb u "N" || Ascii.eqb u "U" || Ascii.eqb u "L".

(** The rows of a parse, without its log records. *)
Definition rows (r : result (log * list (list string)))
  : result (list (list string)) :=
  p <- r ;; Ok (snd p).

(** The log records of a parse. *)
Definition logs (r : result (log * list (list string))) : log :=
  match r with
  | Ok p => fst p
  | _ => []
  end.

(** A log that holds a record of level [WARNING] or [ERROR]. *)
Definition reports_problem (l : log) : bool :=
  existsb (fun e => match fst e with
                    | WARNING | ERROR => true
                    | _ => false
                    end) l.

(** The blobs of the examples. *)
Definition blob_single : string :=
  "INSERT INTO T (a,b,c) VALUES ('Jo, Ann', NULL, 42);".

Definition blob_single_nl : string :=
  ("INSERT INTO T (a,b,c) VALUES" ++ nl ++ "('Jo, Ann', NULL, 42);")%string.

Definition blob_multi : string :=
  "INSERT INTO T (a,b) VALUES ('x'),('y, z');".

Definition blob_multi_nl : string :=
  ("INSERT INTO T (a,b) VALUES" ++ nl ++ "('x'),('y, z')")%string.

Definition blob_unterminated : string :=
  "INSERT INTO T (a) VALUES ('unterminated".

Definition blob_unterminated_nl : string :=
  ("INSERT INTO T (a) VALUES" ++ nl ++ "('unterminated")%string.

Definition blob_open_quote_tail : string :=
  ("INSERT INTO T (a) VALUES" ++ nl ++ "(1) 'abc")%string.

Definition blob_open_paren_tail : string :=
  ("INSERT INTO T (a) VALUES" ++ nl ++ "(1),(2")%string.

(** The parameters a loader of width [N] writes for [record]. *)
Definition row_params (N : nat) (record : list string) : list string :=
  firstn N (record ++ repeat null_sentinel (N - List.length record)).

(** The test of the first [except] clause: an [IntegrityError] whose text
    holds "UNIQUE constraint failed". *)
Definition is_duplicate (e : exn) : bool :=
  match e with
  | IntegrityError msg => Str.contains "UNIQUE constraint failed" msg
  | _ => false
  end.

(** What one row leaves behind in the loader's counters and log, [raised]
    being what its write raised and [seen] the record as the handlers see
    it: a written row is counted and logs nothing; a row whose write raised
    is not counted, and logs one [DEBUG] record "Skipping duplicate case"
    when the error is a duplicate, a first record of level [ERROR]
    otherwise. *)
Definition row_accounting {Store : Type} (raised : option exn)
    (seen : list string) (st st' : loader_state Store) : Prop :=
  match raised with
  | None =>
      inserted_count st' = inserted_count st + 1 /\ logged st' = logged st
  | Some e =>
      inserted_count st' = inserted_count st
      /\ exists lv m more,
           logged st' = logged st ++ (lv, m) :: more
           /\ (if is_duplicate e
               then lv = DEBUG
                    /\ m = Skipping_duplicate (hd "unknown" seen)
                    /\ more = []
               else lv = ERROR)
  end.


(** A store for trying the loaders: a table of case numbers, unique and not
    empty. *)
Definition toy_execute (table : list string) (params : list string)
  : list string * option exn :=
  match params with
  | case :: _ =>
      if existsb (String.eqb case) table then
        (table, Some (IntegrityError "UNIQUE constraint failed: Cases.Case_Number"))
      else if String.eqb case "" then
        (table, Some (OtherException "no case number"))
      else (table ++ [case], None)
  | [] => (table, Some (OtherException "no parameters"))
  end.

(** ** Rows written field by field *)

(** A field of a row as it is written: a quoted literal with the blanks
    that follow its closing quote, or an unquoted token. *)
Inductive field : Type :=
| Quoted (body blanks : string)
| Bare (tok : string).

Definition field_text (f : field) : string :=
  match f with
  | Quoted body blanks =>
      (String Str.quote body ++ String Str.quote blanks)%string
  | Bare tok => tok
  end.

(** The fields joined by commas. *)
Fixpoint render (fields : list field) : string :=
  match fields with
  | [] => EmptyString
  | f :: rest =>
      match rest with
      | [] => field_text f
      | _ :: _ => (field_text f ++ String Str.comma (render rest))%string
      end
  end.

Definition field_ok (f : field) : bool :=
  match f with
  | Quoted body blanks => literal_body body && all_chars Str.in_blank blanks
  | Bare tok => all_chars ordinary tok
  end.

Definition field_value (f : field) : string :=
  match f with
  | Quoted body _ => body
  | Bare tok => bare_value tok
  end.

(** The values of the fields; a blank unquoted token standing last gives
    no value. *)
Fixpoint field_values (fields : list field) : list string :=
  match fields with
  | [] => []
  | f :: rest =>
      match rest, f with
      | [], Bare tok =>
          if Str.truthy (Str.strip tok) then [bare_value tok] else []
      | _, _ => field_value f :: field_values rest
      end
  end.

(** ** Unquoted text with parentheses *)

(** A character that [parse_record_values] appends to an unquoted token. *)
Definition plain (c : ascii) : bool :=
  negb (Ascii.eqb c Str.backslash) && negb (Ascii.eqb c Str.quote)
  && negb (Ascii.eqb c Str.comma).

(** [nested depth u]: [u] has no quote and no escape marker, and each of
    its commas stands where the nesting counter, started at [depth], is
    not zero. *)
Fixpoint nested (depth : Z) (u : string) : bool :=
  match u with
  | EmptyString => true
  | String c u' =>
      negb (Ascii.eqb c Str.backslash) && negb (Ascii.eqb c Str.quote)
      && (if Ascii.eqb c Str.comma then
            negb (depth =? 0)%Z && nested depth u'
          else if Ascii.eqb c Str.lparen then nested (depth + 1) u'
          else if Ascii.eqb c Str.rparen then nested (depth - 1) u'
          else nested depth u')
  end.

(** The nesting counter after [u]. *)
Fixpoint depth_after (depth : Z) (u : string) : Z :=
  match u with
  | EmptyString => depth
  | String c u' =>
      if Ascii.eqb c Str.lparen then depth_after (depth + 1) u'
      else if Ascii.eqb c Str.rparen then depth_after (depth - 1) u'
      else depth_after depth u'
  end.

(** No parenthesis. *)
Definition no_paren (c : ascii) : bool :=
  negb (Ascii.eqb c Str.lparen) && negb (Ascii.eqb c Str.rparen).

(** A state of [parse_values_string] without its nesting counter. *)
Definition forget_count (st : ValuesString.state) : RecordValues.state :=
  RecordValues.mk (ValuesString.i st) (ValuesString.values st)
    (ValuesString.current_value st) (ValuesString.in_string st)
    (ValuesString.escape_next st).

(** ** Characters *)

(** Every value of [vs] is made of characters of the class [q]. *)
Definition made_of (q : ascii -> bool) (vs : list string) : Prop :=
  Forall (fun v => all_chars q v = true) vs.

(** The characters an atom of a pattern can match. *)
Definition accepts (a : Re.atom) (d : ascii) : bool :=
  match a with
  | Re.Lit c => Re.eq_nocase c d
  | Re.One p => p d
  | Re.Star p => p d
  | Re.Open | Re.Close => false
  end.

(** [group_within q pat in_group]: the atoms of [pat] that stand inside
    the capturing group match characters of the class [q] only. *)
Fixpoint group_within (q : ascii -> bool) (pat : Re.pattern)
    (in_group : bool) : Prop :=
  match pat with
  | [] => True
  | Re.Open :: pat' => group_within q pat' true
  | Re.Close :: pat' => group_within q pat' false
  | a :: pat' =>
      (in_group = true -> forall d, accepts a d = true -> q d = true)
      /\ group_within q pat' in_group
  end.

(** ** Statements written out *)

(** [INSERT INTO table (columns) VALUES (row);] followed by [tail]. *)
Definition statement_then (table columns row tail : string) : string :=
  ("INSERT INTO " ++ table ++ " (" ++ columns ++ ") VALUES (" ++ row
   ++ ");" ++ tail)%string.

(** One statement per line. *)
Fixpoint statements (stmts : list (string * string * string)) : string :=
  match stmts with
  | [] => EmptyString
  | (table, columns, row) :: rest =>
      statement_then table columns row (String Str.newline (statements rest))
  end.

(** A table name, a column list and a row text that the statement pattern
    takes as such: a name of word characters, columns without [)], a row
    without [;], none of them empty. *)
Definition statement_ok (stmt : string * string * string) : bool :=
  let '(table, columns, row) := stmt in
  Str.truthy table && all_chars Re.word table
  && Str.truthy columns && all_chars (Re.other_than Str.rparen) columns
  && Str.truthy row && all_chars (Re.other_than Str.semicolon) row.

(** [if values: records.append(values)] for each value list in turn. *)
Definition kept (values : list (list string)) : list (list string) :=
  filter (fun vs => match vs with [] => false | _ => true end) values.

(** The row text of a statement. *)
Definition row_of (stmt : string * string * string) : string :=
  let '(_, _, row) := stmt in row.

(** A statement given by its table, its columns and the fields of its
    row. *)
Definition written (stmt : string * string * list field)
  : string * string * string :=
  let '(table, columns, fields) := stmt in (table, columns, render fields).

(** The fields are well formed, the row they make has no blank at either
    end, and the statement pattern takes table, columns and row. *)
Definition written_ok (stmt : string * string * list field) : bool :=
  let '(table, columns, fields) := stmt in
  forallb field_ok fields
  && String.eqb (Str.strip (render fields)) (render fields)
  && statement_ok (table, columns, render fields).

Definition values_of (stmt : string * string * list field) : list string :=
  let '(_, _, fields) := stmt in field_values fields.

(** ** Row groups written out *)

(** [flat in_string s]: read from inside ([in_string]) or outside of a
    quoted literal, [s] ends outside of one, leaves no escape marker
    pending and has no parenthesis outside of its quoted literals. *)
Fixpoint flat (in_string : bool) (s : string) : bool :=
  match s with
  | EmptyString => negb in_string
  | String c s' =>
      if Ascii.eqb c Str.backslash then
        match s' with
        | EmptyString => false
        | String _ s'' => flat in_string s''
        end
      else if Ascii.eqb c Str.quote then flat (negb in_string) s'
      else if in_string then flat in_string s'
      else if Ascii.eqb c Str.lparen || Ascii.eqb c Str.rparen then false
      else flat in_string s'
  end.

(** Row groups [(row)], each followed by a separating text. *)
Fixpoint groups_text (groups : list (string * string)) : string :=
  match groups with
  | [] => EmptyString
  | (row, sep) :: rest =>
      (String Str.lparen row ++ String Str.rparen sep ++ groups_text rest)%string
  end.

(** A [VALUES] section: a leading text, then the row groups. *)
Definition batch (lead : string) (groups : list (string * string)) : string :=
  (lead ++ groups_text groups)%string.

Definition group_ok (group : string * string) : bool :=
  flat false (fst group) && flat false (snd group).

(** The text behind the last group. *)
Definition trailing (lead : string) (groups : list (string * string))
  : string :=
  last (map snd groups) lead.

(** [Split.append_record] for each text in turn. *)
Fixpoint append_records (records : list (list string)) (texts : list string)
  : result (list (list string)) :=
  match texts with
  | [] => Ok records
  | t :: rest =>
      records' <- Split.append_record records t ;;
      append_records records' rest
  end.

(** A row group given by the fields of its row. *)
Definition written_group (group : list field * string) : string * string :=
  (render (fst group), snd group).

(** The fields are well formed, the row they make is not empty and has no
    blank at either end, and the separating text is flat. *)
Definition written_group_ok (group : list field * string) : bool :=
  forallb field_ok (fst group)
  && Str.truthy (render (fst group))
  && String.eqb (Str.strip (render (fst group))) (render (fst group))
  && flat false (snd group).

(** ** Statements written with a line feed behind VALUES *)

(** [INSERT INTO table (columns) VALUES], a line feed, [(row);], followed
    by [tail]. *)
Definition statement_nl_then (table columns row tail : string) : string :=
  ("INSERT INTO " ++ table ++ " (" ++ columns ++ ") VALUES"
   ++ String Str.newline ("(" ++ row ++ ");" ++ tail))%string.

(** One statement per two lines. *)
Fixpoint statements_nl (stmts : list (string * string * string)) : string :=
  match stmts with
  | [] => EmptyString
  | (table, columns, row) :: rest =>
      statement_nl_then table columns row
        (String Str.newline (statements_nl rest))
  end.

(** What [parse_sql_values] returns when its statement pattern has found
    the texts [matches]. *)
Definition individual (matches : list string)
  : result (log * list (list string)) :=
  records <- parse_matches parse_record_values matches ;;
  Ok ([(INFO, Parsed_individual (List.length records))], records).

(** ** The INSERT statements of the two loaders *)

(** An [INSERT INTO Cases (columns) VALUES (?, ..., ?)] as the loaders build
    it: the columns it names and the number of its placeholders. *)
Record insert_statement : Type := mk_insert {
  named_columns : list string;
  placeholders : nat
}.

(** [insert_sql] of [load_sql_file]: the column names of the list that is
    joined, and [range(58)] placeholders. *)
Definition load_sql_file_insert : insert_statement :=
  mk_insert
    ["Case_Number"; "Subject_Description"; "Description_Description";
     "Issue_Plain_Text"; "Cause_Plain_Text"; "Resolution_Plain_Text";
     "Parent_Id"; "Status_Text"; "Support_Type"; "Record_Name";
     "Product_Hierarchy_Id"; "Case_Internal_Id"; "Case_Comments_Text";
     "Case_Created_Hour"; "Case_Escalated_Flag"; "Cause_Text";
     "Close_Case_Reason_Text"; "Close_Comments_Text"; "Closed_Date_Timestamp";
     "Elevated_Flag"; "Elevation_ID"; "Escalated_Reason_Text";
     "Impact_Summary_Text"; "Order_Type_Code"; "Origin_Name";
     "GSD_Product_Number"; "Reason_Text"; "Type_Text";
     "Any_Customer_Data_Loss"; "Asset_Serial_Number"; "Issue_Text";
     "Install_Issue_Text"; "Resolution_Code"; "Resolution_Sub_Code_Text";
     "New_Install_Text"; "Outage_Text"; "Customer_Impact_Text";
     "Resolution_Text"; "Product_Series"; "GSD_Environment_Text";
     "First_Touch_Time"; "Service_Advisory_Text"; "Error_Codes_Text";
     "Operating_System_Version_Text"; "Operating_System_Text";
     "Problem_Analysis_Text"; "Case_Description";
     "Solution_Class_Description_Text"; "Solution_Class_Name_Text";
     "Asset_Operating_System_Text"; "Asset_Operating_System_Version_Text";
     "Issue_Category_Text"; "Issue_Type_Text";
     "Description_For_Others_Issue_Category_Text";
     "Description_For_Others_Issue_Type_Text";
     "Other_Resolution_Sub_Code_Description_Text";
     "Troubleshooting_Steps_Actions_Taken_Text"]
  58.

(** [case_fields] of [load_sample_cases_500]. *)
Definition case_fields : list string :=
  ["case_number"; "subject_description"; "description_description";
   "issue_plain_text"; "cause_plain_text"; "resolution_plain_text";
   "parent_id"; "status_text"; "support_type"; "record_name";
   "product_hierarchy_id"; "case_internal_id"; "case_comments_text";
   "case_created_hour"; "case_escalated_flag"; "cause_text";
   "close_case_reason_text"; "close_comments_text"; "closed_date_timestamp";
   "elevated_flag"; "elevation_id"; "escalated_reason_text";
   "impact_summary_text"; "order_type_code"; "origin_name";
   "gsd_product_number"; "reason_text"; "type_text";
   "any_customer_data_loss"; "asset_serial_number"; "issue_text";
   "install_issue_text"; "resolution_code"; "resolution_sub_code_text";
   "new_install_text"; "outage_text"; "customer_impact_text";
   "resolution_text"; "product_series"; "gsd_environment_text";
   "first_touch_time"; "service_advisory_text"; "error_codes_text";
   "operating_system_version_text"; "operating_system_text";
   "problem_analysis_text"; "case_description";
   "solution_class_description_text"; "solution_class_name_text";
   "asset_operating_system_text"; "asset_operating_system_version_text";
   "issue_category_text"; "issue_type_text";
   "description_for_others_issue_category_text";
   "description_for_others_issue_type_text";
   "other_resolution_sub_code_description_text";
   "troubleshooting_steps_actions_taken_text"].

(** [insert_sql] of [load_sample_cases_500]: [case_fields] and [range(57)]
    placeholders. *)
Definition load_sample_cases_500_insert : insert_statement :=
  mk_insert case_fields 57.

(** A store that executes statements: [cursor.execute(insert_sql, params)]
    for any [insert_sql].  The loaders of section [Loader] run with the
    statement of the loader fixed. *)
Definition with_statement {Store : Type}
    (sql_execute : Store -> insert_statement -> list string
                   -> Store * option exn)
    (insert_sql : insert_statement)
  : Store -> list string -> Store * option exn :=
  fun s params => sql_execute s insert_sql params.

(** The log records that stand for a row not written: one per row, from
    one of the three branches of the [except] clauses. *)
Definition row_report (e : level * message) : bool :=
  match snd e with
  | Skipping_duplicate _ | Integrity_error _ | Error_inserting _ => true
  | _ => false
  end.

Definition row_reports (l : log) : nat := List.length (filter row_report l).

(** A store for trying statements: a table of rows that takes a row when
    the statement has as many placeholders as columns and as parameters,
    and raises SQLite's [OperationalError] otherwise. *)
Definition toy_sql_execute (table : list (list string))
    (insert_sql : insert_statement) (params : list string)
  : list (list string) * option exn :=
  if (List.length (named_columns insert_sql) =? placeholders insert_sql)
     && (List.length params =? placeholders insert_sql)
  then (table ++ [params], None)
  else (table, Some (OtherException "values for columns")).

(** ** The ingestion loop of [main] (create_full_database.py) *)

Module Ingest.

(** A row of the [SELECT]: the case number, which the query asks not to be
    NULL, and nine columns that hold a text or NULL ([None]). *)
Record case : Type := mk_case {
  case_number : string;
  subject : option string;
  issue : option string;
  resolution : option string;
  status : option string;
  product : option string;
  serial : option string;
  analysis : option string;
  troubleshooting : option string;
  comments : option string
}.

(** [x or d] *)
Definition or_else (x : option string) (d : string) : string :=
  match x with
  | Some s => if Str.truthy s then s else d
  | None => d
  end.

(** The twelve blanks in front of each line of the f-string. *)
Definition indent : string := "            ".

Definition combined_text (c : case) : string :=
  Str.strip
    (nl ++ indent ++ "Subject: " ++ or_else (subject c) "" ++ nl
     ++ indent ++ "Issue: " ++ or_else (issue c) "" ++ nl
     ++ indent ++ "Resolution: " ++ or_else (resolution c) "" ++ nl
     ++ indent ++ "Analysis: " ++ or_else (analysis c) "" ++ nl
     ++ indent ++ "Troubleshooting: " ++ or_else (troubleshooting c) "" ++ nl
     ++ indent ++ "Comments: " ++ or_else (comments c) "" ++ nl
     ++ indent)%string.

Record metadata : Type := mk_metadata {
  md_case_number : string;
  md_status : string;
  md_product_series : string;
  md_serial_number : string;
  md_type : string
}.

Definition metadata_of (c : case) : metadata :=
  mk_metadata (case_number c) (or_else (status c) "Unknown")
    (or_else (product c) "Unknown") (or_else (serial c) "Unknown") "case".

(** [f"case_{case_number}"] *)
Definition id_of (c : case) : string := ("case_" ++ case_number c)%string.

(** [for case in cases: ...]: the three lists grow together. *)
Fixpoint prepare (cases : list case) (documents : list string)
    (metadatas : list metadata) (ids : list string)
  : list string * list metadata * list string :=
  match cases with
  | [] => (documents, metadatas, ids)
  | c :: rest =>
      prepare rest (documents ++ [combined_text c])
        (metadatas ++ [metadata_of c]) (ids ++ [id_of c])
  end.

(** [range(start, stop, step)] for a positive [step]: [start],
    [start + step], ... as long as they are below [stop]. *)
Fixpoint range_from (fuel start stop step : nat) : list nat :=
  match fuel with
  | O => []
  | S fuel' =>
      if start <? stop
      then start :: range_from fuel' (start + step) stop step
      else []
  end.

Definition range (start stop step : nat) : list nat :=
  range_from (stop - start) start stop step.

(** [xs[i:j]] for [i <= j] *)
Definition slice {A : Type} (xs : list A) (i j : nat) : list A :=
  firstn (j - i) (skipn i xs).

Definition batch_size : nat := 100.

(** One [collection.add(documents=..., metadatas=..., ids=...)], with the
    two numbers of the record "Processed batch k/n" logged behind it. *)
Record add_call : Type := mk_add {
  batch_docs : list string;
  batch_metas : list metadata;
  batch_ids : list string;
  batch_number : Z;
  batch_total : Z
}.

(** The body of the batch loop at [i]; the divisions are Python's [//]. *)
Definition batch_at (documents : list string) (metadatas : list metadata)
    (ids : list string) (i : nat) : add_call :=
  mk_add (slice documents i (i + batch_size))
    (slice metadatas i (i + batch_size))
    (slice ids i (i + batch_size))
    (Z.of_nat i / Z.of_nat batch_size + 1)%Z
    ((Z.of_nat (List.length documents) - 1) / Z.of_nat batch_size + 1)%Z.

(** [for i in range(0, len(documents), batch_size): ...]: the calls the
    loop makes, in order.  A call that raises ends the loop, and the calls
    made are then the ones in front of it. *)
Definition batches (documents : list string) (metadatas : list metadata)
    (ids : list string) : list add_call :=
  map (batch_at documents metadatas ids)
    (range 0 (List.length documents) batch_size).

Definition ingest (cases : list case) : list add_call :=
  let '(documents, metadatas, ids) := prepare cases [] [] [] in
  batches documents metadatas ids.

(** The call that hands the cases [cs] over as batch [k + 1] of [n]. *)
Definition add_of (n : nat) (k : nat) (cs : list case) : add_call :=
  mk_add (map combined_text cs) (map metadata_of cs) (map id_of cs)
    (Z.of_nat k + 1)%Z (Z.of_nat n).

End Ingest.

(** ** The schema scripts: [FullDatabaseCreator.create_complete_schema]
       (create_full_database.py) and [SQLDataLoader.create_cases_table]
       (load_sql_data.py) *)

Module Schema.

(** The two kinds of statement the scripts execute; the columns of a
    [CREATE TABLE] play no part in whether it is accepted. *)
Inductive ddl : Type :=
| Drop_table_if_exists (table : string)
| Create_table (table : string).

(** The tables of a database file.  SQLite compares their names without
    regard to the case of the letters [a-z]. *)
Definition catalog : Type := list string.

Definition same_table (a b : string) : bool :=
  String.eqb (Str.upper a) (Str.upper b).

Definition has (c : catalog) (table : string) : bool :=
  existsb (same_table table) c.

(** [cursor.execute(statement)] on a database whose objects are tables:
    [DROP TABLE IF EXISTS] removes the table when there is one, and
    [CREATE TABLE] without [IF NOT EXISTS] raises an [OperationalError]
    when there is one. *)
Definition execute (c : catalog) (stmt : ddl) : result catalog :=
  match stmt with
  | Drop_table_if_exists t => Ok (filter (fun x => negb (same_table t x)) c)
  | Create_table t =>
      if has c t
      then Raise (OtherException ("table " ++ t ++ " already exists"))
      else Ok (c ++ [t])
  end.

Fixpoint run (script : list ddl) (c : catalog) : result catalog :=
  match script with
  | [] => Ok c
  | stmt :: rest => c' <- execute c stmt ;; run rest c'
  end.

Definition tables_to_drop : list string :=
  ["Cases"; "Case_Feed"; "EmailMessage"; "Feed_Comment";
   "Product_Hierarchy"; "Service_Delivery_task"; "Activity_Task";
   "Service_Delivery_Part_Order"; "Service_Delivery_Part_Order_Line"].

(** The tables of the [CREATE TABLE] statements, in the order of the
    script. *)
Definition tables_to_create : list string :=
  ["Cases"; "Case_Feed"; "EmailMessage"; "Feed_Comment";
   "Product_Hierarchy"; "Service_Delivery_task"; "Knowledge_Articles"].

Definition create_complete_schema (c : catalog) : result catalog :=
  run (map Drop_table_if_exists tables_to_drop
       ++ map Create_table tables_to_create) c.

Definition create_cases_table (c : catalog) : result catalog :=
  run [Drop_table_if_exists "Cases"; Create_table "Cases"] c.

(** No two names of the list are the same table. *)
Fixpoint distinct (tables : list string) : bool :=
  match tables with
  | [] => true
  | t :: rest => negb (existsb (same_table t) rest) && distinct rest
  end.

(** SQLite's text for a table that is there. *)
Definition already_exists (t : string) : exn :=
  OtherException ("table " ++ t ++ " already exists").

End Schema.

(** ** [FullDatabaseCreator.create_sample_related_data]
       (create_full_database.py) *)

Module Related.

(** A value bound to a placeholder: [None], a [str] or an [int]. *)
Inductive value : Type :=
| Null
| Text (s : string)
| Int (n : Z).

(** A column of a fetched row, a text or NULL, bound as it is. *)
Definition of_option (x : option string) : value :=
  match x with
  | Some s => Text s
  | None => Null
  end.

(** [f"{x}"] *)
Definition fmt (x : option string) : string :=
  match x with
  | Some s => s
  | None => "None"
  end.

(** [f"{i:03d}"]: the decimal digits of [i], with zeros in front up to
    three characters. *)
Definition fmt_03d (i : nat) : string :=
  let d := DecimalString.NilZero.string_of_uint (Nat.to_uint i) in
  (String.concat "" (repeat "0" (3 - String.length d)) ++ d)%string.

(** The two tuples one case adds to [feed_entries]. *)
Definition feed_entries_of (case_num case_id : option string)
  : list (list value) :=
  [[of_option case_id;
    Text "TextPost";
    Text ("CFI" ++ fmt case_id ++ "001")%string;
    Int 0;
    Text "2024-01-15 10:30:00";
    Text "user123";
    Text "2024-01-15 10:30:00";
    Text "2024-01-15 10:30:00";
    Text ("Initial diagnosis for case " ++ fmt case_num ++
          ". Investigating hardware failure symptoms.")%string;
    Int 2;
    Text "Initial case assessment";
    Text "";
    Int 0;
    Text "";
    Text "user123";
    Int 0;
    Text "";
    Text "InternalUsers";
    of_option case_id;
    Text ("Case " ++ fmt case_num ++ " - Initial Assessment")%string;
    Text "InternalUsers";
    Text "2024-01-15 10:30:00";
    Text "2024-01-15 10:30:00";
    Int 0];
   [of_option case_id;
    Text "TextPost";
    Text ("CFI" ++ fmt case_id ++ "002")%string;
    Int 0;
    Text "2024-01-15 14:20:00";
    Text "tech456";
    Text "2024-01-15 14:20:00";
    Text "2024-01-15 14:20:00";
    Text ("Customer provided additional logs for case " ++ fmt case_num ++
          ". Analyzing error patterns.")%string;
    Int 1;
    Text "Technical analysis update";
    Text "";
    Int 0;
    Text "";
    Text "tech456";
    Int 0;
    Text "";
    Text "InternalUsers";
    of_option case_id;
    Text ("Case " ++ fmt case_num ++ " - Technical Analysis")%string;
    Text "InternalUsers";
    Text "2024-01-15 14:20:00";
    Text "2024-01-15 14:20:00";
    Int 0]].

(** The tuple one case adds to [email_entries]. *)
Definition email_entry_of (i : nat) (case_num case_id : option string)
  : list value :=
  [Text ("EM" ++ fmt case_id ++ fmt_03d i)%string;
   of_option case_id;
   Text "customer@company.com";
   Text "support@hpe.com";
   Text "2024-01-15 09:15:00";
   Text ("Re: Case " ++ fmt case_num ++ " - Hardware Issue")%string;
   Text ("Hi HPE Support team," ++ nl ++ nl ++
         "I am writing regarding case " ++ fmt case_num ++
         ". Our server is experiencing intermittent hardware" ++
         " failures. The system logs show multiple error codes that" ++
         " we need help interpreting." ++ nl ++ nl ++
         "Could you please provide guidance on next steps?" ++ nl ++ nl ++
         "Best regards," ++ nl ++ "Customer")%string;
   Text "2024-01-15 09:15:00"].

(** The two tuples one case adds to [comment_entries]. *)
Definition comment_entries_of (case_num case_id : option string)
  : list (list value) :=
  [[Text ("FC" ++ fmt case_id ++ "001")%string;
    Int 0;
    Text "2024-01-15 11:00:00";
    Text "expert789";
    Text ("Based on the symptoms for case " ++ fmt case_num ++
          ", this appears to be a known issue with this hardware" ++
          " generation. Recommend checking firmware version first.")%string;
    Text "TextComment";
    Text ("CFI" ++ fmt case_id ++ "001")%string;
    Text "expert789";
    of_option case_id;
    of_option case_id;
    Text "2024-01-15 11:00:00";
    Text "2024-01-15 11:00:00"];
   [Text ("FC" ++ fmt case_id ++ "002")%string;
    Int 0;
    Text "2024-01-15 15:30:00";
    Text "user123";
    Text ("Thanks for the feedback on case " ++ fmt case_num ++
          ". Customer confirmed firmware is outdated. Proceeding with" ++
          " update.")%string;
    Text "TextComment";
    Text ("CFI" ++ fmt case_id ++ "001")%string;
    Text "user123";
    of_option case_id;
    of_option case_id;
    Text "2024-01-15 15:30:00";
    Text "2024-01-15 15:30:00"]].

Definition knowledge_articles : list (list value) :=
  [[Text "KB001";
    Text "ProLiant Server Boot Failure Troubleshooting";
    Text ("This article provides comprehensive troubleshooting steps" ++
          " for ProLiant servers that fail to boot. Common causes" ++
          " include memory issues, power supply problems, and firmware" ++
          " corruption.")%string;
    Text ("Step-by-step guide for diagnosing and resolving ProLiant" ++
          " server boot failures")%string;
    Text "Server Hardware";
    Text "ProLiant";
    Text "Boot Failure";
    Text "Hardware Replacement";
    Text "2024-01-01";
    Text "2024-01-15";
    Text "Published"];
   [Text "KB002";
    Text "Network Connectivity Issues in Gen10 Servers";
    Text ("Guide for resolving network connectivity problems in HPE" ++
          " ProLiant Gen10 servers. Covers NIC diagnostics, driver" ++
          " updates, and hardware troubleshooting.")%string;
    Text "Comprehensive network troubleshooting for Gen10 servers";
    Text "Networking";
    Text "ProLiant Gen10";
    Text "Network Issues";
    Text "Driver Update";
    Text "2024-01-02";
    Text "2024-01-10";
    Text "Published"];
   [Text "KB003";
    Text "Memory Module Failure Detection and Resolution";
    Text ("Instructions for identifying faulty memory modules and" ++
          " proper replacement procedures. Includes memory testing" ++
          " utilities and compatibility guidelines.")%string;
    Text "Memory diagnostic and replacement procedures";
    Text "Server Hardware";
    Text "All Series";
    Text "Memory Issues";
    Text "Hardware Replacement";
    Text "2024-01-03";
    Text "2024-01-12";
    Text "Published"];
   [Text "KB004";
    Text "BIOS Firmware Recovery Procedures";
    Text ("Step-by-step process for recovering corrupted BIOS firmware" ++
          " on HPE servers. Includes recovery modes and emergency" ++
          " procedures.")%string;
    Text "BIOS recovery and firmware restoration guide";
    Text "Firmware";
    Text "All Series";
    Text "BIOS Corruption";
    Text "Firmware Update";
    Text "2024-01-04";
    Text "2024-01-08";
    Text "Published"]].

(** [for i, (case_num, case_id) in enumerate(cases[:10])] *)
Definition feed_entries (cases : list (option string * option string))
  : list (list value) :=
  flat_map (fun c => feed_entries_of (fst c) (snd c)) (firstn 10 cases).

(** [enumerate(xs)] *)
Definition enumerate {A : Type} (xs : list A) : list (nat * A) :=
  combine (seq 0 (List.length xs)) xs.

(** [for i, (case_num, case_id) in enumerate(cases[:5])] *)
Definition email_entries (cases : list (option string * option string))
  : list (list value) :=
  map (fun p => email_entry_of (fst p) (fst (snd p)) (snd (snd p)))
    (enumerate (firstn 5 cases)).

(** [for i, (case_num, case_id) in enumerate(cases[:8])] *)
Definition comment_entries (cases : list (option string * option string))
  : list (list value) :=
  flat_map (fun c => comment_entries_of (fst c) (snd c)) (firstn 8 cases).

(** The four statements of the [executemany] calls. *)
Definition case_feed_insert : insert_statement :=
  mk_insert
    ["Parent_Id"; "Type_Text"; "Case_Feed_Internal_Id"; "Is_Deleted_Flag";
     "Created_Timestamp"; "Created_By_Id"; "Last_Modified_Timestamp";
     "System_Mod_Timestamp"; "Body_Text"; "Comment_Count";
     "Content_Description"; "Content_File_Name"; "Content_Size_Number";
     "Content_Type_Text"; "Inserted_By_Id"; "Like_Count"; "Link_Url_Text";
     "Network_Scope_Text"; "Related_Record_Id"; "Title_Text";
     "Visibility_Text"; "Insert_GMT_Timestamp"; "Update_GMT_Timestamp";
     "Is_Rich_Text_Flag"]
    24.

Definition email_message_insert : insert_statement :=
  mk_insert
    ["Email_Id"; "ParentId"; "FromAddress"; "ToAddress"; "MessageDate";
     "Subject"; "TextBody"; "CreatedDate"]
    8.

Definition feed_comment_insert : insert_statement :=
  mk_insert
    ["Feed_Comment_Internal_Id"; "Is_Deleted_Flag"; "Created_Timestamp";
     "Created_By_Id"; "Comment_Body_Text"; "Comment_Type"; "Feed_Item_Id";
     "Inserted_By_Id"; "Parent_Id"; "Related_Record_Id";
     "Insert_GMT_Timestamp"; "Update_GMT_Timestamp"]
    12.

Definition knowledge_articles_insert : insert_statement :=
  mk_insert
    ["article_id"; "title"; "content"; "summary"; "category"; "product_line";
     "issue_type"; "resolution_type"; "created_date"; "modified_date";
     "status"]
    11.

(** What the function does with the rows [cases] of its [SELECT]: without
    rows it logs the warning "No cases found to create related data" and
    returns; with rows it makes the four [executemany] calls, in order,
    and logs the four numbers of entries.  A call that raises ends the
    function there. *)
Inductive outcome : Type :=
| No_cases_found
| Created (calls : list (insert_statement * list (list value)))
          (logged_counts : list nat).

Definition create_sample_related_data
    (cases : list (option string * option string)) : outcome :=
  match cases with
  | [] => No_cases_found
  | _ =>
      Created
        [(case_feed_insert, feed_entries cases);
         (email_message_insert, email_entries cases);
         (feed_comment_insert, comment_entries cases);
         (knowledge_articles_insert, knowledge_articles)]
        [List.length (feed_entries cases);
         List.length (email_entries cases);
         List.length (comment_entries cases);
         List.length knowledge_articles]
  end.

(** The value a tuple binds to the column [name] of a statement. *)
Fixpoint lookup (names : list string) (row : list value) (name : string)
  : option value :=
  match names, row with
  | n :: names', v :: row' =>
      if String.eqb n name then Some v else lookup names' row' name
  | _, _ => None
  end.

Definition column (insert_sql : insert_statement) (name : string)
    (row : list value) : option value :=
  lookup (named_columns insert_sql) row name.

End Related.

(** ** The loaders as whole functions

    [load_sql_file] (load_sql_data.py) and [load_sample_cases_500]
    (create_full_database.py), from the file to the count returned.
    Connecting, committing and closing are left to the store. *)

(** The file a loader is pointed at. *)
Inductive sql_file : Type :=
| Missing                          (* there is no such file *)
| Unreadable                       (* it is there, reading it raises *)
| Content (sql_content : string).  (* [f.read()] *)

(** The records a loader logs of its own, and around them the records of
    its parser and of its row loop. *)
Inductive file_message : Type :=
| Loading                      (* "Loading SQL file: ...", "Loading 500 cases from ..." *)
| File_not_found               (* "SQL file not found: ..." *)
| Failed_to_read               (* "Failed to read ..." *)
| Parsed_from_file (n : nat)   (* "Parsed {n} records from SQL file" *)
| No_records_found             (* "No records found ..." *)
| Inserted (n : nat)           (* "Inserted {n} records ...", "Inserted {n} cases ..." *)
| Within (m : message).

Definition file_log : Type := list (level * file_message).

Definition within (l : log) : file_log :=
  map (fun e => (fst e, Within (snd e))) l.

(** What a loader leaves: the count it returns, the store, its log. *)
Record loaded (Store : Type) : Type := mk_loaded {
  returned : nat;
  left_store : Store;
  file_logged : file_log
}.

Arguments mk_loaded {Store} _ _ _.
Arguments returned {Store} _.
Arguments left_store {Store} _.
Arguments file_logged {Store} _.

(** [SQLDataLoader.load_sql_file]: [open] raises for a missing file as for
    an unreadable one. *)
Definition load_sql_file {Store : Type}
    (execute : Store -> list string -> Store * option exn)
    (file : sql_file) (s : Store) : result (loaded Store) :=
  match file with
  | Missing | Unreadable =>
      Ok (mk_loaded 0 s [(INFO, Loading); (ERROR, Failed_to_read)])
  | Content sql_content =>
      p <- parse_sql_values sql_content ;;
      match snd p with
      | [] =>
          Ok (mk_loaded 0 s
                ([(INFO, Loading)] ++ within (fst p)
                 ++ [(WARNING, No_records_found)]))
      | records =>
          st <- for_records (load_sql_file_row execute) records
                  (mk_loader s 0 []) ;;
          Ok (mk_loaded (inserted_count st) (store st)
                ([(INFO, Loading)] ++ within (fst p) ++ within (logged st)
                 ++ [(INFO, Inserted (inserted_count st))]))
      end
  end.

(** [FullDatabaseCreator.load_sample_cases_500] *)
Definition load_sample_cases_500 {Store : Type}
    (execute : Store -> list string -> Store * option exn)
    (file : sql_file) (s : Store) : result (loaded Store) :=
  match file with
  | Missing => Ok (mk_loaded 0 s [(ERROR, File_not_found)])
  | Unreadable =>
      Ok (mk_loaded 0 s [(INFO, Loading); (ERROR, Failed_to_read)])
  | Content sql_content =>
      records <- parse_sql_insert_statements sql_content ;;
      match records with
      | [] =>
          Ok (mk_loaded 0 s
                [(INFO, Loading); (INFO, Parsed_from_file 0);
                 (WARNING, No_records_found)])
      | _ =>
          st <- for_records (load_sample_cases_500_row execute) records
                  (mk_loader s 0 []) ;;
          Ok (mk_loaded (inserted_count st) (store st)
                ([(INFO, Loading);
                  (INFO, Parsed_from_file (List.length records))]
                 ++ within (logged st)
                 ++ [(INFO, Inserted (inserted_count st))]))
      end
  end.

(** The store after the writes of the rows [records], each fitted to the
    width [N], whatever they raise. *)
Definition writes_of {Store : Type}
    (execute : Store -> list string -> Store * option exn) (N : nat)
    (records : list (list string)) (s : Store) : Store :=
  fold_left (fun s r => fst (execute s (row_params N r))) records s.

(** ** Calls of the logger and records of the log

    Both scripts start with [logging.basicConfig(level=logging.INFO)]: a
    call of [logger.debug] makes no record.  A [log] lists the calls of
    the logger, in order; [emitted] keeps the ones that make a record. *)

Definition emitted (l : log) : log :=
  filter (fun e => match fst e with DEBUG => false | _ => true end) l.

(** The calls "Skipping duplicate case", one per row skipped. *)
Definition skipped_duplicates (l : log) : nat :=
  List.length
    (filter (fun e => match snd e with
                      | Skipping_duplicate _ => true
                      | _ => false
                      end) l).

(** ** The loaders with their connection, and the way to them from [main]

    In both loaders [sqlite3.connect(self.db_path)] stands in front of the
    row loop and [conn.commit()], [conn.close()] behind it, outside of
    every [try]; the two [main]s call the loaders outside of every [try],
    and [asyncio.run(main())] stands under no handler. *)

Module Connected.

(** The records the functions between [main] and a loader log of their
    own, and around them the records of the loaders. *)
Inductive script_message : Type :=
| Starting                  (* "Starting SQL data loading process...", "Starting full database creation with 500 cases..." *)
| Sql_file_not_found        (* "SQL file not found: ..." of [load_all_sql_files] *)
| Total_cases (n : nat)     (* "Total cases in database: {n}" *)
| Complete (n : nat)        (* "... complete! Loaded {n} ..." *)
| Starting_ingestion        (* "Starting ChromaDB ingestion ..." *)
| Of_loader (m : file_message).

Definition script_log : Type := list (level * script_message).

Definition of_loader (l : file_log) : script_log :=
  map (fun e => (fst e, Of_loader (snd e))) l.

(** How the process of a script ends: [asyncio.run(main())] returns, or
    the exception [main] raised ends the process. *)
Inductive process_end : Type :=
| Exit_normally
| Died_of (e : exn)
| Unfinished.

Definition run_script {A : Type} (main : result A) : process_end :=
  match main with
  | Ok _ => Exit_normally
  | Raise e => Died_of e
  | OutOfFuel => Unfinished
  end.

Section WithConnection.

Variable Store : Type.

(** [sqlite3.connect(self.db_path)] with [conn.cursor()], then
    [cursor.execute], [conn.commit()] and [conn.close()], on the database
    as it stands; each of them returns or raises. *)
Variable connect : Store -> result Store.
Variable execute : Store -> list string -> Store * option exn.
Variable commit : Store -> result Store.
Variable close : Store -> result Store.

(** [SQLDataLoader.load_sql_file] *)
Definition load_sql_file (file : sql_file) (s : Store)
  : result (loaded Store) :=
  match file with
  | Missing | Unreadable =>
      Ok (mk_loaded 0 s [(INFO, Loading); (ERROR, Failed_to_read)])
  | Content sql_content =>
      p <- parse_sql_values sql_content ;;
      match snd p with
      | [] =>
          Ok (mk_loaded 0 s
                ([(INFO, Loading)] ++ within (fst p)
                 ++ [(WARNING, No_records_found)]))
      | records =>
          s0 <- connect s ;;
          st <- for_records (load_sql_file_row execute) records
                  (mk_loader s0 0 []) ;;
          s1 <- commit (store st) ;;
          s2 <- close s1 ;;
          Ok (mk_loaded (inserted_count st) s2
                ([(INFO, Loading)] ++ within (fst p) ++ within (logged st)
                 ++ [(INFO, Inserted (inserted_count st))]))
      end
  end.

(** [FullDatabaseCreator.load_sample_cases_500] *)
Definition load_sample_cases_500 (file : sql_file) (s : Store)
  : result (loaded Store) :=
  match file with
  | Missing => Ok (mk_loaded 0 s [(ERROR, File_not_found)])
  | Unreadable =>
      Ok (mk_loaded 0 s [(INFO, Loading); (ERROR, Failed_to_read)])
  | Content sql_content =>
      records <- parse_sql_insert_statements sql_content ;;
      match records with
      | [] =>
          Ok (mk_loaded 0 s
                [(INFO, Loading); (INFO, Parsed_from_file 0);
                 (WARNING, No_records_found)])
      | _ =>
          s0 <- connect s ;;
          st <- for_records (load_sample_cases_500_row execute) records
                  (mk_loader s0 0 []) ;;
          s1 <- commit (store st) ;;
          s2 <- close s1 ;;
          Ok (mk_loaded (inserted_count st) s2
                ([(INFO, Loading);
                  (INFO, Parsed_from_file (List.length records))]
                 ++ within (logged st)
                 ++ [(INFO, Inserted (inserted_count st))]))
      end
  end.

(** The other methods on the way, each with its own connection; what they
    log is theirs.  [count_cases] is the [SELECT COUNT] that ends
    [load_all_sql_files]. *)
Variable create_cases_table : Store -> result Store.
Variable count_cases : Store -> result nat.
Variable create_complete_schema : Store -> result Store.
Variable create_sample_related_data : Store -> result Store.
Variable verify_database : Store -> result Store.

(** One turn of [for sql_file in sql_files] in [load_all_sql_files]. *)
Definition load_if_exists (file : sql_file)
    (acc : nat * Store * script_log) : result (nat * Store * script_log) :=
  let '(total_loaded, s, l) := acc in
  match file with
  | Missing => Ok (total_loaded, s, l ++ [(WARNING, Sql_file_not_found)])
  | _ =>
      r <- load_sql_file file s ;;
      Ok (total_loaded + returned r, left_store r,
          l ++ of_loader (file_logged r))
  end.

(** [SQLDataLoader.load_all_sql_files], on the two files it looks for. *)
Definition load_all_sql_files (case_sql sample_cases_500_sql : sql_file)
    (s : Store) : result (nat * Store * script_log) :=
  s0 <- create_cases_table s ;;
  a1 <- load_if_exists case_sql (0, s0, []) ;;
  a2 <- load_if_exists sample_cases_500_sql a1 ;;
  let '(total_loaded, s2, l) := a2 in
  total_cases <- count_cases s2 ;;
  Ok (total_loaded, s2, l ++ [(INFO, Total_cases total_cases)]).

(** [main] of load_sql_data.py, up to the [try] around the ingestion. *)
Definition load_sql_data_main (case_sql sample_cases_500_sql : sql_file)
    (s : Store) : result (nat * Store * script_log) :=
  r <- load_all_sql_files case_sql sample_cases_500_sql s ;;
  let '(total_loaded, s', l) := r in
  Ok (total_loaded, s',
      [(INFO, Starting)] ++ l
      ++ [(INFO, Complete total_loaded); (INFO, Starting_ingestion)]).

(** [main] of create_full_database.py, up to the [try] around the
    ingestion. *)
Definition create_full_database_main (sample_cases_500_sql : sql_file)
    (s : Store) : result (nat * Store * script_log) :=
  s1 <- create_complete_schema s ;;
  r <- load_sample_cases_500 sample_cases_500_sql s1 ;;
  s2 <- create_sample_related_data (left_store r) ;;
  s3 <- verify_database s2 ;;
  Ok (returned r, s3,
      [(INFO, Starting)] ++ of_loader (file_logged r)
      ++ [(INFO, Complete (returned r)); (INFO, Starting_ingestion)]).

End WithConnection.

Arguments load_sql_file {Store} connect execute commit close file s.
Arguments load_sample_cases_500 {Store} connect execute commit close file s.
Arguments load_all_sql_files {Store} connect execute commit close
  create_cases_table count_cases case_sql sample_cases_500_sql s.
Arguments load_sql_data_main {Store} connect execute commit close
  create_cases_table count_cases case_sql sample_cases_500_sql s.
Arguments create_full_database_main {Store} connect execute commit close
  create_complete_schema create_sample_related_data verify_database
  sample_cases_500_sql s.

End Connected.

(** A database for trying the scripts: the table of case numbers of
    [toy_execute], with a [commit] that finds the file locked by another
    process ([sqlite3.OperationalError]). *)
Definition locked_commit (table : list string) : result (list string) :=
  Raise (OtherException "database is locked").

Definition empty_table (table : list string) : result (list string) := Ok [].

Definition count_rows (table : list string) : result nat :=
  Ok (List.length table).

(** The three things that can become of a row: counted, reported by a
    record of the log, or skipped with a call that makes no record. *)
Definition accounted {Store : Type} (n : nat) (st st' : loader_state Store)
  : Prop :=
  inserted_count st' + row_reports (emitted (logged st'))
  + skipped_duplicates (logged st')
  = inserted_count st + row_reports (emitted (logged st))
    + skipped_duplicates (logged st) + n
  /\ skipped_duplicates (emitted (logged st'))
     = skipped_duplicates (emitted (logged st)).

(** * Properties *)

(** ** Text *)

Lemma strlen_app (a b : string) :
  String.length (a ++ b) = String.length a + String.length b.
Proof. induction a as [|c a IH]; simpl; [reflexivity | now rewrite IH]. Qed.

Lemma get_in_range (s : string) (k : nat) :
  k < String.length s -> exists c, String.get k s = Some c.
Proof.
  revert k; induction s as [|c s IH]; simpl; intros k Hk; [lia|].
  destruct k as [|k]; [now exists c | apply IH; lia].
Qed.

Lemma getitem_in_range (s : string) (k : nat) :
  k < Str.len s -> exists c, Str.getitem s k = Ok c.
Proof.
  intros Hk. destruct (get_in_range s k Hk) as [c Hc].
  exists c. unfold Str.getitem. now rewrite Hc.
Qed.

Lemma app_assoc_str (a b c : string) : ((a ++ b) ++ c = a ++ (b ++ c))%string.
Proof. induction a as [|x a IH]; simpl; [reflexivity | now rewrite IH]. Qed.

Lemma app_empty_r (a : string) : (a ++ "" = a)%string.
Proof. induction a as [|x a IH]; simpl; [reflexivity | now rewrite IH]. Qed.

Lemma add_char_app (a : string) (c : ascii) (b : string) :
  (Str.add_char a c ++ b = a ++ String c b)%string.
Proof. unfold Str.add_char. now rewrite app_assoc_str. Qed.

(** ** Loops *)

Section While.

Context {S : Type}.
Variable cond : S -> result bool.
Variable body : S -> result S.

Lemma reaches_trans st1 st2 st3 :
  reaches cond body st1 st2 -> reaches cond body st2 st3 ->
  reaches cond body st1 st3.
Proof.
  induction 1 as [|st st1 st2 Hc Hb _ IH]; intros H23; [assumption|].
  eapply reaches_step; eauto.
Qed.

Lemma reaches_one st st1 :
  cond st = Ok true -> body st = Ok st1 -> reaches cond body st st1.
Proof. intros Hc Hb. eapply reaches_step; eauto using reaches_refl. Qed.

Lemma while_more_fuel fuel fuel' st r :
  while fuel cond body st = Ok r -> fuel <= fuel' ->
  while fuel' cond body st = Ok r.
Proof.
  revert fuel' st; induction fuel as [|fuel IH]; intros fuel' st H Hle.
  - destruct fuel'; simpl in *; destruct (cond st) as [[|]| |]; simpl in *;
      congruence.
  - destruct fuel' as [|fuel']; [lia|].
    simpl in *. destruct (cond st) as [[|]| |]; simpl in *; try congruence.
    destruct (body st) as [st1| |]; simpl in *; try congruence.
    apply IH; [assumption | lia].
Qed.

Lemma while_deterministic fuel fuel' st r r' :
  while fuel cond body st = Ok r -> while fuel' cond body st = Ok r' ->
  r = r'.
Proof.
  intros H H'.
  apply while_more_fuel with (fuel' := Nat.max fuel fuel') in H; [|lia].
  apply while_more_fuel with (fuel' := Nat.max fuel fuel') in H'; [|lia].
  congruence.
Qed.

Lemma while_reaches st st' :
  reaches cond body st st' ->
  forall fuel r, while fuel cond body st' = Ok r ->
  exists fuel', while fuel' cond body st = Ok r.
Proof.
  induction 1 as [|st st1 st2 Hc Hb _ IH]; intros fuel r Hr.
  - now exists fuel.
  - destruct (IH fuel r Hr) as [f Hf].
    exists (Datatypes.S f). simpl. rewrite Hc. simpl. rewrite Hb. simpl.
    exact Hf.
Qed.

(** What the loop ends in is reached from where it started, and the
    condition is false there. *)
Lemma while_ends fuel st r :
  while fuel cond body st = Ok r ->
  reaches cond body st r /\ cond r = Ok false.
Proof.
  revert st; induction fuel as [|fuel IH]; intros st H; simpl in H.
  - destruct (cond st) as [[|]| |] eqn:Hc; simpl in H; try congruence.
    inversion H; subst. split; [apply reaches_refl | assumption].
  - destruct (cond st) as [[|]| |] eqn:Hc; simpl in H; try congruence.
    + destruct (body st) as [st1| |] eqn:Hb; simpl in H; try congruence.
      destruct (IH st1 H) as [Hr Hf]. split; [|assumption].
      eapply reaches_step; eauto.
    + inversion H; subst. split; [apply reaches_refl | assumption].
Qed.

End While.

(** A loop [while idx(st) < n] whose body moves [idx] strictly forward and
    keeps an invariant [P] ends within [n - idx(st)] iterations. *)
Lemma while_cursor_total {S : Type} (idx : S -> nat) (n : nat)
    (body : S -> result S) (P : S -> Prop) :
  (forall st, P st -> idx st < n ->
     exists st', body st = Ok st' /\ idx st < idx st' /\ P st') ->
  forall fuel st, P st -> n <= fuel + idx st ->
  exists st', while fuel (fun st => Ok (idx st <? n)) body st = Ok st'
              /\ n <= idx st' /\ P st'.
Proof.
  intros Hbody fuel; induction fuel as [|fuel IH]; intros st HP Hfuel.
  - exists st. simpl.
    destruct (Nat.ltb_spec (idx st) n); [lia | auto].
  - simpl. destruct (Nat.ltb_spec (idx st) n) as [Hlt|Hge].
    + destruct (Hbody st HP Hlt) as (st1 & Hb & Hadv & HP1).
      rewrite Hb. simpl. apply IH; [assumption | lia].
    + exists st. auto.
Qed.

Lemma while_done {S : Type} (cond : S -> result bool) (body : S -> result S)
    (fuel : nat) (st : S) :
  cond st = Ok false -> while fuel cond body st = Ok st.
Proof. intros H. destruct fuel; simpl; rewrite H; reflexivity. Qed.

(** ** The look-ahead after a closing quote stays inside the text *)

Lemma skip_blanks_fuel (s : string) :
  forall fuel i, i < Str.len s -> Str.len s <= fuel + i + 1 ->
  exists i1, while fuel (blank_ahead s) (fun i => Ok (i + 1)) i = Ok i1
             /\ i <= i1 < Str.len s.
Proof.
  induction fuel as [|fuel IH]; intros i Hi Hfuel; simpl; unfold blank_ahead at 1.
  - destruct (Nat.ltb_spec (i + 1) (Str.len s)); [lia|].
    simpl. exists i. split; [reflexivity | lia].
  - destruct (Nat.ltb_spec (i + 1) (Str.len s)) as [Hlt|Hge].
    + destruct (getitem_in_range s (i + 1) Hlt) as [c Hc]. rewrite Hc. simpl.
      destruct (Str.in_blank c).
      * destruct (IH (i + 1) Hlt) as (i1 & H1 & Hb); [lia|].
        exists i1. split; [exact H1 | lia].
      * exists i. split; [reflexivity | lia].
    + simpl. exists i. split; [reflexivity | lia].
Qed.

Lemma skip_blanks_ok (s : string) (i : nat) :
  i < Str.len s ->
  exists i1, skip_blanks s i = Ok i1 /\ i <= i1 < Str.len s.
Proof. intros Hi. apply skip_blanks_fuel; [assumption | lia]. Qed.

Lemma skip_comma_ok (s : string) (i : nat) :
  i < Str.len s ->
  exists i2, skip_comma s i = Ok i2 /\ i <= i2 < Str.len s.
Proof.
  intros Hi. unfold skip_comma.
  destruct (Nat.ltb_spec (i + 1) (Str.len s)) as [Hlt|Hge].
  - destruct (getitem_in_range s (i + 1) Hlt) as [c Hc]. rewrite Hc. simpl.
    destruct (Ascii.eqb c Str.comma); eexists; (split; [reflexivity | lia]).
  - exists i. split; [reflexivity | lia].
Qed.

Lemma skip_after_quote (s : string) (i : nat) :
  i < Str.len s ->
  exists i1 i2, skip_blanks s i = Ok i1 /\ skip_comma s i1 = Ok i2
                /\ i <= i2 < Str.len s.
Proof.
  intros Hi.
  destruct (skip_blanks_ok s i Hi) as (i1 & H1 & Hb1).
  destruct (skip_comma_ok s i1) as (i2 & H2 & Hb2); [lia|].
  exists i1, i2. repeat split; try assumption; lia.
Qed.

Lemma skip_total (s : string) (i : nat) :
  exists i1 i2, skip_blanks s i = Ok i1 /\ skip_comma s i1 = Ok i2.
Proof.
  destruct (Nat.lt_ge_cases i (Str.len s)) as [Hlt|Hge].
  - destruct (skip_after_quote s i Hlt) as (i1 & i2 & H1 & H2 & _). eauto.
  - exists i, i. unfold skip_blanks, skip_comma. split.
    + apply while_done. unfold blank_ahead.
      destruct (Nat.ltb_spec (i + 1) (Str.len s)); [lia | reflexivity].
    + destruct (Nat.ltb_spec (i + 1) (Str.len s)); [lia | reflexivity].
Qed.

(** Splits on every test of a loop body. *)
Ltac branches :=
  repeat match goal with
         | |- context [if ?b then _ else _] => destruct b
         end.

(** ** Every iteration moves the cursor forward, no read leaves the text *)

Lemma rv_body_advances (s : string) (st : RecordValues.state) :
  RecordValues.i st < Str.len s ->
  exists st', RecordValues.body s st = Ok st'
              /\ RecordValues.i st < RecordValues.i st' <= Str.len s.
Proof.
  intros Hi. unfold RecordValues.body.
  destruct (getitem_in_range s _ Hi) as [c Hc]. rewrite Hc. simpl.
  destruct (skip_after_quote s _ Hi) as (i1 & i2 & H1 & H2 & Hb).
  rewrite H1. simpl. rewrite H2. simpl.
  branches; eexists; (split; [reflexivity | simpl; lia]).
Qed.

Lemma vs_body_advances (s : string) (st : ValuesString.state) :
  ValuesString.i st < Str.len s ->
  exists st', ValuesString.body s st = Ok st'
              /\ ValuesString.i st < ValuesString.i st' <= Str.len s.
Proof.
  intros Hi. unfold ValuesString.body.
  destruct (getitem_in_range s _ Hi) as [c Hc]. rewrite Hc. simpl.
  destruct (skip_after_quote s _ Hi) as (i1 & i2 & H1 & H2 & Hb).
  rewrite H1. simpl. rewrite H2. simpl.
  branches; eexists; (split; [reflexivity | simpl; lia]).
Qed.

Lemma rv_scan_total (s : string) (st : RecordValues.state) :
  RecordValues.i st <= Str.len s ->
  exists st', RecordValues.scan (Str.len s) s st = Ok st'
              /\ RecordValues.i st' = Str.len s.
Proof.
  intros Hi.
  destruct (while_cursor_total RecordValues.i (Str.len s) (RecordValues.body s)
              (fun st => RecordValues.i st <= Str.len s)) with
    (fuel := Str.len s) (st := st) as (st' & Hw & Hge & Hle);
    [| assumption | lia |].
  - intros st0 _ Hlt. destruct (rv_body_advances s st0 Hlt) as (st1 & Hb & Ha).
    exists st1. repeat split; try assumption; lia.
  - exists st'. split; [exact Hw | lia].
Qed.

Lemma vs_scan_total (s : string) (st : ValuesString.state) :
  ValuesString.i st <= Str.len s ->
  exists st', ValuesString.scan (Str.len s) s st = Ok st'
              /\ ValuesString.i st' = Str.len s.
Proof.
  intros Hi.
  destruct (while_cursor_total ValuesString.i (Str.len s) (ValuesString.body s)
              (fun st => ValuesString.i st <= Str.len s)) with
    (fuel := Str.len s) (st := st) as (st' & Hw & Hge & Hle);
    [| assumption | lia |].
  - intros st0 _ Hlt. destruct (vs_body_advances s st0 Hlt) as (st1 & Hb & Ha).
    exists st1. repeat split; try assumption; lia.
  - exists st'. split; [exact Hw | lia].
Qed.

Lemma parse_record_values_total (s : string) :
  exists values, parse_record_values s = Ok values.
Proof.
  unfold parse_record_values, RecordValues.parse_record_values.
  destruct (rv_scan_total s RecordValues.init) as (st & Hs & _);
    [simpl; lia|].
  rewrite Hs. simpl. eauto.
Qed.

Lemma parse_values_string_total (s : string) :
  exists values, parse_values_string s = Ok values.
Proof.
  unfold parse_values_string, ValuesString.parse_values_string.
  destruct (vs_scan_total s ValuesString.init) as (st & Hs & _);
    [simpl; lia|].
  rewrite Hs. simpl. eauto.
Qed.

Lemma append_record_total (records : list (list string)) (cur : string) :
  exists records', Split.append_record records cur = Ok records'
                   /\ exists more, records' = records ++ more.
Proof.
  unfold Split.append_record.
  destruct (Str.truthy (Str.strip cur)).
  - destruct (parse_record_values_total (Str.strip cur)) as [r Hr].
    rewrite Hr. simpl. exists (records ++ [r]). split; [reflexivity|].
    now exists [r].
  - exists records. split; [reflexivity|]. exists []. now rewrite app_nil_r.
Qed.

Lemma split_body_advances (s : string) (st : Split.state) :
  Split.i st < Str.len s ->
  exists st', Split.body s st = Ok st'
              /\ Split.i st' = Split.i st + 1
              /\ exists more, Split.records st' = Split.records st ++ more.
Proof.
  intros Hi. unfold Split.body.
  destruct (getitem_in_range s _ Hi) as [c Hc]. rewrite Hc. simpl.
  destruct (append_record_total (Split.records st) (Split.current_record st))
    as (records' & Ha & more & Hmore).
  rewrite Ha. simpl.
  branches; eexists; (split; [reflexivity | simpl; split; [reflexivity|]]);
    solve [ exists more; exact Hmore | exists []; now rewrite app_nil_r ].
Qed.

Lemma split_scan_total (s : string) (st : Split.state) :
  Split.i st <= Str.len s ->
  exists st', Split.scan (Str.len s) s st = Ok st'
              /\ Split.i st' = Str.len s.
Proof.
  intros Hi.
  destruct (while_cursor_total Split.i (Str.len s) (Split.body s)
              (fun st => Split.i st <= Str.len s)) with
    (fuel := Str.len s) (st := st) as (st' & Hw & Hge & Hle);
    [| assumption | lia |].
  - intros st0 _ Hlt.
    destruct (split_body_advances s st0 Hlt) as (st1 & Hb & Ha & _).
    exists st1. repeat split; try assumption; lia.
  - exists st'. split; [exact Hw | lia].
Qed.

Lemma last_record_total (st : Split.state) :
  exists records, Split.last_record st = Ok records
                  /\ exists more, records = Split.records st ++ more.
Proof.
  unfold Split.last_record.
  destruct (Str.truthy (Str.strip (Split.current_record st))
            && (Split.paren_count st =? 0)%Z).
  - destruct (parse_record_values_total (Str.strip (Split.current_record st)))
      as [r Hr].
    rewrite Hr. simpl. eexists. split; [reflexivity|]. now exists [r].
  - eexists. split; [reflexivity|]. exists []. now rewrite app_nil_r.
Qed.

Lemma split_records_total (s : string) :
  exists records, Split.split_records s = Ok records.
Proof.
  unfold Split.split_records.
  destruct (split_scan_total s Split.init) as (st & Hs & _); [simpl; lia|].
  rewrite Hs. simpl.
  destruct (last_record_total st) as (records & Hr & _). eauto.
Qed.

(** ** Reading a text from a cursor *)

Lemma drop_app (a b : string) : drop (String.length a) (a ++ b) = b.
Proof. induction a as [|c a IH]; simpl; [reflexivity | exact IH]. Qed.

Lemma drop_cons (s : string) :
  forall i c r, drop i s = String c r ->
  Str.getitem s i = Ok c /\ drop (i + 1) s = r /\ i < Str.len s.
Proof.
  induction s as [|d s IH]; intros i c r H.
  - destruct i; discriminate.
  - destruct i as [|i]; simpl in H.
    + inversion H; subst. repeat split. unfold Str.len. simpl. lia.
    + destruct (IH i c r H) as (Hg & Hd & Hl). repeat split.
      * exact Hg.
      * exact Hd.
      * unfold Str.len in *. simpl. lia.
Qed.

(** ** The inside of a quoted literal *)

Example literal_body_parens : literal_body "value, with (parens)" = true.
Proof. reflexivity. Qed.

Example literal_body_escaped_quote : literal_body "it\'s" = true.
Proof. reflexivity. Qed.

Lemma rv_literal_run (s : string) :
  forall n body, String.length body <= n -> literal_body body = true ->
  forall post i vs cur,
    drop i s = (body ++ post)%string ->
    reaches (RecordValues.cond s) (RecordValues.body s)
      (RecordValues.mk i vs cur true false)
      (RecordValues.mk (i + String.length body) vs (cur ++ body) true false).
Proof.
  induction n as [|n IH]; intros body Hn Hlit post i vs cur Hdrop.
  - destruct body; [|simpl in Hn; lia].
    simpl. rewrite Nat.add_0_r, app_empty_r. apply reaches_refl.
  - destruct body as [|c body]; simpl in *.
    { rewrite Nat.add_0_r, app_empty_r. apply reaches_refl. }
    destruct (drop_cons s i c _ Hdrop) as (Hg & Hd & Hl).
    destruct (Ascii.eqb c Str.backslash) eqn:Hbs.
    + destruct body as [|d body]; [discriminate|]. simpl in *.
      destruct (drop_cons s (i + 1) d _ Hd) as (Hg' & Hd' & Hl').
      eapply reaches_step.
      { unfold RecordValues.cond. simpl.
        destruct (Nat.ltb_spec i (Str.len s)); [reflexivity | lia]. }
      { unfold RecordValues.body. simpl. rewrite Hg. simpl. rewrite Hbs.
        reflexivity. }
      eapply reaches_step.
      { unfold RecordValues.cond. simpl.
        destruct (Nat.ltb_spec (i + 1) (Str.len s)); [reflexivity | lia]. }
      { unfold RecordValues.body. simpl. rewrite Hg'. simpl. reflexivity. }
      replace (i + S (S (String.length body)))
        with (i + 1 + 1 + String.length body) by lia.
      replace (cur ++ String c (String d body))%string
        with (Str.add_char (Str.add_char cur c) d ++ body)%string
        by now rewrite !add_char_app.
      apply IH with (post := post); [lia | assumption | assumption].
    + destruct (Ascii.eqb c Str.quote) eqn:Hq; [discriminate|].
      eapply reaches_step.
      { unfold RecordValues.cond. simpl.
        destruct (Nat.ltb_spec i (Str.len s)); [reflexivity | lia]. }
      { unfold RecordValues.body. simpl. rewrite Hg. simpl. rewrite Hbs, Hq.
        reflexivity. }
      replace (i + S (String.length body))
        with (i + 1 + String.length body) by lia.
      replace (cur ++ String c body)%string
        with (Str.add_char cur c ++ body)%string by now rewrite add_char_app.
      apply IH with (post := post); [lia | assumption | assumption].
Qed.

Lemma drop_drop (s : string) :
  forall i k, drop (i + k) s = drop k (drop i s).
Proof.
  induction s as [|d s IH]; intros [|i] k; simpl; try reflexivity.
  - destruct k; reflexivity.
  - apply IH.
Qed.

Lemma drop_past (s : string) (i : nat) (a b : string) :
  drop i s = (a ++ b)%string -> drop (i + String.length a) s = b.
Proof. intros H. now rewrite drop_drop, H, drop_app. Qed.

Lemma rv_cond_true (s : string) (st : RecordValues.state) :
  RecordValues.i st < Str.len s -> RecordValues.cond s st = Ok true.
Proof.
  intros H. unfold RecordValues.cond.
  destruct (Nat.ltb_spec (RecordValues.i st) (Str.len s)); [reflexivity | lia].
Qed.

Lemma rv_cond_false (s : string) (st : RecordValues.state) :
  Str.len s <= RecordValues.i st -> RecordValues.cond s st = Ok false.
Proof.
  intros H. unfold RecordValues.cond.
  destruct (Nat.ltb_spec (RecordValues.i st) (Str.len s)); [lia | reflexivity].
Qed.

(** From the opening quote to the character after the closing quote, its
    blanks and its comma: one value is appended, made of the buffer and
    the literal's text. *)
Lemma rv_quoted_run (s body post : string) (i : nat) (vs : list string)
    (cur : string) :
  literal_body body = true ->
  drop i s = (String Str.quote body ++ String Str.quote post)%string ->
  exists j, i + String.length body + 2 <= j <= Str.len s /\
    reaches (RecordValues.cond s) (RecordValues.body s)
      (RecordValues.mk i vs cur false false)
      (RecordValues.mk j (vs ++ [(cur ++ body)%string]) "" false false).
Proof.
  intros Hlit Hdrop. simpl in Hdrop.
  destruct (drop_cons s i _ _ Hdrop) as (Hg & Hd & Hl).
  pose proof (drop_past s (i + 1) body _ Hd) as Hclose.
  destruct (drop_cons s _ _ _ Hclose) as (Hg2 & _ & Hl2).
  destruct (skip_after_quote s _ Hl2) as (i1 & i2 & H1 & H2 & Hb).
  exists (i2 + 1). split; [lia|].
  eapply reaches_step.
  { apply rv_cond_true. exact Hl. }
  { unfold RecordValues.body. simpl. rewrite Hg. reflexivity. }
  eapply reaches_trans.
  { apply rv_literal_run with (n := String.length body) (body := body)
      (post := String Str.quote post);
      [lia | exact Hlit | exact Hd]. }
  apply reaches_one.
  { apply rv_cond_true. exact Hl2. }
  { unfold RecordValues.body. simpl. rewrite Hg2. simpl.
    rewrite H1. simpl. rewrite H2. reflexivity. }
Qed.

Lemma rv_reaches_scan (s : string) (st st' : RecordValues.state) :
  reaches (RecordValues.cond s) (RecordValues.body s) st st' ->
  RecordValues.i st <= Str.len s -> RecordValues.i st' <= Str.len s ->
  RecordValues.scan (Str.len s) s st = RecordValues.scan (Str.len s) s st'.
Proof.
  intros Hr Hi Hi'.
  destruct (rv_scan_total s st' Hi') as (r & Hs' & _).
  destruct (rv_scan_total s st Hi) as (r0 & Hs & _).
  destruct (while_reaches _ _ _ _ Hr _ _ Hs') as (f & Hf).
  rewrite Hs, Hs'. f_equal.
  eapply while_deterministic; [exact Hs | exact Hf].
Qed.

Lemma rv_quoted_alone (body : string) :
  literal_body body = true ->
  parse_record_values (String Str.quote body ++ String Str.quote "") = Ok [body].
Proof.
  intros Hlit.
  set (s := (String Str.quote body ++ String Str.quote "")%string).
  assert (Hlen : Str.len s = String.length body + 2).
  { unfold s, Str.len. simpl. rewrite strlen_app. simpl. lia. }
  destruct (rv_quoted_run s body "" 0 [] "" Hlit eq_refl) as (j & Hj & Hr).
  assert (j = Str.len s) by lia. subst j.
  unfold parse_record_values, RecordValues.parse_record_values.
  unfold RecordValues.init.
  rewrite (rv_reaches_scan s _ _ Hr) by (simpl; lia).
  unfold RecordValues.scan. rewrite while_done by (apply rv_cond_false; simpl; lia).
  reflexivity.
Qed.

(** The same for [parse_values_string], where the nesting counter is
    carried along unchanged. *)

Lemma vs_literal_run (s : string) :
  forall n body, String.length body <= n -> literal_body body = true ->
  forall post i vs cur pc,
    drop i s = (body ++ post)%string ->
    reaches (ValuesString.cond s) (ValuesString.body s)
      (ValuesString.mk i vs cur true false pc)
      (ValuesString.mk (i + String.length body) vs (cur ++ body) true false pc).
Proof.
  induction n as [|n IH]; intros body Hn Hlit post i vs cur pc Hdrop.
  - destruct body; [|simpl in Hn; lia].
    simpl. rewrite Nat.add_0_r, app_empty_r. apply reaches_refl.
  - destruct body as [|c body]; simpl in *.
    { rewrite Nat.add_0_r, app_empty_r. apply reaches_refl. }
    destruct (drop_cons s i c _ Hdrop) as (Hg & Hd & Hl).
    destruct (Ascii.eqb c Str.backslash) eqn:Hbs.
    + destruct body as [|d body]; [discriminate|]. simpl in *.
      destruct (drop_cons s (i + 1) d _ Hd) as (Hg' & Hd' & Hl').
      eapply reaches_step.
      { unfold ValuesString.cond. simpl.
        destruct (Nat.ltb_spec i (Str.len s)); [reflexivity | lia]. }
      { unfold ValuesString.body. simpl. rewrite Hg. simpl. rewrite Hbs.
        reflexivity. }
      eapply reaches_step.
      { unfold ValuesString.cond. simpl.
        destruct (Nat.ltb_spec (i + 1) (Str.len s)); [reflexivity | lia]. }
      { unfold ValuesString.body. simpl. rewrite Hg'. simpl. reflexivity. }
      replace (i + S (S (String.length body)))
        with (i + 1 + 1 + String.length body) by lia.
      replace (cur ++ String c (String d body))%string
        with (Str.add_char (Str.add_char cur c) d ++ body)%string
        by now rewrite !add_char_app.
      apply IH with (post := post); [lia | assumption | assumption].
    + destruct (Ascii.eqb c Str.quote) eqn:Hq; [discriminate|].
      eapply reaches_step.
      { unfold ValuesString.cond. simpl.
        destruct (Nat.ltb_spec i (Str.len s)); [reflexivity | lia]. }
      { unfold ValuesString.body. simpl. rewrite Hg. simpl. rewrite Hbs, Hq.
        reflexivity. }
      replace (i + S (String.length body))
        with (i + 1 + String.length body) by lia.
      replace (cur ++ String c body)%string
        with (Str.add_char cur c ++ body)%string by now rewrite add_char_app.
      apply IH with (post := post); [lia | assumption | assumption].
Qed.

Lemma vs_cond_true (s : string) (st : ValuesString.state) :
  ValuesString.i st < Str.len s -> ValuesString.cond s st = Ok true.
Proof.
  intros H. unfold ValuesString.cond.
  destruct (Nat.ltb_spec (ValuesString.i st) (Str.len s)); [reflexivity | lia].
Qed.

Lemma vs_cond_false (s : string) (st : ValuesString.state) :
  Str.len s <= ValuesString.i st -> ValuesString.cond s st = Ok false.
Proof.
  intros H. unfold ValuesString.cond.
  destruct (Nat.ltb_spec (ValuesString.i st) (Str.len s)); [lia | reflexivity].
Qed.

(** From the opening quote to the character after the closing quote, its
    blanks and its comma: one value is appended, made of the buffer and
    the literal's text. *)
Lemma vs_quoted_run (s body post : string) (i : nat) (vs : list string)
    (cur : string) (pc : Z) :
  literal_body body = true ->
  drop i s = (String Str.quote body ++ String Str.quote post)%string ->
  exists j, i + String.length body + 2 <= j <= Str.len s /\
    reaches (ValuesString.cond s) (ValuesString.body s)
      (ValuesString.mk i vs cur false false pc)
      (ValuesString.mk j (vs ++ [(cur ++ body)%string]) "" false false pc).
Proof.
  intros Hlit Hdrop. simpl in Hdrop.
  destruct (drop_cons s i _ _ Hdrop) as (Hg & Hd & Hl).
  pose proof (drop_past s (i + 1) body _ Hd) as Hclose.
  destruct (drop_cons s _ _ _ Hclose) as (Hg2 & _ & Hl2).
  destruct (skip_after_quote s _ Hl2) as (i1 & i2 & H1 & H2 & Hb).
  exists (i2 + 1). split; [lia|].
  eapply reaches_step.
  { apply vs_cond_true. exact Hl. }
  { unfold ValuesString.body. simpl. rewrite Hg. reflexivity. }
  eapply reaches_trans.
  { apply vs_literal_run with (n := String.length body) (body := body)
      (post := String Str.quote post);
      [lia | exact Hlit | exact Hd]. }
  apply reaches_one.
  { apply vs_cond_true. exact Hl2. }
  { unfold ValuesString.body. simpl. rewrite Hg2. simpl.
    rewrite H1. simpl. rewrite H2. reflexivity. }
Qed.

Lemma vs_reaches_scan (s : string) (st st' : ValuesString.state) :
  reaches (ValuesString.cond s) (ValuesString.body s) st st' ->
  ValuesString.i st <= Str.len s -> ValuesString.i st' <= Str.len s ->
  ValuesString.scan (Str.len s) s st = ValuesString.scan (Str.len s) s st'.
Proof.
  intros Hr Hi Hi'.
  destruct (vs_scan_total s st' Hi') as (r & Hs' & _).
  destruct (vs_scan_total s st Hi) as (r0 & Hs & _).
  destruct (while_reaches _ _ _ _ Hr _ _ Hs') as (f & Hf).
  rewrite Hs, Hs'. f_equal.
  eapply while_deterministic; [exact Hs | exact Hf].
Qed.

Lemma vs_quoted_alone (body : string) :
  literal_body body = true ->
  parse_values_string (String Str.quote body ++ String Str.quote "") = Ok [body].
Proof.
  intros Hlit.
  set (s := (String Str.quote body ++ String Str.quote "")%string).
  assert (Hlen : Str.len s = String.length body + 2).
  { unfold s, Str.len. simpl. rewrite strlen_app. simpl. lia. }
  destruct (vs_quoted_run s body "" 0 [] "" 0%Z Hlit eq_refl) as (j & Hj & Hr).
  assert (j = Str.len s) by lia. subst j.
  unfold parse_values_string, ValuesString.parse_values_string.
  unfold ValuesString.init.
  rewrite (vs_reaches_scan s _ _ Hr) by (simpl; lia).
  unfold ValuesString.scan. rewrite while_done by (apply vs_cond_false; simpl; lia).
  reflexivity.
Qed.

(** The same for the record-splitting loop, which keeps the quotes in
    [current_record]. *)

Lemma split_cond_true (s : string) (st : Split.state) :
  Split.i st < Str.len s -> Split.cond s st = Ok true.
Proof.
  intros H. unfold Split.cond.
  destruct (Nat.ltb_spec (Split.i st) (Str.len s)); [reflexivity | lia].
Qed.



Lemma split_reaches_scan (s : string) (st st' : Split.state) :
  reaches (Split.cond s) (Split.body s) st st' ->
  Split.i st <= Str.len s -> Split.i st' <= Str.len s ->
  Split.scan (Str.len s) s st = Split.scan (Str.len s) s st'.
Proof.
  intros Hr Hi Hi'.
  destruct (split_scan_total s st' Hi') as (r & Hs' & _).
  destruct (split_scan_total s st Hi) as (r0 & Hs & _).
  destruct (while_reaches _ _ _ _ Hr _ _ Hs') as (f & Hf).
  rewrite Hs, Hs'. f_equal.
  eapply while_deterministic; [exact Hs | exact Hf].
Qed.





(** C6.  An escape marker met outside of a pending escape is appended to
    the buffer, and so is the character behind it, whatever it is: after the
    two iterations the cursor is two further, the buffer is two longer, and
    the values, the quoted flag and the nesting counter are as before.
    Nothing resolves the pair afterwards: a quoted literal is stored with
    its escape markers, ['it\'s'] as the five characters [it\'s]. *)
Theorem escape_is_kept_verbatim :
  (forall s st c,
      RecordValues.escape_next st = false ->
      Str.getitem s (RecordValues.i st) = Ok Str.backslash ->
      Str.getitem s (RecordValues.i st + 1) = Ok c ->
      exists st1,
        RecordValues.body s st = Ok st1 /\
        RecordValues.body s st1
        = Ok (RecordValues.mk (RecordValues.i st + 2) (RecordValues.values st)
                (Str.add_char
                   (Str.add_char (RecordValues.current_value st) Str.backslash) c)
                (RecordValues.in_string st) false))
  /\ (forall s st c,
      ValuesString.escape_next st = false ->
      Str.getitem s (ValuesString.i st) = Ok Str.backslash ->
      Str.getitem s (ValuesString.i st + 1) = Ok c ->
      exists st1,
        ValuesString.body s st = Ok st1 /\
        ValuesString.body s st1
        = Ok (ValuesString.mk (ValuesString.i st + 2) (ValuesString.values st)
                (Str.add_char
                   (Str.add_char (ValuesString.current_value st) Str.backslash) c)
                (ValuesString.in_string st) false (ValuesString.paren_count st)))
  /\ (forall body, literal_body body = true ->
      parse_record_values (String Str.quote body ++ String Str.quote "")
      = Ok [body]
      /\ parse_values_string (String Str.quote body ++ String Str.quote "")
         = Ok [body])
  /\ parse_record_values "'it\'s'" = Ok ["it\'s"]
  /\ parse_values_string "'it\'s'" = Ok ["it\'s"]
  /\ String.length "it\'s" = 5
  /\ String.get 2 "it\'s" = Some Str.backslash
  /\ String.get 3 "it\'s" = Some Str.quote.
Proof.
  split; [|split; [|split]].
  - intros s [i vs cur ins esc] c Hesc Hg Hg'. simpl in *. subst esc.
    eexists. split.
    + unfold RecordValues.body. simpl. rewrite Hg. reflexivity.
    + unfold RecordValues.body. simpl. rewrite Hg'. simpl.
      do 2 f_equal. lia.
  - intros s [i vs cur ins esc pc] c Hesc Hg Hg'. simpl in *. subst esc.
    eexists. split.
    + unfold ValuesString.body. simpl. rewrite Hg. reflexivity.
    + unfold ValuesString.body. simpl. rewrite Hg'. simpl.
      do 2 f_equal. lia.
  - intros body Hlit. split; [apply rv_quoted_alone | apply vs_quoted_alone];
      exact Hlit.
  - repeat split; vm_compute; reflexivity.
Qed.

Lemma escape_is_kept_verbatim_witness :
  exists st1,
    RecordValues.body "'it\'s'" (RecordValues.mk 3 [] "it" true false) = Ok st1
    /\ RecordValues.body "'it\'s'" st1
       = Ok (RecordValues.mk 5 [] "it\'" true false).
Proof.
  exact (proj1 escape_is_kept_verbatim "'it\'s'"
           (RecordValues.mk 3 [] "it" true false) Str.quote
           eq_refl eq_refl eq_refl).
Defined.

(** C10.  The three hand-written scanning loops are total.  On every text
    [s]: an iteration of [parse_record_values], of [parse_values_string] or
    of the record-splitting loop of [parse_sql_values] started at a cursor
    inside [s] returns, without raising, a state whose cursor is strictly
    further and at most [len(s)]; the look-ahead behind a closing quote
    reads [s[i + 1]] only under its bounds check and returns from every
    cursor; and each function returns a list, the [len(s)] iterations
    allowed to its loop being enough. *)
Theorem scanning_loops_total (s : string) :
  (forall st, RecordValues.i st < Str.len s ->
     exists st', RecordValues.body s st = Ok st'
                 /\ RecordValues.i st < RecordValues.i st' <= Str.len s)
  /\ (exists values, parse_record_values s = Ok values)
  /\ (forall st, ValuesString.i st < Str.len s ->
     exists st', ValuesString.body s st = Ok st'
                 /\ ValuesString.i st < ValuesString.i st' <= Str.len s)
  /\ (exists values, parse_values_string s = Ok values)
  /\ (forall st, Split.i st < Str.len s ->
     exists st', Split.body s st = Ok st'
                 /\ Split.i st' = Split.i st + 1)
  /\ (exists records, Split.split_records s = Ok records)
  /\ (forall i, exists i1 i2,
     skip_blanks s i = Ok i1 /\ skip_comma s i1 = Ok i2).
Proof.
  repeat split.
  - apply rv_body_advances.
  - apply parse_record_values_total.
  - apply vs_body_advances.
  - apply parse_values_string_total.
  - intros st Hi. destruct (split_body_advances s st Hi) as (st' & Hb & Ha & _).
    eauto.
  - apply split_records_total.
  - apply skip_total.
Qed.

Lemma scanning_loops_total_witness :
  exists st',
    RecordValues.body "'a' , b" (RecordValues.mk 2 [] "a" true false) = Ok st'
    /\ 2 < RecordValues.i st' <= 7.
Proof.
  refine (proj1 (scanning_loops_total "'a' , b")
            (RecordValues.mk 2 [] "a" true false) _).
  simpl. lia.
Defined.

(** ** Unquoted tokens *)

Lemma ordinary_tests (c : ascii) :
  ordinary c = true ->
  Ascii.eqb c Str.backslash = false /\ Ascii.eqb c Str.quote = false
  /\ Ascii.eqb c Str.comma = false /\ Ascii.eqb c Str.lparen = false
  /\ Ascii.eqb c Str.rparen = false.
Proof.
  unfold ordinary. rewrite !andb_true_iff, !negb_true_iff. tauto.
Qed.

Lemma space_is_ordinary (c : ascii) : Str.isspace c = true -> ordinary c = true.
Proof.
  destruct c as [[] [] [] [] [] [] [] []]; vm_compute; intros H;
    solve [reflexivity | discriminate H].
Qed.

Lemma null_letter_is_ordinary (c : ascii) :
  null_letter c = true -> ordinary c = true.
Proof.
  destruct c as [[] [] [] [] [] [] [] []]; vm_compute; intros H;
    solve [reflexivity | discriminate H].
Qed.

Lemma all_chars_lstrip (q : ascii -> bool) (s : string) :
  (forall c, Str.isspace c = true -> q c = true) ->
  all_chars q (Str.lstrip s) = true -> all_chars q s = true.
Proof.
  intros Hsp. induction s as [|c s IH]; simpl; [trivial|].
  destruct (Str.isspace c) eqn:Hc.
  - intros H. rewrite (Hsp c Hc), (IH H). reflexivity.
  - simpl. trivial.
Qed.

Lemma all_chars_rstrip (q : ascii -> bool) (s : string) :
  (forall c, Str.isspace c = true -> q c = true) ->
  all_chars q (Str.rstrip s) = true -> all_chars q s = true.
Proof.
  intros Hsp. induction s as [|c s IH]; simpl; [trivial|].
  destruct (Str.rstrip s) as [|d r].
  - destruct (Str.isspace c) eqn:Hc; simpl; intros H.
    + rewrite (Hsp c Hc). simpl. apply IH. reflexivity.
    + rewrite andb_true_r in H. rewrite H. simpl. apply IH. reflexivity.
  - intros H. change (q c && all_chars q (String d r) = true) in H.
    apply andb_true_iff in H. destruct H as [Hq Hr].
    rewrite Hq. simpl. apply IH. exact Hr.
Qed.

Lemma upper_null_letters (s : string) :
  Str.upper s = "NULL" -> all_chars null_letter s = true.
Proof.
  destruct s as [|c1 [|c2 [|c3 [|c4 [|c5 s]]]]]; simpl; try discriminate.
  intros H. injection H as H1 H2 H3 H4.
  unfold null_letter. rewrite H1, H2, H3, H4. reflexivity.
Qed.

Lemma all_chars_impl (p q : ascii -> bool) (s : string) :
  (forall c, p c = true -> q c = true) ->
  all_chars p s = true -> all_chars q s = true.
Proof.
  intros Hpq. induction s as [|c s IH]; simpl; [trivial|].
  rewrite !andb_true_iff. intros [Hp Hs]. split; auto.
Qed.

Lemma null_token_ordinary (tok : string) :
  Str.upper (Str.strip tok) = "NULL" -> all_chars ordinary tok = true.
Proof.
  intros H. apply all_chars_lstrip; [apply space_is_ordinary|].
  apply all_chars_rstrip; [apply space_is_ordinary|].
  apply all_chars_impl with (p := null_letter);
    [apply null_letter_is_ordinary|].
  apply upper_null_letters. exact H.
Qed.

Lemma null_token_value (tok : string) :
  Str.upper (Str.strip tok) = "NULL" ->
  bare_value tok = null_sentinel /\ Str.truthy (Str.strip tok) = true.
Proof.
  intros H. unfold bare_value. rewrite H. split; [reflexivity|].
  destruct (Str.strip tok); [discriminate H | reflexivity].
Qed.

Lemma rv_bare_run (s : string) :
  forall tok, all_chars ordinary tok = true ->
  forall post i vs cur,
    drop i s = (tok ++ post)%string ->
    reaches (RecordValues.cond s) (RecordValues.body s)
      (RecordValues.mk i vs cur false false)
      (RecordValues.mk (i + String.length tok) vs (cur ++ tok) false false).
Proof.
  induction tok as [|c tok IH]; intros Hord post i vs cur Hdrop; simpl in *.
  - rewrite Nat.add_0_r, app_empty_r. apply reaches_refl.
  - apply andb_true_iff in Hord. destruct Hord as [Hc Htok].
    destruct (ordinary_tests c Hc) as (Hbs & Hq & Hcm & _).
    destruct (drop_cons s i c _ Hdrop) as (Hg & Hd & Hl).
    eapply reaches_step.
    { apply rv_cond_true. exact Hl. }
    { unfold RecordValues.body. simpl. rewrite Hg. simpl.
      rewrite Hbs, Hq, Hcm. reflexivity. }
    replace (i + S (String.length tok)) with (i + 1 + String.length tok) by lia.
    replace (cur ++ String c tok)%string
      with (Str.add_char cur c ++ tok)%string by now rewrite add_char_app.
    apply IH with (post := post); assumption.
Qed.

Lemma vs_bare_run (s : string) :
  forall tok, all_chars ordinary tok = true ->
  forall post i vs cur pc,
    drop i s = (tok ++ post)%string ->
    reaches (ValuesString.cond s) (ValuesString.body s)
      (ValuesString.mk i vs cur false false pc)
      (ValuesString.mk (i + String.length tok) vs (cur ++ tok) false false pc).
Proof.
  induction tok as [|c tok IH]; intros Hord post i vs cur pc Hdrop; simpl in *.
  - rewrite Nat.add_0_r, app_empty_r. apply reaches_refl.
  - apply andb_true_iff in Hord. destruct Hord as [Hc Htok].
    destruct (ordinary_tests c Hc) as (Hbs & Hq & Hcm & Hlp & Hrp).
    destruct (drop_cons s i c _ Hdrop) as (Hg & Hd & Hl).
    eapply reaches_step.
    { apply vs_cond_true. exact Hl. }
    { unfold ValuesString.body. simpl. rewrite Hg. simpl.
      rewrite Hbs, Hq, Hcm, Hlp, Hrp. reflexivity. }
    replace (i + S (String.length tok)) with (i + 1 + String.length tok) by lia.
    replace (cur ++ String c tok)%string
      with (Str.add_char cur c ++ tok)%string by now rewrite add_char_app.
    apply IH with (post := post); assumption.
Qed.

Lemma rv_null_token (tok : string) :
  Str.upper (Str.strip tok) = "NULL" ->
  parse_record_values tok = Ok [null_sentinel].
Proof.
  intros H. destruct (null_token_value tok H) as [Hv Ht].
  pose proof (rv_bare_run tok tok (null_token_ordinary tok H) "" 0 [] ""
                (eq_sym (app_empty_r tok))) as Hr.
  unfold parse_record_values, RecordValues.parse_record_values, RecordValues.init.
  rewrite (rv_reaches_scan tok _ _ Hr) by (simpl; unfold Str.len; lia).
  unfold RecordValues.scan.
  rewrite while_done by (apply rv_cond_false; simpl; unfold Str.len; lia).
  simpl. unfold RecordValues.last_value. simpl. rewrite Ht, Hv. reflexivity.
Qed.

Lemma vs_null_token (tok : string) :
  Str.upper (Str.strip tok) = "NULL" ->
  parse_values_string tok = Ok [null_sentinel].
Proof.
  intros H. destruct (null_token_value tok H) as [Hv Ht].
  pose proof (vs_bare_run tok tok (null_token_ordinary tok H) "" 0 [] "" 0%Z
                (eq_sym (app_empty_r tok))) as Hr.
  unfold parse_values_string, ValuesString.parse_values_string, ValuesString.init.
  rewrite (vs_reaches_scan tok _ _ Hr) by (simpl; unfold Str.len; lia).
  unfold ValuesString.scan.
  rewrite while_done by (apply vs_cond_false; simpl; unfold Str.len; lia).
  simpl. unfold ValuesString.last_value. simpl. rewrite Ht, Hv. reflexivity.
Qed.

Lemma rv_null_token_comma (tok : string) :
  Str.upper (Str.strip tok) = "NULL" ->
  parse_record_values (tok ++ ",") = Ok [null_sentinel].
Proof.
  intros H. destruct (null_token_value tok H) as [Hv _].
  set (s := (tok ++ ",")%string).
  assert (Hlen : Str.len s = String.length tok + 1).
  { unfold s, Str.len. rewrite strlen_app. reflexivity. }
  assert (Hd0 : drop 0 s = (tok ++ ",")%string) by reflexivity.
  pose proof (rv_bare_run s tok (null_token_ordinary tok H) "," 0 [] "" Hd0)
    as Hr.
  destruct (drop_cons s _ _ _ (drop_past s 0 tok "," Hd0)) as (Hg & _ & Hl).
  simpl in Hr, Hg, Hl.
  assert (Hr' : reaches (RecordValues.cond s) (RecordValues.body s)
                  RecordValues.init
                  (RecordValues.mk (String.length tok + 1)
                     [bare_value tok] "" false false)).
  { eapply reaches_trans; [exact Hr|]. apply reaches_one.
    - apply rv_cond_true. exact Hl.
    - unfold RecordValues.body. simpl. rewrite Hg. reflexivity. }
  unfold parse_record_values, RecordValues.parse_record_values.
  rewrite (rv_reaches_scan s _ _ Hr') by (simpl; lia).
  unfold RecordValues.scan.
  rewrite while_done by (apply rv_cond_false; simpl; lia).
  simpl. unfold RecordValues.last_value. simpl. rewrite Hv. reflexivity.
Qed.

Lemma vs_null_token_comma (tok : string) :
  Str.upper (Str.strip tok) = "NULL" ->
  parse_values_string (tok ++ ",") = Ok [null_sentinel].
Proof.
  intros H. destruct (null_token_value tok H) as [Hv _].
  set (s := (tok ++ ",")%string).
  assert (Hlen : Str.len s = String.length tok + 1).
  { unfold s, Str.len. rewrite strlen_app. reflexivity. }
  assert (Hd0 : drop 0 s = (tok ++ ",")%string) by reflexivity.
  pose proof (vs_bare_run s tok (null_token_ordinary tok H) "," 0 [] "" 0%Z Hd0)
    as Hr.
  destruct (drop_cons s _ _ _ (drop_past s 0 tok "," Hd0)) as (Hg & _ & Hl).
  simpl in Hr, Hg, Hl.
  assert (Hr' : reaches (ValuesString.cond s) (ValuesString.body s)
                  ValuesString.init
                  (ValuesString.mk (String.length tok + 1)
                     [bare_value tok] "" false false 0%Z)).
  { eapply reaches_trans; [exact Hr|]. apply reaches_one.
    - apply vs_cond_true. exact Hl.
    - unfold ValuesString.body. simpl. rewrite Hg. reflexivity. }
  unfold parse_values_string, ValuesString.parse_values_string.
  rewrite (vs_reaches_scan s _ _ Hr') by (simpl; lia).
  unfold ValuesString.scan.
  rewrite while_done by (apply vs_cond_false; simpl; lia).
  simpl. unfold ValuesString.last_value. simpl. rewrite Hv. reflexivity.
Qed.

(** C4.  An unquoted token whose trimmed text is [NULL] in any letter case
    becomes the null marker: the normalisation [bare_value] gives it, and so
    do both tokenizers on the token as the last field of a row and as a
    field closed by a comma.  The spellings [NULL], [null] and [Null] give
    the same marker, while the quoted ['NULL'] gives the four-letter text
    [NULL], which is not the marker. *)
Theorem bare_null_is_the_sentinel :
  (forall tok, Str.upper (Str.strip tok) = "NULL" ->
     bare_value tok = null_sentinel
     /\ parse_record_values tok = Ok [null_sentinel]
     /\ parse_record_values (tok ++ ",") = Ok [null_sentinel]
     /\ parse_values_string tok = Ok [null_sentinel]
     /\ parse_values_string (tok ++ ",") = Ok [null_sentinel])
  /\ parse_record_values "NULL" = Ok [null_sentinel]
  /\ parse_record_values "null" = Ok [null_sentinel]
  /\ parse_record_values "Null" = Ok [null_sentinel]
  /\ parse_values_string "NULL" = Ok [null_sentinel]
  /\ parse_values_string "null" = Ok [null_sentinel]
  /\ parse_values_string "Null" = Ok [null_sentinel]
  /\ parse_record_values "'NULL'" = Ok ["NULL"]
  /\ parse_values_string "'NULL'" = Ok ["NULL"]
  /\ "NULL" <> null_sentinel.
Proof.
  split.
  - intros tok H. repeat split.
    + apply null_token_value. exact H.
    + apply rv_null_token. exact H.
    + apply rv_null_token_comma. exact H.
    + apply vs_null_token. exact H.
    + apply vs_null_token_comma. exact H.
  - repeat split; try (vm_compute; reflexivity). discriminate.
Qed.

Lemma bare_null_is_the_sentinel_witness :
  bare_value "  nUlL " = null_sentinel
  /\ parse_record_values "  nUlL " = Ok [null_sentinel]
  /\ parse_record_values "  nUlL ," = Ok [null_sentinel]
  /\ parse_values_string "  nUlL " = Ok [null_sentinel]
  /\ parse_values_string "  nUlL ," = Ok [null_sentinel].
Proof. exact (proj1 bare_null_is_the_sentinel "  nUlL " eq_refl). Defined.

(** C1, as the code has it.  On the single-row blob
    [INSERT INTO T (a,b,c) VALUES ('Jo, Ann', NULL, 42);]
    [parse_sql_insert_statements] yields exactly one row, of the values
    [Jo, Ann], the null marker (the empty text) and [42], and both
    tokenizers yield these values on the row's text.  [parse_sql_values]
    asks for a line break behind [VALUES]: with one it yields the same
    single row, on the blob as written it finds no [VALUES] section and
    yields no row. *)
Theorem single_row_example :
  parse_sql_insert_statements blob_single
  = Ok [["Jo, Ann"; null_sentinel; "42"]]
  /\ parse_values_string "'Jo, Ann', NULL, 42"
     = Ok ["Jo, Ann"; null_sentinel; "42"]
  /\ parse_record_values "'Jo, Ann', NULL, 42"
     = Ok ["Jo, Ann"; null_sentinel; "42"]
  /\ parse_sql_values blob_single_nl
     = Ok ([(INFO, Parsed_individual 1)], [["Jo, Ann"; null_sentinel; "42"]])
  /\ parse_sql_values blob_single = Ok ([(ERROR, No_values_section)], []).
Proof. repeat split; vm_compute; reflexivity. Qed.

(** C1 as stated fails: on the blob as written [parse_sql_values] yields
    no row, so the two parsers do not both yield the row. *)
Lemma single_row_example_counterexample :
  rows (parse_sql_values blob_single) = Ok []
  /\ ~ (rows (parse_sql_values blob_single)
        = Ok [["Jo, Ann"; null_sentinel; "42"]]
        /\ parse_sql_insert_statements blob_single
           = Ok [["Jo, Ann"; null_sentinel; "42"]]).
Proof.
  split; [vm_compute; reflexivity|].
  intros [H _]. vm_compute in H. discriminate H.
Qed.

(** C2, as the code has it.  The row groups [('x'),('y, z')] are split by
    the record-splitting loop of [parse_sql_values] into exactly two rows,
    [x] then [y, z]; [parse_sql_values] runs that loop when a line break
    follows [VALUES] and the statement pattern finds nothing, as on
    [INSERT INTO T (a,b) VALUES\n('x'),('y, z')].  On the blob as written,
    [INSERT INTO T (a,b) VALUES ('x'),('y, z');], it yields no row, and
    [parse_sql_insert_statements], which reads one row per statement, yields
    one row and not two. *)
Theorem multi_row_example :
  Split.split_records "('x'),('y, z')" = Ok [["x"]; ["y, z"]]
  /\ parse_sql_values blob_multi_nl
     = Ok ([(INFO, Parsed_records 2)], [["x"]; ["y, z"]])
  /\ parse_sql_values blob_multi = Ok ([(ERROR, No_values_section)], [])
  /\ (exists row, parse_sql_insert_statements blob_multi = Ok [row]).
Proof.
  repeat split; try (vm_compute; reflexivity).
  eexists. vm_compute. reflexivity.
Qed.

(** C2 as stated fails, for each of the two parsers. *)
Lemma multi_row_example_counterexample :
  rows (parse_sql_values blob_multi) <> Ok [["x"]; ["y, z"]]
  /\ parse_sql_insert_statements blob_multi <> Ok [["x"]; ["y, z"]].
Proof. split; intros H; vm_compute in H; discriminate H. Qed.

(** C5, as the code has it.  The empty quoted literal [''] yields the empty
    text, and a bare [NULL] yields the empty text as well: the two outputs
    are equal, in both tokenizers, and nothing in a row tells them apart. *)
Theorem empty_literal_equals_null :
  parse_record_values "''" = Ok [""]
  /\ parse_record_values "NULL" = Ok [""]
  /\ parse_values_string "''" = Ok [""]
  /\ parse_values_string "NULL" = Ok [""]
  /\ parse_record_values "''" = parse_record_values "NULL"
  /\ parse_values_string "''" = parse_values_string "NULL"
  /\ null_sentinel = "".
Proof. repeat split; vm_compute; reflexivity. Qed.

(** C5 as stated fails: the value of [''] is the value of a bare [NULL]. *)
Lemma empty_literal_equals_null_counterexample :
  parse_record_values "''" = parse_record_values "NULL"
  /\ ~ (exists v w, parse_record_values "''" = Ok [v]
                    /\ parse_record_values "NULL" = Ok [w] /\ v <> w).
Proof.
  split; [vm_compute; reflexivity|].
  intros (v & w & Hv & Hw & Hneq).
  vm_compute in Hv, Hw. congruence.
Qed.

(** ** Rows are only ever added *)

Lemma split_cond_inv (s : string) (st : Split.state) :
  Split.cond s st = Ok true -> Split.i st < Str.len s.
Proof.
  unfold Split.cond. intros H. injection H as H.
  now apply Nat.ltb_lt.
Qed.

Lemma split_reaches_grows (s : string) (st st' : Split.state) :
  reaches (Split.cond s) (Split.body s) st st' ->
  Split.i st <= Str.len s ->
  Split.i st' <= Str.len s
  /\ exists more, Split.records st' = Split.records st ++ more.
Proof.
  induction 1 as [st|st st1 st2 Hc Hb _ IH]; intros Hi.
  - split; [assumption|]. exists []. now rewrite app_nil_r.
  - apply split_cond_inv in Hc.
    destruct (split_body_advances s st Hc) as (st1' & Hb' & Ha & more & Hm).
    rewrite Hb in Hb'. injection Hb' as <-.
    destruct IH as (Hi2 & more2 & Hm2); [lia|].
    split; [assumption|].
    exists (more ++ more2). now rewrite Hm2, Hm, app_assoc.
Qed.

Lemma split_records_keeps (s : string) (st : Split.state) :
  reaches (Split.cond s) (Split.body s) Split.init st ->
  exists more, Split.split_records s = Ok (Split.records st ++ more).
Proof.
  intros Hr.
  destruct (split_reaches_grows s _ _ Hr) as (Hi & _); [simpl; lia|].
  unfold Split.split_records.
  rewrite (split_reaches_scan s _ _ Hr) by (simpl; lia || assumption).
  destruct (split_scan_total s st Hi) as (st' & Hs & _).
  rewrite Hs. simpl.
  destruct (while_ends _ _ _ _ _ Hs) as [Hr' _].
  destruct (split_reaches_grows s _ _ Hr' Hi) as (_ & more1 & Hm1).
  destruct (last_record_total st') as (records & Hl & more2 & Hm2).
  rewrite Hl. exists (more1 ++ more2). now rewrite Hm2, Hm1, app_assoc.
Qed.

Lemma parse_sql_values_reports (sql_content : string) :
  logs (parse_sql_values sql_content) = [(ERROR, No_values_section)]
  \/ reports_problem (logs (parse_sql_values sql_content)) = false.
Proof.
  unfold parse_sql_values.
  destruct (Re.findall insert_pattern_nl sql_content) as [|m ms].
  - destruct (Re.search values_pattern sql_content) as [v|]; [|now left].
    right. destruct (Split.split_records v); reflexivity.
  - right. destruct (parse_matches parse_record_values (m :: ms)); reflexivity.
Qed.

(** C7, as the code has it.  When the record-splitting loop ends on a
    [VALUES] section with the parenthesis counter not at zero, the trailing
    fragment is dropped and the rows emitted before it are returned as they
    are; whatever the section, the rows emitted at any point of the scan are
    the head of the rows returned.  No malformed-input condition exists:
    the one problem [parse_sql_values] ever reports is a blob without a
    [VALUES] section, and a trailing fragment scanned with the counter at
    zero is kept as one more row, its quote open or not.  The blob
    [INSERT INTO T (a) VALUES ('unterminated] yields no row and the error
    record "No VALUES section found in SQL", without raising; with a line
    break behind [VALUES] it yields no row and no problem record. *)
Theorem malformed_tail_is_dropped_silently :
  (forall values_section st,
      Split.scan (Str.len values_section) values_section Split.init = Ok st ->
      Split.paren_count st <> 0%Z ->
      Split.split_records values_section = Ok (Split.records st))
  /\ (forall values_section st,
      reaches (Split.cond values_section) (Split.body values_section)
        Split.init st ->
      exists more,
        Split.split_records values_section = Ok (Split.records st ++ more))
  /\ (forall sql_content,
      logs (parse_sql_values sql_content) = [(ERROR, No_values_section)]
      \/ reports_problem (logs (parse_sql_values sql_content)) = false)
  /\ parse_sql_values blob_open_paren_tail
     = Ok ([(INFO, Parsed_records 1)], [["1"]])
  /\ parse_sql_values blob_open_quote_tail
     = Ok ([(INFO, Parsed_records 2)], [["1"]; ["abc"]])
  /\ parse_sql_values blob_unterminated_nl = Ok ([(INFO, Parsed_records 0)], [])
  /\ parse_sql_values blob_unterminated = Ok ([(ERROR, No_values_section)], []).
Proof.
  split; [|split; [|split]].
  - intros values_section st Hs Hpc. unfold Split.split_records.
    rewrite Hs. simpl. unfold Split.last_record.
    destruct (Z.eqb_spec (Split.paren_count st) 0); [contradiction|].
    now rewrite andb_false_r.
  - apply split_records_keeps.
  - apply parse_sql_values_reports.
  - repeat split; vm_compute; reflexivity.
Qed.

Lemma malformed_tail_is_dropped_silently_witness :
  Split.split_records "(1),(2" = Ok [["1"]].
Proof.
  refine (proj1 malformed_tail_is_dropped_silently "(1),(2"
            (Split.mk 6 [["1"]] "2" 1%Z false false) _ _).
  - vm_compute. reflexivity.
  - simpl. discriminate.
Defined.

(** C7 as stated fails: on the section [(1) 'abc] the scan ends inside a
    quoted literal, yet the fragment comes back as a second row and no
    problem is reported. *)
Lemma malformed_tail_counterexample :
  Re.search values_pattern blob_open_quote_tail = Some "(1) 'abc"
  /\ Split.scan 8 "(1) 'abc" Split.init
     = Ok (Split.mk 8 [["1"]] " 'abc" 0%Z true false)
  /\ rows (parse_sql_values blob_open_quote_tail) = Ok [["1"]; ["abc"]]
  /\ reports_problem (logs (parse_sql_values blob_open_quote_tail)) = false.
Proof. repeat split; vm_compute; reflexivity. Qed.

(** ** The loaders *)

Lemma pad_fuel (N : nat) :
  forall fuel record, N - List.length record <= fuel ->
  while fuel (fun r => Ok (List.length r <? N)) (fun r => Ok (r ++ [""])) record
  = Ok (record ++ repeat null_sentinel (N - List.length record)).
Proof.
  induction fuel as [|fuel IH]; intros record Hfuel; simpl.
  - destruct (Nat.ltb_spec (List.length record) N); [lia|].
    replace (N - List.length record) with 0 by lia.
    simpl. now rewrite app_nil_r.
  - destruct (Nat.ltb_spec (List.length record) N) as [Hlt|Hge].
    + simpl. rewrite IH by (rewrite List.length_app; simpl; lia).
      rewrite List.length_app. simpl.
      replace (N - List.length record) with (S (N - (List.length record + 1)))
        by lia.
      simpl. now rewrite <- app_assoc.
    + replace (N - List.length record) with 0 by lia.
      simpl. now rewrite app_nil_r.
Qed.

Lemma pad_ok (N : nat) (record : list string) :
  pad N record = Ok (record ++ repeat null_sentinel (N - List.length record)).
Proof. apply pad_fuel. lia. Qed.




Lemma load_sql_file_row_writes {Store : Type}
    (execute : Store -> list string -> Store * option exn)
    (st : loader_state Store) (record : list string) :
  load_sql_file_row execute st record
  = write execute (record ++ repeat null_sentinel (58 - List.length record))
      (row_params 58 record) st.
Proof. unfold load_sql_file_row. rewrite pad_ok. reflexivity. Qed.

Lemma load_sample_cases_500_row_writes {Store : Type}
    (execute : Store -> list string -> Store * option exn)
    (st : loader_state Store) (record : list string) :
  load_sample_cases_500_row execute st record
  = write execute (row_params 57 record) (row_params 57 record) st.
Proof. unfold load_sample_cases_500_row. rewrite pad_ok. reflexivity. Qed.



Section LoaderFacts.

Variable Store : Type.
Variable execute : Store -> list string -> Store * option exn.

Lemma except_clauses_catch (record : list string) (e : exn)
    (st : loader_state Store) :
  is_Exception e = true ->
  exists lv m more,
    except_clauses record e st
    = Ok (mk_loader (store st) (inserted_count st)
            (logged st ++ (lv, m) :: more))
    /\ (if is_duplicate e
        then lv = DEBUG /\ m = Skipping_duplicate (hd "unknown" record)
             /\ more = []
        else lv = ERROR).
Proof.
  intros He. destruct e as [|msg|msg|]; simpl in *; try discriminate.
  - do 3 eexists. split; [reflexivity | reflexivity].
  - destruct (Str.contains "UNIQUE constraint failed" msg).
    + do 3 eexists. split; [reflexivity | auto].
    + do 3 eexists. split; [reflexivity | reflexivity].
  - do 3 eexists. split; [reflexivity | reflexivity].
Qed.

Lemma write_outcome (record params : list string) (st : loader_state Store) :
  (forall s p e, snd (execute s p) = Some e -> is_Exception e = true) ->
  exists st',
    write execute record params st = Ok st'
    /\ store st' = fst (execute (store st) params)
    /\ row_accounting (snd (execute (store st) params)) record st st'.
Proof.
  intros Hexc. unfold write, row_accounting.
  pose proof (Hexc (store st) params) as He.
  destruct (execute (store st) params) as [s' [e|]]; simpl in *.
  - destruct (except_clauses_catch record e
                (mk_loader s' (inserted_count st) (logged st)) (He e eq_refl))
      as (lv & m & more & Hx & Hcls).
    rewrite Hx. eexists. split; [reflexivity|]. simpl.
    split; [reflexivity|]. split; [reflexivity|].
    exists lv, m, more. split; [reflexivity | exact Hcls].
  - eexists. split; [reflexivity|]. simpl. auto.
Qed.

Lemma for_records_attempts_all
    (row : loader_state Store -> list string -> result (loader_state Store))
    (params : list string -> list string) :
  (forall st record, exists st',
      row st record = Ok st'
      /\ store st' = fst (execute (store st) (params record))) ->
  forall records st, exists st',
    for_records row records st = Ok st'
    /\ store st'
       = fold_left (fun s r => fst (execute s (params r))) records (store st).
Proof.
  intros Hrow. induction records as [|record rest IH]; intros st; simpl.
  - eauto.
  - destruct (Hrow st record) as (st1 & H1 & Hs1). rewrite H1. simpl.
    destruct (IH st1) as (st' & H' & Hs'). exists st'.
    split; [exact H'|]. now rewrite Hs', Hs1.
Qed.

End LoaderFacts.

Lemma parse_matches_total (parse : string -> result (list string)) :
  (forall s, exists values, parse s = Ok values) ->
  forall matches, exists records, parse_matches parse matches = Ok records.
Proof.
  intros Hparse. induction matches as [|m rest IH]; simpl; [eauto|].
  destruct (Hparse (Str.strip m)) as [values Hv]. rewrite Hv. simpl.
  destruct IH as [records Hr]. rewrite Hr. simpl. eauto.
Qed.

Lemma parse_sql_values_total (sql_content : string) :
  exists r, parse_sql_values sql_content = Ok r.
Proof.
  unfold parse_sql_values.
  destruct (Re.findall insert_pattern_nl sql_content) as [|m ms].
  - destruct (Re.search values_pattern sql_content) as [v|]; [|eauto].
    destruct (split_records_total v) as [records Hr]. rewrite Hr. simpl. eauto.
  - destruct (parse_matches_total parse_record_values
                parse_record_values_total (m :: ms)) as [records Hr].
    rewrite Hr. simpl. eauto.
Qed.

Lemma parse_sql_insert_statements_total (sql_content : string) :
  exists records, parse_sql_insert_statements sql_content = Ok records.
Proof.
  unfold parse_sql_insert_statements.
  apply parse_matches_total. apply parse_values_string_total.
Qed.

(** C9, as the code has it.  What the write of a row raises costs that
    row only.  The store raising only errors derived from [Exception] (all
    of [sqlite3]'s are), no row of a bulk load stops the row loop.  Each
    row's write is issued, in order, against the store the rows before
    left, and the loop returns.  A row whose write raises an
    [IntegrityError] holding "UNIQUE constraint failed" is not counted and
    is passed to [logger.debug] as "Skipping duplicate case"; a row whose
    write raises anything else is not counted and logs a record of level
    [ERROR]; a row written is counted.  So it is in [load_sql_file] and in
    [load_sample_cases_500].  The two parsers that feed the loaders return
    on every text, they raise nothing.  Connecting, committing and closing
    stand outside of the [try] of the rows and are no part of this
    statement. *)
Theorem store_errors_cost_one_row (Store : Type)
    (execute : Store -> list string -> Store * option exn) :
  (forall s p e, snd (execute s p) = Some e -> is_Exception e = true) ->
  (forall records st, exists st',
      for_records (load_sql_file_row execute) records st = Ok st'
      /\ store st'
         = fold_left (fun s r => fst (execute s (row_params 58 r)))
             records (store st))
  /\ (forall records st, exists st',
      for_records (load_sample_cases_500_row execute) records st = Ok st'
      /\ store st'
         = fold_left (fun s r => fst (execute s (row_params 57 r)))
             records (store st))
  /\ (forall st record, exists st',
      load_sql_file_row execute st record = Ok st'
      /\ row_accounting (snd (execute (store st) (row_params 58 record)))
           (record ++ repeat null_sentinel (58 - List.length record)) st st')
  /\ (forall st record, exists st',
      load_sample_cases_500_row execute st record = Ok st'
      /\ row_accounting (snd (execute (store st) (row_params 57 record)))
           (row_params 57 record) st st')
  /\ (forall sql_content, exists r, parse_sql_values sql_content = Ok r)
  /\ (forall sql_content, exists records,
      parse_sql_insert_statements sql_content = Ok records).
Proof.
  intros Hexc. repeat split.
  - apply for_records_attempts_all. intros st record.
    rewrite load_sql_file_row_writes.
    destruct (write_outcome Store execute
                (record ++ repeat null_sentinel (58 - List.length record))
                (row_params 58 record) st Hexc) as (st' & Hw & Hs & _).
    eauto.
  - apply for_records_attempts_all. intros st record.
    rewrite load_sample_cases_500_row_writes.
    destruct (write_outcome Store execute (row_params 57 record)
                (row_params 57 record) st Hexc) as (st' & Hw & Hs & _).
    eauto.
  - intros st record. rewrite load_sql_file_row_writes.
    destruct (write_outcome Store execute
                (record ++ repeat null_sentinel (58 - List.length record))
                (row_params 58 record) st Hexc) as (st' & Hw & _ & Ha).
    eauto.
  - intros st record. rewrite load_sample_cases_500_row_writes.
    destruct (write_outcome Store execute (row_params 57 record)
                (row_params 57 record) st Hexc) as (st' & Hw & _ & Ha).
    eauto.
  - apply parse_sql_values_total.
  - apply parse_sql_insert_statements_total.
Qed.

Lemma toy_execute_raises (s p : list string) (e : exn) :
  snd (toy_execute s p) = Some e -> is_Exception e = true.
Proof.
  unfold toy_execute. destruct p as [|case p]; simpl.
  - intros H. injection H as <-. reflexivity.
  - destruct (existsb (String.eqb case) s); simpl.
    + intros H. injection H as <-. reflexivity.
    + destruct (String.eqb case ""); simpl; intros H;
        [injection H as <-; reflexivity | discriminate H].
Qed.

Lemma store_errors_cost_one_row_witness :
  (exists st',
      for_records (load_sql_file_row toy_execute)
        [["C-1"]; ["C-1"]; []; ["C-2"]] (mk_loader [] 0 []) = Ok st'
      /\ store st' = ["C-1"; "C-2"])
  /\ (exists st',
        load_sql_file_row toy_execute (mk_loader ["C-1"] 1 []) ["C-1"]
        = Ok st'
        /\ inserted_count st' = 1
        /\ logged st' = [(DEBUG, Skipping_duplicate "C-1")])
  /\ (exists st',
        load_sample_cases_500_row toy_execute (mk_loader ["C-1"] 1 []) [""]
        = Ok st'
        /\ inserted_count st' = 1
        /\ exists more,
             logged st'
             = (ERROR, Error_inserting (OtherException "no case number"))
               :: more).
Proof.
  split; [|split].
  - exact (proj1 (store_errors_cost_one_row _ toy_execute toy_execute_raises)
             [["C-1"]; ["C-1"]; []; ["C-2"]] (mk_loader [] 0 [])).
  - destruct (proj1 (proj2 (proj2
                (store_errors_cost_one_row _ toy_execute toy_execute_raises)))
                (mk_loader ["C-1"] 1 []) ["C-1"]) as (st' & Hrow & Hacc).
    exists st'. split; [exact Hrow|].
    vm_compute in Hrow. injection Hrow as <-. split; reflexivity.
  - destruct (proj1 (proj2 (proj2 (proj2
                (store_errors_cost_one_row _ toy_execute toy_execute_raises))))
                (mk_loader ["C-1"] 1 []) [""]) as (st' & Hrow & Hacc).
    exists st'. split; [exact Hrow|].
    vm_compute in Hrow. injection Hrow as <-.
    split; [reflexivity|]. eexists. reflexivity.
Defined.

(** An error raised outside of the [try] of a row leaves the loader and
    ends the process: here the row is written, then [conn.commit()] finds
    the database locked. *)
Lemma store_errors_cost_one_row_counterexample :
  is_Exception (OtherException "database is locked") = true
  /\ Connected.load_sql_file Ok toy_execute locked_commit Ok
       (Content ("INSERT INTO Cases (a) VALUES" ++ nl ++ "('C-1');")) []
     = Raise (OtherException "database is locked")
  /\ Connected.run_script
       (Connected.load_sql_data_main Ok toy_execute locked_commit Ok
          empty_table count_rows
          (Content ("INSERT INTO Cases (a) VALUES" ++ nl ++ "('C-1');"))
          Missing ["C-0"])
     = Connected.Died_of (OtherException "database is locked")
  /\ Connected.load_sample_cases_500 Ok toy_execute locked_commit Ok
       (Content "INSERT INTO Cases (a) VALUES ('C-1');") []
     = Raise (OtherException "database is locked")
  /\ Connected.run_script
       (Connected.create_full_database_main Ok toy_execute locked_commit Ok
          empty_table Ok Ok
          (Content "INSERT INTO Cases (a) VALUES ('C-1');") ["C-0"])
     = Connected.Died_of (OtherException "database is locked").
Proof. repeat split; vm_compute; reflexivity. Qed.

(** With a connection that is made, committed and closed without an
    error, the loaders are the loaders of the store alone. *)
Lemma connected_loaders_agree (Store : Type)
    (execute : Store -> list string -> Store * option exn)
    (file : sql_file) (s : Store) :
  Connected.load_sql_file Ok execute Ok Ok file s
  = load_sql_file execute file s
  /\ Connected.load_sample_cases_500 Ok execute Ok Ok file s
     = load_sample_cases_500 execute file s.
Proof. split; destruct file; reflexivity. Qed.

Example toy_load :
  for_records (load_sql_file_row toy_execute)
    [["C-1"]; ["C-1"]; []; ["C-2"]] (mk_loader [] 0 [])
  = Ok (mk_loader ["C-1"; "C-2"] 2
          [(DEBUG, Skipping_duplicate "C-1");
           (ERROR, Error_inserting (OtherException "no case number"));
           (DEBUG, Record_data [""; ""; ""])]).
Proof. vm_compute. reflexivity. Qed.

(** * Further properties *)

(** ** Rows written field by field are read back *)

Lemma drop_len (s : string) :
  forall i, String.length (drop i s) = String.length s - i.
Proof.
  induction s as [|d s IH]; intros [|i]; simpl; try reflexivity. apply IH.
Qed.

Lemma drop_end (s : string) (i : nat) :
  drop i s = EmptyString -> Str.len s <= i.
Proof.
  intros H. apply (f_equal String.length) in H. rewrite drop_len in H.
  unfold Str.len. simpl in H. lia.
Qed.

Lemma skip_blanks_exact_fuel (s post : string) :
  (post = EmptyString
   \/ exists c p, post = String c p /\ Str.in_blank c = false) ->
  forall blanks fuel q,
    all_chars Str.in_blank blanks = true ->
    drop (q + 1) s = (blanks ++ post)%string ->
    String.length blanks <= fuel ->
    while fuel (blank_ahead s) (fun i => Ok (i + 1)) q
    = Ok (q + String.length blanks).
Proof.
  intros Hpost. induction blanks as [|c blanks IH]; intros fuel q Hb Hd Hf.
  - simpl in *. rewrite Nat.add_0_r. apply while_done. unfold blank_ahead.
    destruct (Nat.ltb_spec (q + 1) (Str.len s)) as [Hlt|]; [|reflexivity].
    destruct Hpost as [->|(c & p & -> & Hc)].
    + apply drop_end in Hd. lia.
    + destruct (drop_cons s _ _ _ Hd) as (Hg & _). rewrite Hg. simpl.
      now rewrite Hc.
  - simpl in *. apply andb_true_iff in Hb. destruct Hb as [Hc Hb].
    destruct (drop_cons s _ _ _ Hd) as (Hg & Hd' & Hl).
    destruct fuel as [|fuel]; [lia|]. simpl. unfold blank_ahead at 1.
    destruct (Nat.ltb_spec (q + 1) (Str.len s)); [|lia].
    rewrite Hg. simpl. rewrite Hc.
    rewrite IH by (assumption || lia). f_equal. lia.
Qed.

Lemma skip_blanks_exact (s blanks post : string) (q : nat) :
  (post = EmptyString
   \/ exists c p, post = String c p /\ Str.in_blank c = false) ->
  all_chars Str.in_blank blanks = true ->
  drop (q + 1) s = (blanks ++ post)%string ->
  q < Str.len s ->
  skip_blanks s q = Ok (q + String.length blanks).
Proof.
  intros Hpost Hb Hd Hq. apply skip_blanks_exact_fuel with (post := post);
    try assumption.
  apply (f_equal String.length) in Hd. rewrite drop_len, strlen_app in Hd.
  unfold Str.len in *. lia.
Qed.

Lemma skip_comma_at_end (s : string) (j : nat) :
  drop (j + 1) s = EmptyString -> skip_comma s j = Ok j.
Proof.
  intros H. apply drop_end in H. unfold skip_comma.
  destruct (Nat.ltb_spec (j + 1) (Str.len s)); [lia | reflexivity].
Qed.

Lemma skip_comma_at_comma (s rest : string) (j : nat) :
  drop (j + 1) s = String Str.comma rest -> skip_comma s j = Ok (j + 1).
Proof.
  intros H. destruct (drop_cons s _ _ _ H) as (Hg & _ & Hl).
  unfold skip_comma.
  destruct (Nat.ltb_spec (j + 1) (Str.len s)); [|lia].
  rewrite Hg. reflexivity.
Qed.

Lemma rv_quoted_field (s body blanks post : string) (i : nat)
    (vs : list string) (cur : string) :
  literal_body body = true ->
  all_chars Str.in_blank blanks = true ->
  drop i s = (String Str.quote body ++ String Str.quote (blanks ++ post))%string ->
  (post = EmptyString \/ exists rest, post = String Str.comma rest) ->
  reaches (RecordValues.cond s) (RecordValues.body s)
    (RecordValues.mk i vs cur false false)
    (RecordValues.mk
       (i + String.length body + 2 + String.length blanks
        + match post with EmptyString => 0 | _ => 1 end)
       (vs ++ [(cur ++ body)%string]) "" false false).
Proof.
  intros Hlit Hbl Hdrop Hpost. simpl in Hdrop.
  destruct (drop_cons s i _ _ Hdrop) as (Hg & Hd & Hl).
  pose proof (drop_past s (i + 1) body _ Hd) as Hclose.
  destruct (drop_cons s _ _ _ Hclose) as (Hg2 & Hd2 & Hl2).
  pose proof (drop_past s _ blanks _ Hd2) as Hd3.
  set (q := i + 1 + String.length body) in *.
  assert (H1 : skip_blanks s q = Ok (q + String.length blanks)).
  { apply skip_blanks_exact with (post := post); try assumption.
    destruct Hpost as [->|(rest & ->)]; [now left | right].
    exists Str.comma, rest. split; reflexivity. }
  assert (H2 : skip_comma s (q + String.length blanks)
               = Ok (q + String.length blanks
                     + match post with EmptyString => 0 | _ => 1 end)).
  { replace (q + 1 + String.length blanks)
      with (q + String.length blanks + 1) in Hd3 by lia.
    destruct Hpost as [->|(rest & ->)].
    - rewrite Nat.add_0_r. now apply skip_comma_at_end.
    - now apply skip_comma_at_comma with (rest := rest). }
  eapply reaches_step.
  { apply rv_cond_true. exact Hl. }
  { unfold RecordValues.body. simpl. rewrite Hg. reflexivity. }
  eapply reaches_trans.
  { apply rv_literal_run with (n := String.length body) (body := body)
      (post := String Str.quote (blanks ++ post));
      [lia | exact Hlit | exact Hd]. }
  fold q.
  replace (i + String.length body + 2 + String.length blanks
           + match post with EmptyString => 0 | _ => 1 end)
    with (q + String.length blanks
          + match post with EmptyString => 0 | _ => 1 end + 1)
    by (unfold q; lia).
  apply reaches_one.
  { apply rv_cond_true. exact Hl2. }
  { unfold RecordValues.body. simpl. rewrite Hg2. simpl.
    rewrite H1. simpl. rewrite H2. reflexivity. }
Qed.

Lemma rv_comma_step (s rest : string) (i : nat) (vs : list string)
    (cur : string) :
  drop i s = String Str.comma rest ->
  reaches (RecordValues.cond s) (RecordValues.body s)
    (RecordValues.mk i vs cur false false)
    (RecordValues.mk (i + 1) (vs ++ [bare_value cur]) "" false false).
Proof.
  intros Hd. destruct (drop_cons s _ _ _ Hd) as (Hg & _ & Hl).
  apply reaches_one.
  - apply rv_cond_true. exact Hl.
  - unfold RecordValues.body. simpl. rewrite Hg. reflexivity.
Qed.

Lemma rv_fields_run (s : string) :
  forall fields i vs,
    forallb field_ok fields = true ->
    drop i s = render fields -> i <= Str.len s ->
    exists st,
      reaches (RecordValues.cond s) (RecordValues.body s)
        (RecordValues.mk i vs "" false false) st
      /\ RecordValues.i st = Str.len s
      /\ RecordValues.last_value st = vs ++ field_values fields.
Proof.
  induction fields as [|f rest IH]; intros i vs Hok Hd Hi.
  - exists (RecordValues.mk i vs "" false false). simpl in *.
    apply drop_end in Hd. repeat split.
    + apply reaches_refl.
    + simpl. lia.
    + unfold RecordValues.last_value. simpl. now rewrite app_nil_r.
  - simpl in Hok. apply andb_true_iff in Hok. destruct Hok as [Hf Hrest].
    assert (Hlen : String.length (drop i s) = Str.len s - i)
      by apply drop_len.
    destruct f as [body blanks|tok]; simpl in Hf.
    + apply andb_true_iff in Hf. destruct Hf as [Hlit Hbl].
      destruct rest as [|f2 rest].
      * simpl in Hd.
        assert (Hd' : drop i s
                      = (String Str.quote body
                         ++ String Str.quote (blanks ++ ""))%string)
          by (rewrite app_empty_r; exact Hd).
        pose proof (rv_quoted_field s body blanks "" i vs "" Hlit Hbl Hd'
                      (or_introl eq_refl)) as Hr.
        eexists. split; [exact Hr|]. split.
        -- simpl. rewrite Hd in Hlen. simpl in Hlen.
           rewrite strlen_app in Hlen. simpl in Hlen. lia.
        -- reflexivity.
      * change (render (Quoted body blanks :: f2 :: rest))
          with ((String Str.quote body ++ String Str.quote blanks)
                ++ String Str.comma (render (f2 :: rest)))%string in Hd.
        rewrite app_assoc_str in Hd.
        change (String Str.quote blanks
                ++ String Str.comma (render (f2 :: rest)))%string
          with (String Str.quote
                  (blanks ++ String Str.comma (render (f2 :: rest))))%string
          in Hd.
        pose proof (rv_quoted_field s body blanks _ i vs "" Hlit Hbl Hd
                      (or_intror (ex_intro _ _ eq_refl))) as Hr.
        cbv iota in Hr.
        set (j := i + String.length body + 2 + String.length blanks + 1) in *.
        assert (Hdj : drop j s = render (f2 :: rest)).
        { simpl in Hd. destruct (drop_cons s i _ _ Hd) as (_ & Hd1 & _).
          pose proof (drop_past s _ body _ Hd1) as Hd2.
          destruct (drop_cons s _ _ _ Hd2) as (_ & Hd3 & _).
          pose proof (drop_past s _ blanks _ Hd3) as Hd4.
          destruct (drop_cons s _ _ _ Hd4) as (_ & Hd5 & _).
          replace j with (i + 1 + String.length body + 1
                          + String.length blanks + 1) by (unfold j; lia).
          exact Hd5. }
        assert (Hj : j <= Str.len s).
        { rewrite Hd in Hlen. simpl in Hlen. rewrite strlen_app in Hlen.
          simpl in Hlen. rewrite strlen_app in Hlen. simpl in Hlen.
          unfold j. lia. }
        destruct (IH j (vs ++ [body]) Hrest Hdj Hj) as (st & Hst & Hi' & Hv).
        exists st. split; [eapply reaches_trans; [exact Hr | exact Hst]|].
        split; [exact Hi'|]. rewrite Hv, <- app_assoc. reflexivity.
    + destruct rest as [|f2 rest].
      * simpl in Hd.
        assert (Hd' : drop i s = (tok ++ "")%string)
          by (rewrite app_empty_r; exact Hd).
        pose proof (rv_bare_run s tok Hf "" i vs "" Hd') as Hr.
        eexists. split; [exact Hr|]. split.
        -- simpl. rewrite Hd in Hlen. lia.
        -- unfold RecordValues.last_value. simpl.
           destruct (Str.truthy (Str.strip tok)); [reflexivity|].
           now rewrite app_nil_r.
      * change (render (Bare tok :: f2 :: rest))
          with (tok ++ String Str.comma (render (f2 :: rest)))%string in Hd.
        pose proof (rv_bare_run s tok Hf _ i vs "" Hd) as Hr.
        pose proof (drop_past s i tok _ Hd) as Hd1.
        pose proof (rv_comma_step s _ (i + String.length tok) vs tok Hd1) as Hc.
        destruct (drop_cons s _ _ _ Hd1) as (_ & Hd2 & Hl).
        destruct (IH (i + String.length tok + 1) (vs ++ [bare_value tok])
                    Hrest Hd2) as (st & Hst & Hi' & Hv); [lia|].
        exists st. split.
        -- eapply reaches_trans; [exact Hr|].
           eapply reaches_trans; [exact Hc | exact Hst].
        -- split; [exact Hi'|]. rewrite Hv, <- app_assoc. reflexivity.
Qed.

Lemma rv_reads_fields (fields : list field) :
  forallb field_ok fields = true ->
  parse_record_values (render fields) = Ok (field_values fields).
Proof.
  intros Hok.
  destruct (rv_fields_run (render fields) fields 0 [] Hok eq_refl)
    as (st & Hr & Hi & Hv); [lia|].
  unfold parse_record_values, RecordValues.parse_record_values,
    RecordValues.init.
  rewrite (rv_reaches_scan _ _ _ Hr) by (simpl; lia).
  unfold RecordValues.scan.
  rewrite while_done by (apply rv_cond_false; lia).
  simpl. now rewrite Hv.
Qed.

(** The same for [parse_values_string]. *)

Lemma vs_quoted_field (s body blanks post : string) (i : nat)
    (vs : list string) (cur : string) :
  literal_body body = true ->
  all_chars Str.in_blank blanks = true ->
  drop i s = (String Str.quote body ++ String Str.quote (blanks ++ post))%string ->
  (post = EmptyString \/ exists rest, post = String Str.comma rest) ->
  reaches (ValuesString.cond s) (ValuesString.body s)
    (ValuesString.mk i vs cur false false 0%Z)
    (ValuesString.mk
       (i + String.length body + 2 + String.length blanks
        + match post with EmptyString => 0 | _ => 1 end)
       (vs ++ [(cur ++ body)%string]) "" false false 0%Z).
Proof.
  intros Hlit Hbl Hdrop Hpost. simpl in Hdrop.
  destruct (drop_cons s i _ _ Hdrop) as (Hg & Hd & Hl).
  pose proof (drop_past s (i + 1) body _ Hd) as Hclose.
  destruct (drop_cons s _ _ _ Hclose) as (Hg2 & Hd2 & Hl2).
  pose proof (drop_past s _ blanks _ Hd2) as Hd3.
  set (q := i + 1 + String.length body) in *.
  assert (H1 : skip_blanks s q = Ok (q + String.length blanks)).
  { apply skip_blanks_exact with (post := post); try assumption.
    destruct Hpost as [->|(rest & ->)]; [now left | right].
    exists Str.comma, rest. split; reflexivity. }
  assert (H2 : skip_comma s (q + String.length blanks)
               = Ok (q + String.length blanks
                     + match post with EmptyString => 0 | _ => 1 end)).
  { replace (q + 1 + String.length blanks)
      with (q + String.length blanks + 1) in Hd3 by lia.
    destruct Hpost as [->|(rest & ->)].
    - rewrite Nat.add_0_r. now apply skip_comma_at_end.
    - now apply skip_comma_at_comma with (rest := rest). }
  eapply reaches_step.
  { apply vs_cond_true. exact Hl. }
  { unfold ValuesString.body. simpl. rewrite Hg. reflexivity. }
  eapply reaches_trans.
  { apply vs_literal_run with (n := String.length body) (body := body)
      (post := String Str.quote (blanks ++ post));
      [lia | exact Hlit | exact Hd]. }
  fold q.
  replace (i + String.length body + 2 + String.length blanks
           + match post with EmptyString => 0 | _ => 1 end)
    with (q + String.length blanks
          + match post with EmptyString => 0 | _ => 1 end + 1)
    by (unfold q; lia).
  apply reaches_one.
  { apply vs_cond_true. exact Hl2. }
  { unfold ValuesString.body. simpl. rewrite Hg2. simpl.
    rewrite H1. simpl. rewrite H2. reflexivity. }
Qed.

Lemma vs_comma_step (s rest : string) (i : nat) (vs : list string)
    (cur : string) :
  drop i s = String Str.comma rest ->
  reaches (ValuesString.cond s) (ValuesString.body s)
    (ValuesString.mk i vs cur false false 0%Z)
    (ValuesString.mk (i + 1) (vs ++ [bare_value cur]) "" false false 0%Z).
Proof.
  intros Hd. destruct (drop_cons s _ _ _ Hd) as (Hg & _ & Hl).
  apply reaches_one.
  - apply vs_cond_true. exact Hl.
  - unfold ValuesString.body. simpl. rewrite Hg. reflexivity.
Qed.

Lemma vs_fields_run (s : string) :
  forall fields i vs,
    forallb field_ok fields = true ->
    drop i s = render fields -> i <= Str.len s ->
    exists st,
      reaches (ValuesString.cond s) (ValuesString.body s)
        (ValuesString.mk i vs "" false false 0%Z) st
      /\ ValuesString.i st = Str.len s
      /\ ValuesString.last_value st = vs ++ field_values fields.
Proof.
  induction fields as [|f rest IH]; intros i vs Hok Hd Hi.
  - exists (ValuesString.mk i vs "" false false 0%Z). simpl in *.
    apply drop_end in Hd. repeat split.
    + apply reaches_refl.
    + simpl. lia.
    + unfold ValuesString.last_value. simpl. now rewrite app_nil_r.
  - simpl in Hok. apply andb_true_iff in Hok. destruct Hok as [Hf Hrest].
    assert (Hlen : String.length (drop i s) = Str.len s - i)
      by apply drop_len.
    destruct f as [body blanks|tok]; simpl in Hf.
    + apply andb_true_iff in Hf. destruct Hf as [Hlit Hbl].
      destruct rest as [|f2 rest].
      * simpl in Hd.
        assert (Hd' : drop i s
                      = (String Str.quote body
                         ++ String Str.quote (blanks ++ ""))%string)
          by (rewrite app_empty_r; exact Hd).
        pose proof (vs_quoted_field s body blanks "" i vs "" Hlit Hbl Hd'
                      (or_introl eq_refl)) as Hr.
        eexists. split; [exact Hr|]. split.
        -- simpl. rewrite Hd in Hlen. simpl in Hlen.
           rewrite strlen_app in Hlen. simpl in Hlen. lia.
        -- reflexivity.
      * change (render (Quoted body blanks :: f2 :: rest))
          with ((String Str.quote body ++ String Str.quote blanks)
                ++ String Str.comma (render (f2 :: rest)))%string in Hd.
        rewrite app_assoc_str in Hd.
        change (String Str.quote blanks
                ++ String Str.comma (render (f2 :: rest)))%string
          with (String Str.quote
                  (blanks ++ String Str.comma (render (f2 :: rest))))%string
          in Hd.
        pose proof (vs_quoted_field s body blanks _ i vs "" Hlit Hbl Hd
                      (or_intror (ex_intro _ _ eq_refl))) as Hr.
        cbv iota in Hr.
        set (j := i + String.length body + 2 + String.length blanks + 1) in *.
        assert (Hdj : drop j s = render (f2 :: rest)).
        { simpl in Hd. destruct (drop_cons s i _ _ Hd) as (_ & Hd1 & _).
          pose proof (drop_past s _ body _ Hd1) as Hd2.
          destruct (drop_cons s _ _ _ Hd2) as (_ & Hd3 & _).
          pose proof (drop_past s _ blanks _ Hd3) as Hd4.
          destruct (drop_cons s _ _ _ Hd4) as (_ & Hd5 & _).
          replace j with (i + 1 + String.length body + 1
                          + String.length blanks + 1) by (unfold j; lia).
          exact Hd5. }
        assert (Hj : j <= Str.len s).
        { rewrite Hd in Hlen. simpl in Hlen. rewrite strlen_app in Hlen.
          simpl in Hlen. rewrite strlen_app in Hlen. simpl in Hlen.
          unfold j. lia. }
        destruct (IH j (vs ++ [body]) Hrest Hdj Hj) as (st & Hst & Hi' & Hv).
        exists st. split; [eapply reaches_trans; [exact Hr | exact Hst]|].
        split; [exact Hi'|]. rewrite Hv, <- app_assoc. reflexivity.
    + destruct rest as [|f2 rest].
      * simpl in Hd.
        assert (Hd' : drop i s = (tok ++ "")%string)
          by (rewrite app_empty_r; exact Hd).
        pose proof (vs_bare_run s tok Hf "" i vs "" 0%Z Hd') as Hr.
        eexists. split; [exact Hr|]. split.
        -- simpl. rewrite Hd in Hlen. lia.
        -- unfold ValuesString.last_value. simpl.
           destruct (Str.truthy (Str.strip tok)); [reflexivity|].
           now rewrite app_nil_r.
      * change (render (Bare tok :: f2 :: rest))
          with (tok ++ String Str.comma (render (f2 :: rest)))%string in Hd.
        pose proof (vs_bare_run s tok Hf _ i vs "" 0%Z Hd) as Hr.
        pose proof (drop_past s i tok _ Hd) as Hd1.
        pose proof (vs_comma_step s _ (i + String.length tok) vs tok Hd1) as Hc.
        destruct (drop_cons s _ _ _ Hd1) as (_ & Hd2 & Hl).
        destruct (IH (i + String.length tok + 1) (vs ++ [bare_value tok])
                    Hrest Hd2) as (st & Hst & Hi' & Hv); [lia|].
        exists st. split.
        -- eapply reaches_trans; [exact Hr|].
           eapply reaches_trans; [exact Hc | exact Hst].
        -- split; [exact Hi'|]. rewrite Hv, <- app_assoc. reflexivity.
Qed.

Lemma vs_reads_fields (fields : list field) :
  forallb field_ok fields = true ->
  parse_values_string (render fields) = Ok (field_values fields).
Proof.
  intros Hok.
  destruct (vs_fields_run (render fields) fields 0 [] Hok eq_refl)
    as (st & Hr & Hi & Hv); [lia|].
  unfold parse_values_string, ValuesString.parse_values_string,
    ValuesString.init.
  rewrite (vs_reaches_scan _ _ _ Hr) by (simpl; lia).
  unfold ValuesString.scan.
  rewrite while_done by (apply vs_cond_false; lia).
  simpl. now rewrite Hv.
Qed.

(** X1.  A row written as fields joined by commas is read back field by
    field, by both tokenizers: a quoted literal gives its text (blanks
    behind its closing quote are passed over), an unquoted token gives its
    trimmed text, or the null marker when that is [NULL]; a blank unquoted
    token standing last gives no value at all. *)
Theorem fields_are_read_back (fields : list field) :
  forallb field_ok fields = true ->
  parse_record_values (render fields) = Ok (field_values fields)
  /\ parse_values_string (render fields) = Ok (field_values fields).
Proof.
  intros Hok. split; [apply rv_reads_fields | apply vs_reads_fields];
    exact Hok.
Qed.

Lemma fields_are_read_back_witness :
  parse_record_values "'Jo, (Ann)'  ,null, 42 ,, "
  = Ok ["Jo, (Ann)"; ""; "42"; ""]
  /\ parse_values_string "'Jo, (Ann)'  ,null, 42 ,, "
     = Ok ["Jo, (Ann)"; ""; "42"; ""].
Proof.
  exact (fields_are_read_back
           [Quoted "Jo, (Ann)" "  "; Bare "null"; Bare " 42 "; Bare "";
            Bare " "] eq_refl).
Defined.

(** ** Where the two tokenizers part *)

Lemma getitem_all_chars (q : ascii -> bool) (s : string) :
  all_chars q s = true ->
  forall i c, Str.getitem s i = Ok c -> q c = true.
Proof.
  unfold Str.getitem. induction s as [|d s IH]; simpl; intros Hq i c H.
  - destruct i; discriminate.
  - apply andb_true_iff in Hq. destruct Hq as [Hd Hs].
    destruct i as [|i]; simpl in H.
    + injection H as <-. exact Hd.
    + apply (IH Hs i c H).
Qed.

Lemma body_without_parens (s : string) (st : ValuesString.state) :
  all_chars no_paren s = true ->
  ValuesString.paren_count st = 0%Z ->
  match ValuesString.body s st with
  | Ok st' =>
      RecordValues.body s (forget_count st) = Ok (forget_count st')
      /\ ValuesString.paren_count st' = 0%Z
  | Raise e => RecordValues.body s (forget_count st) = Raise e
  | OutOfFuel => RecordValues.body s (forget_count st) = OutOfFuel
  end.
Proof.
  intros Hs Hpc. destruct st as [i vs cur ins esc pc]. simpl in Hpc. subst pc.
  unfold ValuesString.body, RecordValues.body, forget_count. simpl.
  destruct (Str.getitem s i) as [c| |] eqn:Hg; simpl; try reflexivity.
  pose proof (getitem_all_chars _ _ Hs _ _ Hg) as Hc.
  unfold no_paren in Hc. apply andb_true_iff in Hc.
  rewrite !negb_true_iff in Hc. destruct Hc as [Hl Hr]. rewrite Hl, Hr.
  destruct esc; [simpl; auto|].
  destruct (Ascii.eqb c Str.backslash); [simpl; auto|].
  destruct (Ascii.eqb c Str.quote); simpl.
  - destruct ins; simpl; [|auto].
    destruct (skip_blanks s i) as [i1| |]; simpl; try reflexivity.
    destruct (skip_comma s i1) as [i2| |]; simpl; auto.
  - destruct ins; simpl; [auto|].
    destruct (Ascii.eqb c Str.comma); simpl; auto.
Qed.

Lemma scan_without_parens (s : string) :
  all_chars no_paren s = true ->
  forall fuel st, ValuesString.paren_count st = 0%Z ->
  match ValuesString.scan fuel s st with
  | Ok st' =>
      RecordValues.scan fuel s (forget_count st) = Ok (forget_count st')
  | Raise e => RecordValues.scan fuel s (forget_count st) = Raise e
  | OutOfFuel => RecordValues.scan fuel s (forget_count st) = OutOfFuel
  end.
Proof.
  intros Hs. unfold ValuesString.scan, RecordValues.scan.
  induction fuel as [|fuel IH]; intros st Hpc; simpl.
  - unfold ValuesString.cond, RecordValues.cond. simpl.
    destruct (ValuesString.i st <? Str.len s); reflexivity.
  - unfold ValuesString.cond at 1, RecordValues.cond at 1. simpl.
    destruct (ValuesString.i st <? Str.len s); [|reflexivity].
    pose proof (body_without_parens s st Hs Hpc) as Hb.
    destruct (ValuesString.body s st) as [st'| |]; simpl.
    + destruct Hb as [Hb Hpc']. rewrite Hb. simpl. apply IH. exact Hpc'.
    + rewrite Hb. reflexivity.
    + rewrite Hb. reflexivity.
Qed.

(** X2.  On a text without parentheses the two tokenizers return the same
    values, whatever the text. *)
Theorem tokenizers_agree_without_parens (s : string) :
  all_chars no_paren s = true ->
  parse_values_string s = parse_record_values s.
Proof.
  intros Hs.
  unfold parse_values_string, ValuesString.parse_values_string,
    parse_record_values, RecordValues.parse_record_values.
  pose proof (scan_without_parens s Hs (Str.len s) ValuesString.init eq_refl)
    as H.
  change (forget_count ValuesString.init) with RecordValues.init in H.
  destruct (ValuesString.scan (Str.len s) s ValuesString.init) as [st| |];
    rewrite H; reflexivity.
Qed.

Lemma tokenizers_agree_without_parens_witness :
  parse_values_string "'a\', 'b' , NULL,'open"
  = parse_record_values "'a\', 'b' , NULL,'open".
Proof.
  exact (tokenizers_agree_without_parens "'a\', 'b' , NULL,'open" eq_refl).
Defined.

Lemma plain_tests (c : ascii) :
  plain c = true ->
  Ascii.eqb c Str.backslash = false /\ Ascii.eqb c Str.quote = false
  /\ Ascii.eqb c Str.comma = false.
Proof. unfold plain. rewrite !andb_true_iff, !negb_true_iff. tauto. Qed.

Lemma rv_plain_run (s : string) :
  forall u, all_chars plain u = true ->
  forall post i vs cur,
    drop i s = (u ++ post)%string ->
    reaches (RecordValues.cond s) (RecordValues.body s)
      (RecordValues.mk i vs cur false false)
      (RecordValues.mk (i + String.length u) vs (cur ++ u) false false).
Proof.
  induction u as [|c u IH]; intros Hu post i vs cur Hdrop; simpl in *.
  - rewrite Nat.add_0_r, app_empty_r. apply reaches_refl.
  - apply andb_true_iff in Hu. destruct Hu as [Hc Hu].
    destruct (plain_tests c Hc) as (Hbs & Hq & Hcm).
    destruct (drop_cons s i c _ Hdrop) as (Hg & Hd & Hl).
    eapply reaches_step.
    { apply rv_cond_true. exact Hl. }
    { unfold RecordValues.body. simpl. rewrite Hg. simpl.
      rewrite Hbs, Hq, Hcm. reflexivity. }
    replace (i + S (String.length u)) with (i + 1 + String.length u) by lia.
    replace (cur ++ String c u)%string
      with (Str.add_char cur c ++ u)%string by now rewrite add_char_app.
    apply IH with (post := post); assumption.
Qed.

Lemma vs_nested_run (s : string) :
  forall u pc, nested pc u = true ->
  forall post i vs cur,
    drop i s = (u ++ post)%string ->
    reaches (ValuesString.cond s) (ValuesString.body s)
      (ValuesString.mk i vs cur false false pc)
      (ValuesString.mk (i + String.length u) vs (cur ++ u) false false
         (depth_after pc u)).
Proof.
  induction u as [|c u IH]; intros pc Hu post i vs cur Hdrop; simpl in *.
  - rewrite Nat.add_0_r, app_empty_r. apply reaches_refl.
  - apply andb_true_iff in Hu. destruct Hu as [Hc Hu].
    apply andb_true_iff in Hc. rewrite !negb_true_iff in Hc.
    destruct Hc as [Hbs Hq].
    destruct (drop_cons s i c _ Hdrop) as (Hg & Hd & Hl).
    replace (i + S (String.length u)) with (i + 1 + String.length u) by lia.
    replace (cur ++ String c u)%string
      with (Str.add_char cur c ++ u)%string by now rewrite add_char_app.
    destruct (Ascii.eqb c Str.comma) eqn:Hcm.
    + apply andb_true_iff in Hu. destruct Hu as [Hpc Hu].
      apply negb_true_iff in Hpc.
      assert (Hlp : Ascii.eqb c Str.lparen = false).
      { apply Ascii.eqb_eq in Hcm. subst c. reflexivity. }
      assert (Hrp : Ascii.eqb c Str.rparen = false).
      { apply Ascii.eqb_eq in Hcm. subst c. reflexivity. }
      rewrite Hlp, Hrp.
      eapply reaches_step;
        [apply vs_cond_true; exact Hl | |
         apply IH with (post := post); [exact Hu | exact Hd]].
      unfold ValuesString.body. simpl. rewrite Hg. simpl.
      rewrite Hbs, Hq, Hcm, Hpc, Hlp, Hrp. reflexivity.
    + destruct (Ascii.eqb c Str.lparen) eqn:Hlp;
        [|destruct (Ascii.eqb c Str.rparen) eqn:Hrp];
        (eapply reaches_step;
         [apply vs_cond_true; exact Hl | |
          apply IH with (post := post); [exact Hu | exact Hd]]);
        unfold ValuesString.body; simpl; rewrite Hg; simpl;
        rewrite Hbs, Hq, Hcm, Hlp; try rewrite Hrp; reflexivity.
Qed.

Lemma lstrip_nonspace (u : string) :
  all_chars Str.isspace u = false ->
  exists c r, Str.lstrip u = String c r /\ Str.isspace c = false.
Proof.
  induction u as [|c u IH]; simpl; [discriminate|].
  destruct (Str.isspace c) eqn:Hc; simpl.
  - exact IH.
  - intros _. eauto.
Qed.

Lemma strip_truthy (u : string) :
  all_chars Str.isspace u = false -> Str.truthy (Str.strip u) = true.
Proof.
  intros H. destruct (lstrip_nonspace u H) as (c & r & Hl & Hc).
  unfold Str.strip. rewrite Hl. simpl.
  destruct (Str.rstrip r); [rewrite Hc|]; reflexivity.
Qed.

Lemma comma_is_not_blank (x y : string) :
  all_chars Str.isspace (x ++ String Str.comma y) = false.
Proof.
  induction x as [|c x IH]; simpl; [reflexivity|].
  rewrite IH. apply andb_false_r.
Qed.

Lemma vs_nested_token (u : string) :
  nested 0 u = true ->
  parse_values_string u
  = Ok (if Str.truthy (Str.strip u) then [bare_value u] else []).
Proof.
  intros Hu.
  pose proof (vs_nested_run u u 0%Z Hu "" 0 [] ""
                (eq_sym (app_empty_r u))) as Hr.
  unfold parse_values_string, ValuesString.parse_values_string,
    ValuesString.init.
  rewrite (vs_reaches_scan u _ _ Hr) by (simpl; unfold Str.len; lia).
  unfold ValuesString.scan.
  rewrite while_done by (apply vs_cond_false; simpl; unfold Str.len; lia).
  simpl. unfold ValuesString.last_value. simpl.
  destruct (Str.truthy (Str.strip u)); reflexivity.
Qed.

Lemma rv_splits_at_comma (x y : string) :
  all_chars plain x = true -> all_chars plain y = true ->
  parse_record_values (x ++ String Str.comma y)
  = Ok (bare_value x
        :: if Str.truthy (Str.strip y) then [bare_value y] else []).
Proof.
  intros Hx Hy.
  set (s := (x ++ String Str.comma y)%string).
  assert (Hlen : Str.len s = String.length x + 1 + String.length y).
  { unfold s, Str.len. rewrite strlen_app. simpl. lia. }
  assert (Hd0 : drop 0 s = (x ++ String Str.comma y)%string) by reflexivity.
  pose proof (rv_plain_run s x Hx _ 0 [] "" Hd0) as Hr1.
  pose proof (drop_past s 0 x _ Hd0) as Hd1.
  pose proof (rv_comma_step s y _ [] ("" ++ x) Hd1) as Hr2.
  destruct (drop_cons s _ _ _ Hd1) as (_ & Hd2 & _).
  assert (Hd2' : drop (0 + String.length x + 1) s = (y ++ "")%string)
    by (rewrite app_empty_r; exact Hd2).
  pose proof (rv_plain_run s y Hy _ _ ([] ++ [bare_value ("" ++ x)]) ""
                Hd2') as Hr3.
  pose proof (reaches_trans _ _ _ _ _ Hr1 (reaches_trans _ _ _ _ _ Hr2 Hr3))
    as Hr.
  unfold parse_record_values, RecordValues.parse_record_values,
    RecordValues.init.
  rewrite (rv_reaches_scan s _ _ Hr) by (simpl; lia).
  unfold RecordValues.scan.
  rewrite while_done by (apply rv_cond_false; simpl; lia).
  simpl. unfold RecordValues.last_value. simpl.
  destruct (Str.truthy (Str.strip y)); reflexivity.
Qed.

(** X3.  The two tokenizers part on a comma inside parentheses.  For an
    unquoted text [x,y] without quotes and escape markers, whose commas all
    stand inside parentheses, [parse_values_string] returns the whole text
    as one value while [parse_record_values] cuts it at the comma. *)
Theorem tokenizers_part_inside_parens (x y : string) :
  all_chars plain x = true -> all_chars plain y = true ->
  nested 0 (x ++ String Str.comma y) = true ->
  parse_values_string (x ++ String Str.comma y)
  = Ok [bare_value (x ++ String Str.comma y)]
  /\ parse_record_values (x ++ String Str.comma y)
     = Ok (bare_value x
           :: if Str.truthy (Str.strip y) then [bare_value y] else []).
Proof.
  intros Hx Hy Hn. split.
  - rewrite (vs_nested_token _ Hn).
    now rewrite (strip_truthy _ (comma_is_not_blank x y)).
  - apply rv_splits_at_comma; assumption.
Qed.

Lemma tokenizers_part_inside_parens_witness :
  parse_values_string "COALESCE(a, 0)" = Ok ["COALESCE(a, 0)"]
  /\ parse_record_values "COALESCE(a, 0)" = Ok ["COALESCE(a"; "0)"].
Proof.
  exact (tokenizers_part_inside_parens "COALESCE(a" " 0)"
           eq_refl eq_refl eq_refl).
Defined.

(** ** No value holds a character that the text does not hold *)

Lemma reaches_invariant {S : Type} (cond : S -> result bool)
    (body : S -> result S) (P : S -> Prop) :
  (forall st st', P st -> cond st = Ok true -> body st = Ok st' -> P st') ->
  forall st st', reaches cond body st st' -> P st -> P st'.
Proof.
  intros Hstep st st' Hr. induction Hr as [|st st1 st2 Hc Hb _ IH];
    intros HP; [assumption|].
  apply IH. eapply Hstep; eauto.
Qed.

Lemma all_chars_app (q : ascii -> bool) (a b : string) :
  all_chars q (a ++ b) = all_chars q a && all_chars q b.
Proof.
  induction a as [|c a IH]; simpl; [reflexivity|].
  now rewrite IH, andb_assoc.
Qed.

Lemma all_chars_add_char (q : ascii -> bool) (a : string) (c : ascii) :
  all_chars q a = true -> q c = true -> all_chars q (Str.add_char a c) = true.
Proof.
  intros Ha Hc. unfold Str.add_char. rewrite all_chars_app, Ha. simpl.
  now rewrite Hc.
Qed.

Lemma lstrip_keeps (q : ascii -> bool) (s : string) :
  all_chars q s = true -> all_chars q (Str.lstrip s) = true.
Proof.
  induction s as [|c s IH]; simpl; [trivial|]. intros H.
  destruct (Str.isspace c); [|exact H].
  apply andb_true_iff in H. apply IH, H.
Qed.

Lemma rstrip_keeps (q : ascii -> bool) (s : string) :
  all_chars q s = true -> all_chars q (Str.rstrip s) = true.
Proof.
  induction s as [|c s IH]; simpl; [trivial|]. intros H.
  apply andb_true_iff in H. destruct H as [Hc Hs]. specialize (IH Hs).
  destruct (Str.rstrip s) as [|d r].
  - destruct (Str.isspace c); simpl; [reflexivity | now rewrite Hc].
  - change (q c && all_chars q (String d r) = true). now rewrite Hc, IH.
Qed.

Lemma strip_keeps (q : ascii -> bool) (s : string) :
  all_chars q s = true -> all_chars q (Str.strip s) = true.
Proof. intros H. unfold Str.strip. now apply rstrip_keeps, lstrip_keeps. Qed.

Lemma bare_value_keeps (q : ascii -> bool) (s : string) :
  all_chars q s = true -> all_chars q (bare_value s) = true.
Proof.
  intros H. unfold bare_value.
  destruct (String.eqb (Str.upper (Str.strip s)) "NULL");
    [reflexivity | now apply strip_keeps].
Qed.

Lemma made_of_snoc (q : ascii -> bool) (vs : list string) (v : string) :
  made_of q vs -> all_chars q v = true -> made_of q (vs ++ [v]).
Proof.
  intros Hvs Hv. apply Forall_app. split; [exact Hvs|].
  constructor; [exact Hv | constructor].
Qed.

(** Takes a loop body apart, one test after the other. *)
Ltac body_cases H :=
  repeat match type of H with
         | context [if ?b then _ else _] => destruct b; simpl in H
         | context [bind ?m _] => destruct m; simpl in H
         end;
  try discriminate H; injection H as <-; simpl.

Lemma rv_body_keeps (q : ascii -> bool) (s : string)
    (st st' : RecordValues.state) :
  all_chars q s = true ->
  made_of q (RecordValues.values st)
  /\ all_chars q (RecordValues.current_value st) = true ->
  RecordValues.body s st = Ok st' ->
  made_of q (RecordValues.values st')
  /\ all_chars q (RecordValues.current_value st') = true.
Proof.
  intros Hs [Hvs Hcur] Hb. unfold RecordValues.body in Hb.
  destruct (Str.getitem s (RecordValues.i st)) as [c| |] eqn:Hg;
    simpl in Hb; try discriminate Hb.
  pose proof (getitem_all_chars q s Hs _ _ Hg) as Hc.
  body_cases Hb;
    auto using all_chars_add_char, made_of_snoc, bare_value_keeps.
Qed.

Lemma vs_body_keeps (q : ascii -> bool) (s : string)
    (st st' : ValuesString.state) :
  all_chars q s = true ->
  made_of q (ValuesString.values st)
  /\ all_chars q (ValuesString.current_value st) = true ->
  ValuesString.body s st = Ok st' ->
  made_of q (ValuesString.values st')
  /\ all_chars q (ValuesString.current_value st') = true.
Proof.
  intros Hs [Hvs Hcur] Hb. unfold ValuesString.body in Hb.
  destruct (Str.getitem s (ValuesString.i st)) as [c| |] eqn:Hg;
    simpl in Hb; try discriminate Hb.
  pose proof (getitem_all_chars q s Hs _ _ Hg) as Hc.
  body_cases Hb;
    auto using all_chars_add_char, made_of_snoc, bare_value_keeps.
Qed.

Lemma rv_values_made_of (q : ascii -> bool) (s : string) :
  all_chars q s = true ->
  exists vs, parse_record_values s = Ok vs /\ made_of q vs.
Proof.
  intros Hs.
  unfold parse_record_values, RecordValues.parse_record_values.
  destruct (rv_scan_total s RecordValues.init) as (st & Hscan & _);
    [simpl; lia|].
  rewrite Hscan. simpl. eexists. split; [reflexivity|].
  destruct (while_ends _ _ _ _ _ Hscan) as [Hr _].
  destruct (reaches_invariant _ _
              (fun st => made_of q (RecordValues.values st)
                         /\ all_chars q (RecordValues.current_value st) = true)
              (fun st st' HP _ Hb => rv_body_keeps q s st st' Hs HP Hb)
              _ _ Hr) as [Hvs Hcur].
  { split; [constructor | reflexivity]. }
  unfold RecordValues.last_value.
  destruct (Str.truthy (Str.strip (RecordValues.current_value st)));
    auto using made_of_snoc, bare_value_keeps.
Qed.

Lemma vs_values_made_of (q : ascii -> bool) (s : string) :
  all_chars q s = true ->
  exists vs, parse_values_string s = Ok vs /\ made_of q vs.
Proof.
  intros Hs.
  unfold parse_values_string, ValuesString.parse_values_string.
  destruct (vs_scan_total s ValuesString.init) as (st & Hscan & _);
    [simpl; lia|].
  rewrite Hscan. simpl. eexists. split; [reflexivity|].
  destruct (while_ends _ _ _ _ _ Hscan) as [Hr _].
  destruct (reaches_invariant _ _
              (fun st => made_of q (ValuesString.values st)
                         /\ all_chars q (ValuesString.current_value st) = true)
              (fun st st' HP _ Hb => vs_body_keeps q s st st' Hs HP Hb)
              _ _ Hr) as [Hvs Hcur].
  { split; [constructor | reflexivity]. }
  unfold ValuesString.last_value.
  destruct (Str.truthy (Str.strip (ValuesString.current_value st)));
    auto using made_of_snoc, bare_value_keeps.
Qed.

Lemma append_record_keeps (q : ascii -> bool) (rs rs' : list (list string))
    (cur : string) :
  Forall (made_of q) rs -> all_chars q cur = true ->
  Split.append_record rs cur = Ok rs' -> Forall (made_of q) rs'.
Proof.
  intros Hrs Hcur. unfold Split.append_record.
  destruct (Str.truthy (Str.strip cur)).
  - destruct (rv_values_made_of q (Str.strip cur) (strip_keeps q cur Hcur))
      as (vs & Hp & Hvs).
    rewrite Hp. simpl. intros H. injection H as <-.
    apply Forall_app. split; [exact Hrs | constructor; [exact Hvs | constructor]].
  - intros H. injection H as <-. exact Hrs.
Qed.

Lemma split_body_keeps (q : ascii -> bool) (s : string)
    (st st' : Split.state) :
  all_chars q s = true ->
  Forall (made_of q) (Split.records st)
  /\ all_chars q (Split.current_record st) = true ->
  Split.body s st = Ok st' ->
  Forall (made_of q) (Split.records st')
  /\ all_chars q (Split.current_record st') = true.
Proof.
  intros Hs [Hrs Hcur] Hb. unfold Split.body in Hb.
  destruct (Str.getitem s (Split.i st)) as [c| |] eqn:Hg;
    simpl in Hb; try discriminate Hb.
  pose proof (getitem_all_chars q s Hs _ _ Hg) as Hc.
  destruct (Split.append_record (Split.records st) (Split.current_record st))
    as [rs'| |] eqn:Ha; simpl in Hb;
    body_cases Hb; eauto using all_chars_add_char, append_record_keeps.
Qed.

Lemma split_records_made_of (q : ascii -> bool) (s : string) :
  all_chars q s = true ->
  exists rs, Split.split_records s = Ok rs /\ Forall (made_of q) rs.
Proof.
  intros Hs. unfold Split.split_records.
  destruct (split_scan_total s Split.init) as (st & Hscan & _);
    [simpl; lia|].
  rewrite Hscan. simpl.
  destruct (while_ends _ _ _ _ _ Hscan) as [Hr _].
  destruct (reaches_invariant _ _
              (fun st => Forall (made_of q) (Split.records st)
                         /\ all_chars q (Split.current_record st) = true)
              (fun st st' HP _ Hb => split_body_keeps q s st st' Hs HP Hb)
              _ _ Hr) as [Hrs Hcur].
  { split; [constructor | reflexivity]. }
  unfold Split.last_record.
  destruct (Str.truthy (Str.strip (Split.current_record st))
            && (Split.paren_count st =? 0)%Z).
  - destruct (rv_values_made_of q _ (strip_keeps q _ Hcur)) as (vs & Hp & Hvs).
    rewrite Hp. simpl. eexists. split; [reflexivity|].
    apply Forall_app. split; [exact Hrs | constructor; [exact Hvs | constructor]].
  - eauto.
Qed.

(** X4.  The scanners invent no character.  Whatever class [q] the
    characters of a text all belong to, every value that
    [parse_record_values] and [parse_values_string] return for it, and
    every value of every record that the record-splitting loop returns,
    is made of characters of [q]: an escape is never turned into another
    character, and nothing is put in the place of a [NULL] but the empty
    text. *)
Theorem values_are_made_of_the_text (q : ascii -> bool) (s : string) :
  all_chars q s = true ->
  (exists vs, parse_record_values s = Ok vs /\ made_of q vs)
  /\ (exists vs, parse_values_string s = Ok vs /\ made_of q vs)
  /\ (exists rs, Split.split_records s = Ok rs /\ Forall (made_of q) rs).
Proof.
  intros Hs. repeat split.
  - apply rv_values_made_of. exact Hs.
  - apply vs_values_made_of. exact Hs.
  - apply split_records_made_of. exact Hs.
Qed.

Lemma values_are_made_of_the_text_witness :
  exists vs,
    parse_record_values "'a\'b', 12" = Ok vs
    /\ made_of (fun c => negb (Ascii.eqb c "n")) vs.
Proof.
  exact (proj1 (values_are_made_of_the_text
                  (fun c => negb (Ascii.eqb c "n")) "'a\'b', 12" eq_refl)).
Defined.

(** ** What a statement pattern captures *)

Lemma took_group (q : ascii -> bool) (g : bool) (d : ascii)
    (r : option Re.found) (grp : string) (n : nat) :
  (g = true -> q d = true) ->
  (forall grp' n', r = Some (grp', n') -> all_chars q grp' = true) ->
  Re.took g d r = Some (grp, n) -> all_chars q grp = true.
Proof.
  intros Hd Hr. destruct r as [[grp' n']|]; simpl; [|discriminate].
  intros H. injection H as <- _.
  specialize (Hr grp' n' eq_refl).
  destruct g; simpl; [rewrite (Hd eq_refl)|]; exact Hr.
Qed.

Lemma match_here_star (p : ascii -> bool) (pat : Re.pattern) (s : string)
    (g : bool) :
  Re.match_here (Re.Star p :: pat) s g
  = match s with
    | String d s' =>
        if p d then
          match Re.took g d (Re.match_here (Re.Star p :: pat) s' g) with
          | Some r => Some r
          | None => Re.match_here pat s g
          end
        else Re.match_here pat s g
    | EmptyString => Re.match_here pat s g
    end.
Proof. destruct s; reflexivity. Qed.

Lemma match_here_group (q : ascii -> bool) :
  forall pat g, group_within q pat g ->
  forall s grp n, Re.match_here pat s g = Some (grp, n) ->
  all_chars q grp = true.
Proof.
  induction pat as [|a pat IH]; intros g Hw s grp n H.
  - simpl in H. injection H as <- _. reflexivity.
  - destruct a as [c|p|p| |].
    + destruct Hw as [Ha Hw]. simpl in H.
      destruct s as [|d s]; [discriminate|].
      destruct (Re.eq_nocase c d) eqn:Hcd; [|discriminate].
      eapply took_group; [| |exact H].
      * intros Hg. apply (Ha Hg d). exact Hcd.
      * intros grp' n'. apply IH. exact Hw.
    + destruct Hw as [Ha Hw]. simpl in H.
      destruct s as [|d s]; [discriminate|].
      destruct (p d) eqn:Hpd; [|discriminate].
      eapply took_group; [| |exact H].
      * intros Hg. apply (Ha Hg d). exact Hpd.
      * intros grp' n'. apply IH. exact Hw.
    + destruct Hw as [Ha Hw].
      revert grp n H. induction s as [|d s IHs]; intros grp n H;
        rewrite match_here_star in H.
      * eapply IH; eauto.
      * destruct (p d) eqn:Hpd; [|eapply IH; eauto].
        destruct (Re.took g d (Re.match_here (Re.Star p :: pat) s g))
          as [r|] eqn:Ht; [|eapply IH; eauto].
        injection H as ->.
        eapply took_group; [| |exact Ht].
        -- intros Hg. apply (Ha Hg d). exact Hpd.
        -- intros grp' n'. apply IHs.
    + simpl in H. eapply IH; eauto.
    + simpl in H. eapply IH; eauto.
Qed.

Lemma findall_groups (q : ascii -> bool) (pat : Re.pattern) :
  group_within q pat false ->
  forall s skip, made_of q (Re.findall_from pat s skip).
Proof.
  intros Hw. induction s as [|c s IH]; intros skip; simpl; [constructor|].
  destruct skip as [|k]; [|apply IH].
  destruct (Re.match_here pat (String c s) false) as [[g n]|] eqn:Hm;
    [|apply IH].
  constructor; [|apply IH].
  eapply match_here_group; eauto.
Qed.

Lemma parse_matches_made_of (q : ascii -> bool)
    (parse : string -> result (list string)) :
  (forall s, all_chars q s = true ->
     exists vs, parse s = Ok vs /\ made_of q vs) ->
  forall matches, made_of q matches ->
  exists rs, parse_matches parse matches = Ok rs /\ Forall (made_of q) rs.
Proof.
  intros Hparse. induction matches as [|m rest IH]; intros Hm; simpl.
  - eexists. split; [reflexivity | constructor].
  - inversion Hm as [|? ? Hm1 Hm2]; subst.
    destruct (Hparse (Str.strip m) (strip_keeps q m Hm1)) as (vs & Hp & Hvs).
    rewrite Hp. simpl.
    destruct (IH Hm2) as (rs & Hr & Hrs). rewrite Hr. simpl.
    eexists. split; [reflexivity|].
    destruct vs; [exact Hrs | constructor; assumption].
Qed.

Lemma insert_pattern_group :
  group_within (Re.other_than Str.semicolon) insert_pattern false.
Proof.
  cbv [insert_pattern Re.lits Re.plus app group_within].
  repeat split; try discriminate; intros _ d Hd; exact Hd.
Qed.

(** X5.  [parse_sql_insert_statements] never returns a value that holds a
    semicolon, whatever the text it is given: its statement pattern takes
    the row text up to the first semicolon, also when that semicolon stands
    inside a quoted literal. *)
Theorem no_value_holds_a_semicolon (sql_content : string) :
  exists records,
    parse_sql_insert_statements sql_content = Ok records
    /\ Forall (made_of (Re.other_than Str.semicolon)) records.
Proof.
  unfold parse_sql_insert_statements.
  apply parse_matches_made_of.
  - apply vs_values_made_of.
  - apply findall_groups. apply insert_pattern_group.
Qed.

(** ** Statements written out are found again *)

Lemma lit_ok (c d : ascii) (pat : Re.pattern) (s : string) (g : bool)
    (grp : string) (n : nat) :
  Re.eq_nocase c d = true ->
  Re.match_here pat s g = Some (grp, n) ->
  Re.match_here (Re.Lit c :: pat) (String d s) g
  = Some (if g then String d grp else grp, S n).
Proof. intros Hc Hm. simpl. rewrite Hc, Hm. reflexivity. Qed.

Lemma one_ok (p : ascii -> bool) (d : ascii) (pat : Re.pattern) (s : string)
    (g : bool) (grp : string) (n : nat) :
  p d = true ->
  Re.match_here pat s g = Some (grp, n) ->
  Re.match_here (Re.One p :: pat) (String d s) g
  = Some (if g then String d grp else grp, S n).
Proof. intros Hc Hm. simpl. rewrite Hc, Hm. reflexivity. Qed.

(** A greedy repetition takes a whole run when the text goes on with a
    character outside of the class and the rest of the pattern matches
    there. *)
Lemma star_run (p : ascii -> bool) (pat : Re.pattern) (g : bool)
    (rest grp : string) (n : nat) :
  match rest with
  | EmptyString => True
  | String d _ => p d = false
  end ->
  Re.match_here pat rest g = Some (grp, n) ->
  forall run, all_chars p run = true ->
  Re.match_here (Re.Star p :: pat) (run ++ rest) g
  = Some (if g then (run ++ grp)%string else grp, String.length run + n).
Proof.
  intros Hrest Hm. induction run as [|c run IH]; intros Hrun.
  - change (EmptyString ++ rest)%string with rest.
    rewrite match_here_star. destruct rest as [|d rest].
    + rewrite Hm. now destruct g.
    + rewrite Hrest, Hm. now destruct g.
  - simpl in Hrun. apply andb_true_iff in Hrun. destruct Hrun as [Hc Hrun].
    change (String c run ++ rest)%string with (String c (run ++ rest)).
    rewrite match_here_star, Hc, (IH Hrun). simpl. now destruct g.
Qed.

(** A greedy repetition gives its last character back when the rest of
    the pattern matches nothing behind the run but matches from that
    character. *)
Lemma star_gives_back (p : ascii -> bool) (pat : Re.pattern) (g : bool)
    (d : ascii) (rest grp : string) (n : nat) :
  p d = true ->
  match rest with
  | EmptyString => True
  | String e _ => p e = false
  end ->
  Re.match_here pat rest g = None ->
  Re.match_here pat (String d rest) g = Some (grp, n) ->
  forall run, all_chars p run = true ->
  Re.match_here (Re.Star p :: pat) (run ++ String d rest) g
  = Some (if g then (run ++ grp)%string else grp, String.length run + n).
Proof.
  intros Hd Hrest Hnone Hm. induction run as [|c run IH]; intros Hrun.
  - change (EmptyString ++ String d rest)%string with (String d rest).
    rewrite match_here_star, Hd.
    assert (Hin : Re.match_here (Re.Star p :: pat) rest g = None).
    { rewrite match_here_star. destruct rest as [|e rest];
        [exact Hnone | now rewrite Hrest]. }
    rewrite Hin. simpl Re.took. cbv iota. rewrite Hm. now destruct g.
  - simpl in Hrun. apply andb_true_iff in Hrun. destruct Hrun as [Hc Hrun].
    change (String c run ++ String d rest)%string
      with (String c (run ++ String d rest)).
    rewrite match_here_star, Hc, (IH Hrun). simpl. now destruct g.
Qed.

Lemma group_is_the_row (row tail : string) :
  Str.truthy row = true ->
  all_chars (Re.other_than Str.semicolon) row = true ->
  Re.match_here
    (Re.Open :: Re.plus (Re.other_than Str.semicolon)
     ++ [Re.Close; Re.Lit Str.rparen; Re.Lit Str.semicolon])
    (row ++ ");" ++ tail) false
  = Some (row, String.length row + 2).
Proof.
  intros Hne Hrow. destruct row as [|r0 row]; [discriminate|].
  simpl in Hrow. apply andb_true_iff in Hrow. destruct Hrow as [Hr0 Hrow].
  change (Re.match_here
            (Re.One (Re.other_than Str.semicolon)
             :: Re.Star (Re.other_than Str.semicolon)
             :: [Re.Close; Re.Lit Str.rparen; Re.Lit Str.semicolon])
            (String r0 (row ++ String Str.rparen (String Str.semicolon tail)))
            true
          = Some (String r0 row, String.length (String r0 row) + 2)).
  rewrite one_ok with (grp := row) (n := String.length row + 2);
    [reflexivity | exact Hr0 |].
  rewrite star_gives_back with (grp := EmptyString) (n := 2);
    try reflexivity; try assumption.
  now rewrite app_empty_r.
Qed.

Lemma star_one_more (p : ascii -> bool) (c : ascii) (pat : Re.pattern)
    (s : string) (g : bool) (grp : string) (n : nat) :
  p c = true ->
  Re.match_here (Re.Star p :: pat) s g = Some (grp, n) ->
  Re.match_here (Re.Star p :: pat) (String c s) g
  = Some (if g then String c grp else grp, S n).
Proof. intros Hc Hm. rewrite match_here_star, Hc, Hm. reflexivity. Qed.

Lemma star_stop (p : ascii -> bool) (pat : Re.pattern) (s : string)
    (g : bool) (r : Re.found) :
  match s with
  | EmptyString => True
  | String d _ => p d = false
  end ->
  Re.match_here pat s g = Some r ->
  Re.match_here (Re.Star p :: pat) s g = Some r.
Proof.
  intros Hs Hm. rewrite match_here_star. destruct s as [|d s];
    [exact Hm | now rewrite Hs].
Qed.

(** Walks a pattern along the characters that stand written in the text. *)
Ltac re_walk :=
  repeat first
    [ eapply (lit_ok _ _ _ _ false); [reflexivity|]
    | eapply (one_ok _ _ _ _ false); [reflexivity|]
    | eapply (star_one_more _ _ _ _ false); [reflexivity|]
    | eapply star_stop; [first [reflexivity | exact I]|] ].

Lemma word_is_no_space (c : ascii) : Re.word c = true -> Re.space c = false.
Proof.
  destruct c as [[] [] [] [] [] [] [] []]; vm_compute; intros H;
    solve [reflexivity | discriminate H].
Qed.

Lemma statement_is_matched (table columns row tail : string) :
  statement_ok (table, columns, row) = true ->
  Re.match_here insert_pattern (statement_then table columns row tail) false
  = Some (row, String.length (statement_then table columns row "")).
Proof.
  unfold statement_ok. rewrite !andb_true_iff.
  intros [[[[[Ht Htw] Hc] Hcw] Hr] Hrw].
  destruct table as [|t0 table]; [discriminate|].
  destruct columns as [|c0 columns]; [discriminate|].
  simpl in Htw, Hcw. apply andb_true_iff in Htw, Hcw.
  destruct Htw as [Ht0 Htw]. destruct Hcw as [Hc0 Hcw].
  assert (H : exists n,
             Re.match_here insert_pattern
               (statement_then (String t0 table) (String c0 columns) row tail)
               false = Some (row, n)
             /\ n = 12 + (1 + String.length table) + 2
                    + (1 + String.length columns) + 10
                    + (String.length row + 2)).
  { eexists. split.
    - cbv [insert_pattern Re.lits Re.plus statement_then].
      cbn [append app].
      re_walk.
      eapply star_stop; [apply word_is_no_space; exact Ht0|].
      eapply (one_ok _ _ _ _ false); [exact Ht0|].
      eapply (star_run Re.word _ false) with (run := table);
        [reflexivity | | exact Htw].
      cbn [append]. re_walk.
      eapply (one_ok _ _ _ _ false); [exact Hc0|].
      eapply (star_run (Re.other_than Str.rparen) _ false)
        with (run := columns); [reflexivity | | exact Hcw].
      cbn [append]. re_walk.
      apply (group_is_the_row row tail Hr Hrw).
    - lia. }
  destruct H as (n & Hm & Hn). rewrite Hm. do 2 f_equal. rewrite Hn.
  unfold statement_then. cbn [append String.length].
  rewrite !strlen_app. cbn [append String.length]. rewrite !strlen_app.
  cbn [append String.length]. rewrite !strlen_app. simpl. lia.
Qed.

Lemma findall_skip (pat : Re.pattern) (b : string) :
  forall a, Re.findall_from pat (a ++ b) (String.length a)
            = Re.findall_from pat b 0.
Proof. induction a as [|c a IH]; [reflexivity | exact IH]. Qed.

Lemma findall_match (pat : Re.pattern) (c : ascii) (s g : string) (n : nat) :
  Re.match_here pat (String c s) false = Some (g, S n) ->
  Re.findall_from pat (String c s) 0 = g :: Re.findall_from pat s n.
Proof.
  intros H. cbn [Re.findall_from]. rewrite H.
  now replace (S n - 1) with n by lia.
Qed.

Lemma statement_then_app (table columns row tail : string) :
  statement_then table columns row tail
  = (statement_then table columns row "" ++ tail)%string.
Proof.
  unfold statement_then. cbn [append]. do 12 f_equal.
  rewrite !app_assoc_str. cbn [append]. do 3 f_equal.
  rewrite !app_assoc_str. cbn [append]. do 10 f_equal.
  rewrite !app_assoc_str. reflexivity.
Qed.

Lemma findall_statements (stmts : list (string * string * string)) :
  forallb statement_ok stmts = true ->
  Re.findall insert_pattern (statements stmts) = map row_of stmts.
Proof.
  unfold Re.findall. induction stmts as [|[[table columns] row] rest IH];
    intros Hok; [reflexivity|].
  cbn [forallb] in Hok. apply andb_true_iff in Hok. destruct Hok as [H1 Hrest].
  cbn [statements map row_of].
  pose proof (statement_is_matched table columns row
                (String Str.newline (statements rest)) H1) as Hm.
  rewrite statement_then_app in Hm |- *.
  destruct (statement_then table columns row "") as [|c0 s0] eqn:Hs;
    [discriminate Hs|].
  cbn [append String.length] in Hm |- *.
  rewrite (findall_match _ _ _ _ _ Hm), findall_skip.
  f_equal. rewrite <- (IH Hrest). reflexivity.
Qed.

(** X6.  Statements written one per line, each as
    [INSERT INTO table (columns) VALUES (row);] with a table name of word
    characters, columns without a closing parenthesis and a row text
    without a semicolon, are found again by
    [parse_sql_insert_statements]: it tokenizes exactly the row texts of
    the statements, in their order. *)
Theorem statements_are_found (stmts : list (string * string * string)) :
  forallb statement_ok stmts = true ->
  parse_sql_insert_statements (statements stmts)
  = parse_matches parse_values_string (map row_of stmts).
Proof.
  intros Hok. unfold parse_sql_insert_statements.
  now rewrite findall_statements.
Qed.

Lemma statements_are_found_witness :
  parse_sql_insert_statements
    (statements [("Cases", "a, b", "'x, (y)', 1");
                 ("Cases", "a, b", "NULL, 'it\'s'")])
  = parse_matches parse_values_string ["'x, (y)', 1"; "NULL, 'it\'s'"].
Proof.
  exact (statements_are_found
           [("Cases", "a, b", "'x, (y)', 1");
            ("Cases", "a, b", "NULL, 'it\'s'")] eq_refl).
Defined.

Lemma parse_matches_values (parse : string -> result (list string)) :
  forall rows values,
    Forall2 (fun row vs => parse (Str.strip row) = Ok vs) rows values ->
    parse_matches parse rows = Ok (kept values).
Proof.
  induction 1 as [|row vs rows values Hp _ IH]; [reflexivity|].
  cbn [parse_matches]. rewrite Hp. simpl. rewrite IH. simpl.
  destruct vs; reflexivity.
Qed.

Lemma written_rows (stmts : list (string * string * list field)) :
  forallb written_ok stmts = true ->
  forallb statement_ok (map written stmts) = true
  /\ Forall2 (fun row vs => parse_values_string (Str.strip row) = Ok vs)
       (map row_of (map written stmts)) (map values_of stmts).
Proof.
  induction stmts as [|[[table columns] fields] rest IH]; intros Hok.
  - split; [reflexivity | constructor].
  - cbn [forallb] in Hok. apply andb_true_iff in Hok.
    destruct Hok as [H1 Hrest]. destruct (IH Hrest) as [IH1 IH2].
    unfold written_ok in H1. rewrite !andb_true_iff in H1.
    destruct H1 as [[Hf Hs] Hst]. apply String.eqb_eq in Hs.
    split.
    + cbn [map forallb written]. now rewrite Hst, IH1.
    + cbn [map written row_of values_of]. constructor; [|exact IH2].
      rewrite Hs. now apply vs_reads_fields.
Qed.

(** X7.  What is written is loaded back.  For statements written one per
    line from a table name, a column list and the fields of a row, the
    fields well formed and the row without a semicolon and without a blank
    at either end, [parse_sql_insert_statements] returns the values of the
    fields of each statement, in order, leaving out the statements that
    have no value. *)
Theorem written_statements_are_read_back
    (stmts : list (string * string * list field)) :
  forallb written_ok stmts = true ->
  parse_sql_insert_statements (statements (map written stmts))
  = Ok (kept (map values_of stmts)).
Proof.
  intros Hok. destruct (written_rows stmts Hok) as [Hst Hrows].
  unfold parse_sql_insert_statements. rewrite (findall_statements _ Hst).
  now apply parse_matches_values.
Qed.

Lemma written_statements_are_read_back_witness :
  parse_sql_insert_statements
    (statements [("Cases", "a, b, c", "'Jo, Ann' ,NULL,42");
                 ("Cases", "a, b, c", "7,'it\'s (ok)',");
                 ("Cases", "a, b, c", "'',")])
  = Ok [["Jo, Ann"; ""; "42"]; ["7"; "it\'s (ok)"]; [""]].
Proof.
  exact (written_statements_are_read_back
           [("Cases", "a, b, c",
             [Quoted "Jo, Ann" " "; Bare "NULL"; Bare "42"]);
            ("Cases", "a, b, c", [Bare "7"; Quoted "it\'s (ok)" ""; Bare ""]);
            ("Cases", "a, b, c", [Quoted "" ""; Bare ""])] eq_refl).
Defined.

(** ** Row groups written out are split again *)

Lemma split_flat_run (s : string) :
  forall n r, String.length r <= n ->
  forall b, flat b r = true ->
  forall post i rs cur pc,
    drop i s = (r ++ post)%string ->
    reaches (Split.cond s) (Split.body s)
      (Split.mk i rs cur pc b false)
      (Split.mk (i + String.length r) rs (cur ++ r) pc false false).
Proof.
  induction n as [|n IH]; intros r Hn b Hflat post i rs cur pc Hdrop.
  - destruct r; [|simpl in Hn; lia]. simpl in *.
    apply negb_true_iff in Hflat. subst b.
    rewrite Nat.add_0_r, app_empty_r. apply reaches_refl.
  - destruct r as [|c r]; simpl in *.
    { apply negb_true_iff in Hflat. subst b.
      rewrite Nat.add_0_r, app_empty_r. apply reaches_refl. }
    destruct (drop_cons s i c _ Hdrop) as (Hg & Hd & Hl).
    destruct (Ascii.eqb c Str.backslash) eqn:Hbs.
    + destruct r as [|d r]; [discriminate|]. simpl in *.
      destruct (drop_cons s (i + 1) d _ Hd) as (Hg' & Hd' & Hl').
      eapply reaches_step.
      { apply split_cond_true. exact Hl. }
      { unfold Split.body. simpl. rewrite Hg. simpl. rewrite Hbs.
        reflexivity. }
      eapply reaches_step.
      { apply split_cond_true. exact Hl'. }
      { unfold Split.body. simpl. rewrite Hg'. simpl. reflexivity. }
      replace (i + S (S (String.length r)))
        with (i + 1 + 1 + String.length r) by lia.
      replace (cur ++ String c (String d r))%string
        with (Str.add_char (Str.add_char cur c) d ++ r)%string
        by now rewrite !add_char_app.
      apply IH with (post := post); [lia | assumption | assumption].
    + replace (i + S (String.length r))
        with (i + 1 + String.length r) by lia.
      replace (cur ++ String c r)%string
        with (Str.add_char cur c ++ r)%string by now rewrite add_char_app.
      destruct (Ascii.eqb c Str.quote) eqn:Hq.
      * eapply reaches_step;
          [apply split_cond_true; exact Hl | |
           apply IH with (post := post); [lia | exact Hflat | exact Hd]].
        unfold Split.body. simpl. rewrite Hg. simpl. rewrite Hbs, Hq.
        reflexivity.
      * destruct b.
        -- eapply reaches_step;
             [apply split_cond_true; exact Hl | |
              apply IH with (post := post); [lia | exact Hflat | exact Hd]].
           unfold Split.body. simpl. rewrite Hg. simpl. rewrite Hbs, Hq.
           reflexivity.
        -- destruct (Ascii.eqb c Str.lparen) eqn:Hlp; [discriminate|].
           destruct (Ascii.eqb c Str.rparen) eqn:Hrp; [discriminate|].
           simpl in Hflat.
           eapply reaches_step;
             [apply split_cond_true; exact Hl | |
              apply IH with (post := post); [lia | exact Hflat | exact Hd]].
           unfold Split.body. simpl. rewrite Hg. simpl.
           rewrite Hbs, Hq, Hlp, Hrp. reflexivity.
Qed.

Lemma split_group_run (s row post : string) (i : nat)
    (rs rs' : list (list string)) (cur : string) :
  flat false row = true ->
  drop i s = (String Str.lparen row ++ String Str.rparen post)%string ->
  Split.append_record rs row = Ok rs' ->
  reaches (Split.cond s) (Split.body s)
    (Split.mk i rs cur 0%Z false false)
    (Split.mk (i + String.length row + 2) rs' "" 0%Z false false).
Proof.
  intros Hflat Hdrop Ha. simpl in Hdrop.
  destruct (drop_cons s i _ _ Hdrop) as (Hg & Hd & Hl).
  pose proof (drop_past s (i + 1) row _ Hd) as Hclose.
  destruct (drop_cons s _ _ _ Hclose) as (Hg2 & _ & Hl2).
  eapply reaches_step.
  { apply split_cond_true. exact Hl. }
  { unfold Split.body. simpl. rewrite Hg. reflexivity. }
  eapply reaches_trans.
  { apply split_flat_run with (n := String.length row) (r := row)
      (post := String Str.rparen post); [lia | exact Hflat | exact Hd]. }
  replace (i + String.length row + 2) with (i + 1 + String.length row + 1)
    by lia.
  apply reaches_one.
  { apply split_cond_true. exact Hl2. }
  { unfold Split.body. simpl. rewrite Hg2. simpl. rewrite Ha. reflexivity. }
Qed.

Lemma last_cons_default {A : Type} (a d : A) (l : list A) :
  last (a :: l) d = last l a.
Proof.
  revert a d. induction l as [|b l IH]; intros a d; [reflexivity|].
  change (last (a :: b :: l) d) with (last (b :: l) d).
  now rewrite (IH b d), (IH b a).
Qed.

Lemma split_groups_run (s : string) :
  forall groups i rs rs' cur,
    forallb group_ok groups = true ->
    drop i s = groups_text groups -> i <= Str.len s ->
    append_records rs (map fst groups) = Ok rs' ->
    reaches (Split.cond s) (Split.body s)
      (Split.mk i rs cur 0%Z false false)
      (Split.mk (Str.len s) rs' (last (map snd groups) cur) 0%Z false false).
Proof.
  induction groups as [|[row sep] rest IH]; intros i rs rs' cur Hok Hd Hi Ha.
  - simpl in *. injection Ha as <-. apply drop_end in Hd.
    replace i with (Str.len s) by lia. apply reaches_refl.
  - cbn [forallb] in Hok. apply andb_true_iff in Hok.
    destruct Hok as [Hg Hrest]. unfold group_ok in Hg. simpl in Hg.
    apply andb_true_iff in Hg. destruct Hg as [Hrow Hsep].
    cbn [map fst append_records] in Ha.
    destruct (Split.append_record rs row) as [rs1| |] eqn:Ha1;
      simpl in Ha; try discriminate Ha.
    cbn [groups_text] in Hd.
    pose proof (split_group_run s row _ i rs rs1 cur Hrow Hd Ha1) as Hr1.
    assert (Hd1 : drop (i + String.length row + 2) s
                  = (sep ++ groups_text rest)%string).
    { simpl in Hd. destruct (drop_cons s i _ _ Hd) as (_ & Hd' & _).
      pose proof (drop_past s _ row _ Hd') as Hd''.
      destruct (drop_cons s _ _ _ Hd'') as (_ & Hd3 & _).
      replace (i + String.length row + 2)
        with (i + 1 + String.length row + 1) by lia.
      exact Hd3. }
    pose proof (split_flat_run s (String.length sep) sep (le_n _) false Hsep
                  _ _ rs1 "" 0%Z Hd1) as Hr2.
    pose proof (drop_past s _ sep _ Hd1) as Hd2.
    assert (Hi2 : i + String.length row + 2 + String.length sep <= Str.len s).
    { pose proof (drop_len s i) as Hlen. rewrite Hd in Hlen. simpl in Hlen.
      rewrite strlen_app in Hlen. simpl in Hlen. rewrite strlen_app in Hlen.
      unfold Str.len. lia. }
    pose proof (IH _ rs1 rs' ("" ++ sep)%string Hrest Hd2 Hi2 Ha) as Hr3.
    cbn [map snd]. rewrite last_cons_default.
    eapply reaches_trans; [exact Hr1|].
    eapply reaches_trans; [exact Hr2 | exact Hr3].
Qed.

Lemma append_records_total (texts : list string) :
  forall rs, exists rs', append_records rs texts = Ok rs'.
Proof.
  induction texts as [|t texts IH]; intros rs; simpl; [eauto|].
  destruct (append_record_total rs t) as (rs1 & Ha & _). rewrite Ha. simpl.
  apply IH.
Qed.

Lemma split_batch (lead : string) (groups : list (string * string)) :
  flat false lead = true -> forallb group_ok groups = true ->
  Split.split_records (batch lead groups)
  = (rs <- append_records [] (map fst groups) ;;
     Split.append_record rs (trailing lead groups)).
Proof.
  intros Hlead Hok. set (s := batch lead groups).
  destruct (append_records_total (map fst groups) []) as [rs Ha].
  rewrite Ha. simpl.
  assert (Hd0 : drop 0 s = (lead ++ groups_text groups)%string) by reflexivity.
  pose proof (split_flat_run s (String.length lead) lead (le_n _) false Hlead
                _ 0 [] "" 0%Z Hd0) as Hr1.
  pose proof (drop_past s 0 lead _ Hd0) as Hd1.
  assert (Hi : 0 + String.length lead <= Str.len s).
  { unfold s, batch, Str.len. rewrite strlen_app. lia. }
  pose proof (split_groups_run s groups _ [] rs ("" ++ lead)%string Hok Hd1 Hi
                Ha) as Hr2.
  pose proof (reaches_trans _ _ _ _ _ Hr1 Hr2) as Hr.
  unfold Split.split_records, Split.init.
  rewrite (split_reaches_scan s _ _ Hr) by (simpl; lia).
  unfold Split.scan. rewrite while_done.
  2:{ unfold Split.cond. simpl. now rewrite Nat.ltb_irrefl. }
  simpl. unfold Split.last_record, Split.append_record, trailing. simpl.
  now rewrite andb_true_r.
Qed.

(** X8.  The record-splitting loop of [parse_sql_values] cuts a [VALUES]
    section at its row groups.  For a section made of a leading text and
    of groups [(row)], each followed by a separating text, where no text
    has a parenthesis outside of its quoted literals, the loop hands the
    rows, in order, to [parse_record_values] (a blank row is passed over),
    and then the text behind the last group, when that is not blank, as
    one more row. *)
Theorem row_groups_are_split (lead : string)
    (groups : list (string * string)) :
  flat false lead = true -> forallb group_ok groups = true ->
  Split.split_records (batch lead groups)
  = (rs <- append_records [] (map fst groups) ;;
     Split.append_record rs (trailing lead groups)).
Proof. apply split_batch. Qed.

Lemma row_groups_are_split_witness :
  Split.split_records "  (1,'a)b'), ( ),(NULL,2) "
  = Ok [["1"; "a)b"]; [""; "2"]].
Proof.
  exact (row_groups_are_split "  " [("1,'a)b'", ", "); (" ", ",");
                                    ("NULL,2", " ")] eq_refl eq_refl).
Defined.

(** X9.  The statement terminator becomes a row.  When the text behind
    the last row group of a section is a semicolon, blanks around it or
    not, the record-splitting loop returns the rows of the groups and one
    more row, made of the single value [;]; when that text is blank it
    returns the rows of the groups and nothing else. *)
Theorem terminator_becomes_a_row (lead : string)
    (groups : list (string * string)) :
  flat false lead = true -> forallb group_ok groups = true ->
  exists rs,
    append_records [] (map fst groups) = Ok rs
    /\ (Str.strip (trailing lead groups) = ";" ->
        Split.split_records (batch lead groups) = Ok (rs ++ [[";"]]))
    /\ (Str.truthy (Str.strip (trailing lead groups)) = false ->
        Split.split_records (batch lead groups) = Ok rs).
Proof.
  intros Hlead Hok. rewrite (split_batch lead groups Hlead Hok).
  destruct (append_records_total (map fst groups) []) as [rs Ha].
  exists rs. rewrite Ha. simpl. unfold Split.append_record.
  repeat split.
  - intros Hs. rewrite Hs. reflexivity.
  - intros Hs. rewrite Hs. reflexivity.
Qed.

Lemma terminator_becomes_a_row_witness :
  Split.split_records ("(1,2)," ++ nl ++ "(3,4);" ++ nl)
  = Ok ([["1"; "2"]; ["3"; "4"]] ++ [[";"]]).
Proof.
  destruct (terminator_becomes_a_row ""
              [("1,2", ("," ++ nl)%string); ("3,4", (";" ++ nl)%string)]
              eq_refl eq_refl) as (rs & Ha & Hsemi & _).
  injection Ha as <-. exact (Hsemi eq_refl).
Defined.

Lemma blank_is_ordinary (c : ascii) : Str.in_blank c = true -> ordinary c = true.
Proof.
  destruct c as [[] [] [] [] [] [] [] []]; vm_compute; intros H;
    solve [reflexivity | discriminate H].
Qed.

Lemma flat_ordinary (r : string) :
  forall tok, all_chars ordinary tok = true ->
  flat false (tok ++ r) = flat false r.
Proof.
  induction tok as [|c tok IH]; intros H; [reflexivity|].
  simpl in H. apply andb_true_iff in H. destruct H as [Hc Htok].
  destruct (ordinary_tests c Hc) as (Hbs & Hq & _ & Hlp & Hrp).
  cbn [append flat]. rewrite Hbs, Hq, Hlp, Hrp. simpl. apply IH, Htok.
Qed.

Lemma flat_literal (r : string) :
  forall n body, String.length body <= n -> literal_body body = true ->
  flat true (body ++ String Str.quote r) = flat false r.
Proof.
  induction n as [|n IH]; intros body Hn Hlit.
  - destruct body; [reflexivity | simpl in Hn; lia].
  - destruct body as [|c body]; [reflexivity|].
    cbn [append flat]. simpl in Hlit, Hn.
    destruct (Ascii.eqb c Str.backslash).
    + destruct body as [|d body]; [discriminate|].
      cbn [append]. simpl in Hn. apply IH; [lia | exact Hlit].
    + destruct (Ascii.eqb c Str.quote); [discriminate|].
      apply IH; [lia | exact Hlit].
Qed.

Lemma flat_field (f : field) (r : string) :
  field_ok f = true -> flat false (field_text f ++ r) = flat false r.
Proof.
  destruct f as [body blanks|tok]; simpl; intros H.
  - apply andb_true_iff in H. destruct H as [Hlit Hbl].
    rewrite app_assoc_str. cbn [append].
    rewrite (flat_literal _ (String.length body) body (le_n _) Hlit).
    apply flat_ordinary.
    apply all_chars_impl with (p := Str.in_blank);
      [apply blank_is_ordinary | exact Hbl].
  - now apply flat_ordinary.
Qed.

Lemma flat_render (fields : list field) :
  forallb field_ok fields = true -> flat false (render fields) = true.
Proof.
  induction fields as [|f rest IH]; intros H; [reflexivity|].
  cbn [forallb] in H. apply andb_true_iff in H. destruct H as [Hf Hrest].
  destruct rest as [|f2 rest].
  - cbn [render]. rewrite <- (app_empty_r (field_text f)).
    now rewrite flat_field.
  - change (render (f :: f2 :: rest))
      with (field_text f ++ String Str.comma (render (f2 :: rest)))%string.
    rewrite flat_field by exact Hf. cbn [flat]. simpl. apply IH, Hrest.
Qed.

Lemma written_groups (groups : list (list field * string)) :
  forallb written_group_ok groups = true ->
  forallb group_ok (map written_group groups) = true
  /\ forall rs,
       append_records rs (map fst (map written_group groups))
       = Ok (rs ++ map (fun g => field_values (fst g)) groups).
Proof.
  induction groups as [|[fields sep] rest IH]; intros Hok.
  - split; [reflexivity|]. intros rs. simpl. now rewrite app_nil_r.
  - cbn [forallb] in Hok. apply andb_true_iff in Hok.
    destruct Hok as [H1 Hrest]. destruct (IH Hrest) as [IH1 IH2].
    unfold written_group_ok in H1. simpl in H1. rewrite !andb_true_iff in H1.
    destruct H1 as [[[Hf Hne] Hs] Hsep]. apply String.eqb_eq in Hs.
    split.
    + cbn [map forallb]. rewrite IH1. unfold group_ok, written_group. simpl.
      now rewrite (flat_render fields Hf), Hsep.
    + intros rs. cbn [map fst written_group append_records].
      unfold Split.append_record. rewrite Hs, Hne.
      rewrite (rv_reads_fields fields Hf). simpl.
      rewrite IH2, <- app_assoc. reflexivity.
Qed.

(** X10.  Row groups written from fields are read back.  For a section
    whose groups are rows written field by field (fields well formed, the
    row not empty and without a blank at either end), with flat texts
    between the groups and a blank text behind the last one, the
    record-splitting loop returns the values of the fields of each group,
    in order: as many rows as the section has groups. *)
Theorem written_groups_are_read_back (lead : string)
    (groups : list (list field * string)) :
  flat false lead = true ->
  forallb written_group_ok groups = true ->
  Str.truthy
    (Str.strip (trailing lead (map written_group groups))) = false ->
  Split.split_records (batch lead (map written_group groups))
  = Ok (map (fun g => field_values (fst g)) groups).
Proof.
  intros Hlead Hok Htail. destruct (written_groups groups Hok) as [Hg Ha].
  rewrite (split_batch lead _ Hlead Hg), (Ha []). simpl.
  unfold Split.append_record. now rewrite Htail.
Qed.

Lemma written_groups_are_read_back_witness :
  Split.split_records ("('x'),('y, z')," ++ nl ++ "(NULL ,'it\'s (ok)',3)"
                       ++ nl)
  = Ok [["x"]; ["y, z"]; [""; "it\'s (ok)"; "3"]].
Proof.
  exact (written_groups_are_read_back ""
           [([Quoted "x" ""], ","); ([Quoted "y, z" ""], ("," ++ nl)%string);
            ([Bare "NULL "; Quoted "it\'s (ok)" ""; Bare "3"], nl)]
           eq_refl eq_refl eq_refl).
Defined.

(** ** A text without line feed *)

Lemma eq_nocase_newline (d : ascii) :
  Re.eq_nocase Str.newline d = true -> Re.other_than Str.newline d = false.
Proof.
  destruct d as [[] [] [] [] [] [] [] []]; vm_compute; intros H;
    solve [reflexivity | discriminate H].
Qed.

Lemma took_none (g : bool) (d : ascii) : Re.took g d None = None.
Proof. reflexivity. Qed.

Lemma match_needs_newline :
  forall pat, In (Re.Lit Str.newline) pat ->
  forall s g, all_chars (Re.other_than Str.newline) s = true ->
  Re.match_here pat s g = None.
Proof.
  induction pat as [|a pat IH]; intros Hin s g Hs; [destruct Hin|].
  destruct a as [c|p|p| |].
  - destruct s as [|d s]; [reflexivity|].
    simpl in Hs. apply andb_true_iff in Hs. destruct Hs as [Hd Hs].
    cbn [Re.match_here]. destruct (Re.eq_nocase c d) eqn:Hcd; [|reflexivity].
    destruct Hin as [Heq|Hin].
    + injection Heq as ->. apply eq_nocase_newline in Hcd. congruence.
    + now rewrite (IH Hin s g Hs).
  - destruct Hin as [Heq|Hin]; [discriminate|].
    destruct s as [|d s]; [reflexivity|].
    simpl in Hs. apply andb_true_iff in Hs. destruct Hs as [Hd Hs].
    cbn [Re.match_here]. destruct (p d); [|reflexivity].
    now rewrite (IH Hin s g Hs).
  - destruct Hin as [Heq|Hin]; [discriminate|].
    induction s as [|d s IHs]; rewrite match_here_star.
    + now apply IH.
    + pose proof Hs as Hs'. simpl in Hs'. apply andb_true_iff in Hs'.
      destruct (p d); [|now apply IH].
      rewrite (IHs (proj2 Hs')), took_none. now apply IH.
  - destruct Hin as [Heq|Hin]; [discriminate|]. cbn [Re.match_here].
    now apply IH.
  - destruct Hin as [Heq|Hin]; [discriminate|]. cbn [Re.match_here].
    now apply IH.
Qed.

Lemma findall_needs_newline (pat : Re.pattern) :
  In (Re.Lit Str.newline) pat ->
  forall s skip, all_chars (Re.other_than Str.newline) s = true ->
  Re.findall_from pat s skip = [].
Proof.
  intros Hin. induction s as [|c s IH]; intros skip Hs; [reflexivity|].
  pose proof Hs as Hs'. simpl in Hs'. apply andb_true_iff in Hs'.
  cbn [Re.findall_from]. destruct skip; [|apply IH, Hs'].
  rewrite (match_needs_newline pat Hin _ false Hs). apply IH, Hs'.
Qed.

Lemma search_needs_newline (pat : Re.pattern) :
  In (Re.Lit Str.newline) pat ->
  forall s, all_chars (Re.other_than Str.newline) s = true ->
  Re.search pat s = None.
Proof.
  intros Hin. induction s as [|c s IH]; intros Hs.
  - cbn [Re.search]. now rewrite (match_needs_newline pat Hin _ false Hs).
  - pose proof Hs as Hs'. simpl in Hs'. apply andb_true_iff in Hs'.
    cbn [Re.search]. rewrite (match_needs_newline pat Hin _ false Hs).
    apply IH, Hs'.
Qed.

Lemma patterns_need_newline :
  In (Re.Lit Str.newline) insert_pattern_nl
  /\ In (Re.Lit Str.newline) values_pattern.
Proof.
  split; cbv [insert_pattern_nl values_pattern Re.lits Re.plus app In];
    repeat (try (left; reflexivity); right).
Qed.

(** X11.  A text in which no line feed occurs gives [parse_sql_values]
    nothing: whatever statements it holds, the parser logs
    "No VALUES section found in SQL" and returns no row. *)
Theorem no_line_feed_no_rows (sql_content : string) :
  all_chars (Re.other_than Str.newline) sql_content = true ->
  parse_sql_values sql_content = Ok ([(ERROR, No_values_section)], []).
Proof.
  intros Hs. unfold parse_sql_values, Re.findall.
  rewrite (findall_needs_newline _ (proj1 patterns_need_newline) _ _ Hs).
  now rewrite (search_needs_newline _ (proj2 patterns_need_newline) _ Hs).
Qed.

Lemma no_line_feed_no_rows_witness :
  parse_sql_values
    "INSERT INTO Cases (a, b) VALUES (1, 'x'); INSERT INTO Cases (a, b) VALUES (2, 'y');"
  = Ok ([(ERROR, No_values_section)], []).
Proof.
  exact (no_line_feed_no_rows
           "INSERT INTO Cases (a, b) VALUES (1, 'x'); INSERT INTO Cases (a, b) VALUES (2, 'y');"
           eq_refl).
Defined.

(** ** Statements with a line feed behind VALUES *)

(** One step of such a walk. *)
Ltac re_step :=
  first
    [ eapply (lit_ok _ _ _ _ false); [reflexivity|]
    | eapply (one_ok _ _ _ _ false); [reflexivity|]
    | eapply (star_one_more _ _ _ _ false); [reflexivity|]
    | eapply star_stop; [first [reflexivity | exact I]|] ].

(** [\s*\n]: the repetition takes the line feed, and gives it back. *)
Lemma line_feed_is_given_back (pat : Re.pattern) (e : ascii)
    (rest grp : string) (n : nat) :
  Re.space e = false ->
  Re.eq_nocase Str.newline e = false ->
  Re.match_here pat (String e rest) false = Some (grp, n) ->
  Re.match_here (Re.Star Re.space :: Re.Lit Str.newline :: pat)
    (String Str.newline (String e rest)) false
  = Some (grp, S n).
Proof.
  intros He Hne Hm.
  apply (star_gives_back Re.space (Re.Lit Str.newline :: pat) false
           Str.newline (String e rest) grp (S n) eq_refl He)
    with (run := EmptyString).
  - cbn [Re.match_here]. now rewrite Hne.
  - now apply (lit_ok _ _ _ _ false).
  - reflexivity.
Qed.

Lemma statement_nl_is_matched (table columns row tail : string) :
  statement_ok (table, columns, row) = true ->
  Re.match_here insert_pattern_nl (statement_nl_then table columns row tail)
    false
  = Some (row, String.length (statement_nl_then table columns row "")).
Proof.
  unfold statement_ok. rewrite !andb_true_iff.
  intros [[[[[Ht Htw] Hc] Hcw] Hr] Hrw].
  destruct table as [|t0 table]; [discriminate|].
  destruct columns as [|c0 columns]; [discriminate|].
  simpl in Htw, Hcw. apply andb_true_iff in Htw, Hcw.
  destruct Htw as [Ht0 Htw]. destruct Hcw as [Hc0 Hcw].
  assert (H : exists n,
             Re.match_here insert_pattern_nl
               (statement_nl_then (String t0 table) (String c0 columns) row
                  tail)
               false = Some (row, n)
             /\ n = 12 + (1 + String.length table) + 2
                    + (1 + String.length columns) + 8
                    + (0 + (1 + (1 + (String.length row + 2))))).
  { eexists. split.
    - cbv [insert_pattern_nl Re.lits Re.plus statement_nl_then].
      cbn [append app].
      re_walk.
      eapply star_stop; [apply word_is_no_space; exact Ht0|].
      eapply (one_ok _ _ _ _ false); [exact Ht0|].
      eapply (star_run Re.word _ false) with (run := table);
        [reflexivity | | exact Htw].
      cbn [append]. re_walk.
      eapply (one_ok _ _ _ _ false); [exact Hc0|].
      eapply (star_run (Re.other_than Str.rparen) _ false)
        with (run := columns); [reflexivity | | exact Hcw].
      cbn [append]. do 9 re_step.
      eapply line_feed_is_given_back; [reflexivity | reflexivity |].
      re_walk.
      apply (group_is_the_row row tail Hr Hrw).
    - lia. }
  destruct H as (n & Hm & Hn). rewrite Hm. do 2 f_equal. rewrite Hn.
  unfold statement_nl_then. cbn [append String.length].
  rewrite !strlen_app. cbn [append String.length]. rewrite !strlen_app.
  cbn [append String.length]. rewrite !strlen_app. simpl. lia.
Qed.

Lemma statement_nl_then_app (table columns row tail : string) :
  statement_nl_then table columns row tail
  = (statement_nl_then table columns row "" ++ tail)%string.
Proof.
  unfold statement_nl_then. cbn [append]. do 12 f_equal.
  rewrite !app_assoc_str. cbn [append]. do 2 f_equal.
  rewrite !app_assoc_str. cbn [append]. do 10 f_equal.
  rewrite !app_assoc_str. reflexivity.
Qed.

Lemma findall_statements_nl (stmts : list (string * string * string)) :
  forallb statement_ok stmts = true ->
  Re.findall insert_pattern_nl (statements_nl stmts) = map row_of stmts.
Proof.
  unfold Re.findall. induction stmts as [|[[table columns] row] rest IH];
    intros Hok; [reflexivity|].
  cbn [forallb] in Hok. apply andb_true_iff in Hok. destruct Hok as [H1 Hrest].
  cbn [statements_nl map row_of].
  pose proof (statement_nl_is_matched table columns row
                (String Str.newline (statements_nl rest)) H1) as Hm.
  rewrite statement_nl_then_app in Hm |- *.
  destruct (statement_nl_then table columns row "") as [|c0 s0] eqn:Hs;
    [discriminate Hs|].
  cbn [append String.length] in Hm |- *.
  rewrite (findall_match _ _ _ _ _ Hm), findall_skip.
  f_equal. rewrite <- (IH Hrest). reflexivity.
Qed.

(** X12.  A text that holds statements
    [INSERT INTO table (columns) VALUES], line feed, [(row);] is read by
    [parse_sql_values] statement by statement: each row text, whatever it
    holds but a semicolon, goes to [parse_record_values] as one record, and
    the loop that splits row groups is not run.  A statement of several
    row groups, closed by a semicolon, comes back as a single record. *)
Theorem statements_with_line_feed_are_single_rows
    (stmt : string * string * string)
    (stmts : list (string * string * string)) :
  forallb statement_ok (stmt :: stmts) = true ->
  parse_sql_values (statements_nl (stmt :: stmts))
  = individual (map row_of (stmt :: stmts)).
Proof.
  intros Hok. unfold parse_sql_values.
  rewrite (findall_statements_nl _ Hok). reflexivity.
Qed.

Lemma statements_with_line_feed_are_single_rows_witness :
  parse_sql_values
    (statements_nl [("Cases", "a", "1)," ++ nl ++ "(2")%string])
  = Ok ([(INFO, Parsed_individual 1)], [["1)"; "(2"]]).
Proof.
  exact (statements_with_line_feed_are_single_rows
           ("Cases", "a", "1)," ++ nl ++ "(2")%string [] eq_refl).
Defined.

Lemma written_rows_nl (stmts : list (string * string * list field)) :
  forallb written_ok stmts = true ->
  forallb statement_ok (map written stmts) = true
  /\ Forall2 (fun row vs => parse_record_values (Str.strip row) = Ok vs)
       (map row_of (map written stmts)) (map values_of stmts).
Proof.
  induction stmts as [|[[table columns] fields] rest IH]; intros Hok.
  - split; [reflexivity | constructor].
  - cbn [forallb] in Hok. apply andb_true_iff in Hok.
    destruct Hok as [H1 Hrest]. destruct (IH Hrest) as [IH1 IH2].
    unfold written_ok in H1. rewrite !andb_true_iff in H1.
    destruct H1 as [[Hf Hs] Hst]. apply String.eqb_eq in Hs.
    split.
    + cbn [map forallb written]. now rewrite Hst, IH1.
    + cbn [map written row_of values_of]. constructor; [|exact IH2].
      rewrite Hs. now apply rv_reads_fields.
Qed.

(** X13.  What is written with a line feed behind VALUES is loaded back
    by [parse_sql_values]: for statements written from a table name, a
    column list and the fields of one row, it returns the values of the
    fields of each statement, in order, leaving out the statements that
    have no value, and logs their number at level [INFO]. *)
Theorem written_statements_with_line_feed_are_read_back
    (stmt : string * string * list field)
    (stmts : list (string * string * list field)) :
  forallb written_ok (stmt :: stmts) = true ->
  parse_sql_values (statements_nl (map written (stmt :: stmts)))
  = Ok ([(INFO, Parsed_individual
                  (List.length (kept (map values_of (stmt :: stmts)))))],
        kept (map values_of (stmt :: stmts))).
Proof.
  intros Hok. destruct (written_rows_nl _ Hok) as [Hst Hrows].
  unfold parse_sql_values. rewrite (findall_statements_nl _ Hst).
  change (map row_of (map written (stmt :: stmts)))
    with (row_of (written stmt) :: map row_of (map written stmts)) in *.
  cbv iota.
  now rewrite (parse_matches_values parse_record_values _ _ Hrows).
Qed.

Lemma written_statements_with_line_feed_are_read_back_witness :
  parse_sql_values
    ("INSERT INTO Cases (a, b) VALUES" ++ nl ++ "('x, (y)',1);" ++ nl
     ++ "INSERT INTO Cases (a, b) VALUES" ++ nl ++ "(NULL ,'it\'s');" ++ nl)
  = Ok ([(INFO, Parsed_individual 2)], [["x, (y)"; "1"]; [""; "it\'s"]]).
Proof.
  exact (written_statements_with_line_feed_are_read_back
           ("Cases", "a, b", [Quoted "x, (y)" ""; Bare "1"])
           [("Cases", "a, b", [Bare "NULL "; Quoted "it\'s" ""])] eq_refl).
Defined.

(** ** The count a loader returns *)

Lemma row_reports_app (l1 l2 : log) :
  row_reports (l1 ++ l2) = row_reports l1 + row_reports l2.
Proof. unfold row_reports. now rewrite filter_app, length_app. Qed.

Section Accounting.

Variable Store : Type.
Variable execute : Store -> list string -> Store * option exn.

Lemma except_clauses_reports (record : list string) (e : exn)
    (st : loader_state Store) :
  is_Exception e = true ->
  exists st',
    except_clauses record e st = Ok st'
    /\ store st' = store st
    /\ inserted_count st' = inserted_count st
    /\ row_reports (logged st') = row_reports (logged st) + 1.
Proof.
  intros He. destruct e as [|msg|msg|]; simpl in *; try discriminate.
  - eexists. split; [reflexivity|]. simpl. now rewrite row_reports_app.
  - destruct (Str.contains "UNIQUE constraint failed" msg);
      (eexists; split; [reflexivity|]; simpl; now rewrite row_reports_app).
  - eexists. split; [reflexivity|]. simpl. now rewrite row_reports_app.
Qed.

Lemma write_accounts (record params : list string) (st : loader_state Store) :
  (forall s p e, snd (execute s p) = Some e -> is_Exception e = true) ->
  exists st',
    write execute record params st = Ok st'
    /\ inserted_count st' + row_reports (logged st')
       = inserted_count st + row_reports (logged st) + 1.
Proof.
  intros Hexc. unfold write.
  pose proof (Hexc (store st) params) as He.
  destruct (execute (store st) params) as [s' [e|]]; simpl in *.
  - destruct (except_clauses_reports record e
                (mk_loader s' (inserted_count st) (logged st)) (He e eq_refl))
      as (st' & Hx & _ & Hc & Hr).
    exists st'. split; [exact Hx|]. simpl in Hc, Hr. lia.
  - eexists. split; [reflexivity|]. simpl. lia.
Qed.

Lemma for_records_accounts
    (row : loader_state Store -> list string -> result (loader_state Store)) :
  (forall st record, exists st',
      row st record = Ok st'
      /\ inserted_count st' + row_reports (logged st')
         = inserted_count st + row_reports (logged st) + 1) ->
  forall records st, exists st',
    for_records row records st = Ok st'
    /\ inserted_count st' + row_reports (logged st')
       = inserted_count st + row_reports (logged st) + List.length records.
Proof.
  intros Hrow. induction records as [|record rest IH]; intros st; simpl.
  - exists st. split; [reflexivity | lia].
  - destruct (Hrow st record) as (st1 & H1 & Ha1). rewrite H1. simpl.
    destruct (IH st1) as (st' & H' & Ha'). exists st'.
    split; [exact H' | lia].
Qed.

Lemma write_refused (record params : list string) (st : loader_state Store)
    (msg : string) :
  execute (store st) params = (store st, Some (OtherException msg)) ->
  exists st',
    write execute record params st = Ok st'
    /\ store st' = store st
    /\ inserted_count st' = inserted_count st
    /\ row_reports (logged st') = row_reports (logged st) + 1.
Proof.
  intros He. unfold write. rewrite He.
  eexists. split; [reflexivity|]. simpl. now rewrite row_reports_app.
Qed.

End Accounting.

Lemma emitted_app (l1 l2 : log) :
  emitted (l1 ++ l2) = emitted l1 ++ emitted l2.
Proof. apply filter_app. Qed.

Lemma skipped_duplicates_app (l1 l2 : log) :
  skipped_duplicates (l1 ++ l2)
  = skipped_duplicates l1 + skipped_duplicates l2.
Proof. unfold skipped_duplicates. now rewrite filter_app, length_app. Qed.

Lemma write_three_ways (Store : Type)
    (execute : Store -> list string -> Store * option exn)
    (record params : list string) (st : loader_state Store) :
  (forall s p e, snd (execute s p) = Some e -> is_Exception e = true) ->
  exists st',
    write execute record params st = Ok st'
    /\ accounted 1 st st'
    /\ (skipped_duplicates (logged st') = skipped_duplicates (logged st) + 1
        <-> exists e, snd (execute (store st) params) = Some e
                      /\ is_duplicate e = true).
Proof.
  intros Hexc. unfold write, accounted.
  pose proof (Hexc (store st) params) as He.
  destruct (execute (store st) params) as [s' [e|]]; cbn [snd] in *.
  - specialize (He e eq_refl).
    destruct e as [|msg|msg|]; cbn [except_clauses] in *; try discriminate.
    + eexists. split; [reflexivity|]. cbn [inserted_count logged].
      rewrite !emitted_app, !row_reports_app, !skipped_duplicates_app.
      split; [cbn; lia|]. split.
      * cbn. lia.
      * intros (e & Heq & Hdup). injection Heq as <-. discriminate Hdup.
    + destruct (Str.contains "UNIQUE constraint failed" msg) eqn:Hu;
        (eexists; split; [reflexivity|]; cbn [inserted_count logged];
         rewrite !emitted_app, !row_reports_app, !skipped_duplicates_app;
         split; [cbn; lia|]; split).
      * intros _. exists (IntegrityError msg). split; [reflexivity|].
        exact Hu.
      * intros _. cbn. lia.
      * cbn. lia.
      * intros (e & Heq & Hdup). injection Heq as <-. cbn in Hdup.
        congruence.
    + eexists. split; [reflexivity|]. cbn [inserted_count logged].
      rewrite !emitted_app, !row_reports_app, !skipped_duplicates_app.
      split; [cbn; lia|]. split.
      * cbn. lia.
      * intros (e & Heq & Hdup). injection Heq as <-. discriminate Hdup.
  - eexists. split; [reflexivity|]. cbn [inserted_count logged].
    split; [lia|]. split; [lia|].
    intros (e & Heq & _). discriminate Heq.
Qed.

Lemma for_records_three_ways (Store : Type)
    (row : loader_state Store -> list string -> result (loader_state Store)) :
  (forall st record, exists st',
      row st record = Ok st' /\ accounted 1 st st') ->
  forall records st, exists st',
    for_records row records st = Ok st'
    /\ accounted (List.length records) st st'.
Proof.
  intros Hrow. unfold accounted in *.
  induction records as [|record rest IH]; intros st; simpl.
  - exists st. split; [reflexivity|]. split; [lia | reflexivity].
  - destruct (Hrow st record) as (st1 & H1 & Ha1 & Hb1). rewrite H1. simpl.
    destruct (IH st1) as (st' & H' & Ha' & Hb'). exists st'.
    split; [exact H'|]. split; [lia | congruence].
Qed.

(** X14.  Every row of a bulk load is counted, or reported by a record of
    the log, or skipped as a duplicate, and only one of the three.  The
    store raising only errors derived from [Exception], the count the loop
    ends with, the number of records "Integrity error" and "Error
    inserting record" that the log holds at the level of the scripts
    ([INFO]), and the number of calls "Skipping duplicate case", have
    grown, together, by exactly the number of rows.  The call for a
    duplicate is a [logger.debug], which makes no record at that level:
    the log holds no record of a skip.  A row is skipped that way exactly
    when its write raised an [IntegrityError] holding "UNIQUE constraint
    failed"; the rows that are neither counted nor found in the log are
    these.  So it is in [load_sql_file] and in [load_sample_cases_500]. *)
Theorem every_row_is_counted_reported_or_skipped (Store : Type)
    (execute : Store -> list string -> Store * option exn) :
  (forall s p e, snd (execute s p) = Some e -> is_Exception e = true) ->
  (forall records st,
      (exists st',
          for_records (load_sql_file_row execute) records st = Ok st'
          /\ accounted (List.length records) st st')
      /\ (exists st',
          for_records (load_sample_cases_500_row execute) records st = Ok st'
          /\ accounted (List.length records) st st'))
  /\ (forall st record, exists st',
        load_sql_file_row execute st record = Ok st'
        /\ (skipped_duplicates (logged st')
            = skipped_duplicates (logged st) + 1
            <-> exists e,
                  snd (execute (store st) (row_params 58 record)) = Some e
                  /\ is_duplicate e = true))
  /\ (forall st record, exists st',
        load_sample_cases_500_row execute st record = Ok st'
        /\ (skipped_duplicates (logged st')
            = skipped_duplicates (logged st) + 1
            <-> exists e,
                  snd (execute (store st) (row_params 57 record)) = Some e
                  /\ is_duplicate e = true)).
Proof.
  intros Hexc. split; [|split].
  - intros records st. split.
    + apply for_records_three_ways. intros st0 record.
      rewrite load_sql_file_row_writes.
      destruct (write_three_ways Store execute
                  (record ++ repeat null_sentinel (58 - List.length record))
                  (row_params 58 record) st0 Hexc) as (st' & Hw & Ha & _).
      eauto.
    + apply for_records_three_ways. intros st0 record.
      rewrite load_sample_cases_500_row_writes.
      destruct (write_three_ways Store execute (row_params 57 record)
                  (row_params 57 record) st0 Hexc) as (st' & Hw & Ha & _).
      eauto.
  - intros st record. rewrite load_sql_file_row_writes.
    destruct (write_three_ways Store execute
                (record ++ repeat null_sentinel (58 - List.length record))
                (row_params 58 record) st Hexc) as (st' & Hw & _ & Hd).
    eauto.
  - intros st record. rewrite load_sample_cases_500_row_writes.
    destruct (write_three_ways Store execute (row_params 57 record)
                (row_params 57 record) st Hexc) as (st' & Hw & _ & Hd).
    eauto.
Qed.

Lemma every_row_is_counted_reported_or_skipped_witness :
  exists st',
    for_records (load_sql_file_row toy_execute)
      [["C-1"]; ["C-1"]; []; ["C-2"]] (mk_loader [] 0 []) = Ok st'
    /\ accounted 4 (mk_loader [] 0 []) st'.
Proof.
  exact (proj1 (proj1 (every_row_is_counted_reported_or_skipped _ toy_execute
                         toy_execute_raises)
                  [["C-1"]; ["C-1"]; []; ["C-2"]] (mk_loader [] 0 []))).
Defined.

Example toy_load_accounts :
  exists st',
    for_records (load_sql_file_row toy_execute)
      [["C-1"]; ["C-1"]; []; ["C-2"]] (mk_loader [] 0 []) = Ok st'
    /\ inserted_count st' = 2
    /\ row_reports (emitted (logged st')) = 1
    /\ skipped_duplicates (logged st') = 1
    /\ skipped_duplicates (emitted (logged st')) = 0.
Proof. eexists. repeat split. Qed.

(** ** The statement of [load_sql_file] *)

Lemma toy_sql_execute_checks (s : list (list string))
    (insert_sql : insert_statement) (params : list string) :
  List.length (named_columns insert_sql) <> placeholders insert_sql ->
  exists msg,
    toy_sql_execute s insert_sql params = (s, Some (OtherException msg)).
Proof.
  intros Hne. unfold toy_sql_execute.
  apply Nat.eqb_neq in Hne. rewrite Hne. simpl. eauto.
Qed.

Lemma rows_are_refused (Store : Type)
    (sql_execute : Store -> insert_statement -> list string
                   -> Store * option exn) :
  (forall s insert_sql params,
      List.length (named_columns insert_sql) <> placeholders insert_sql ->
      exists msg,
        sql_execute s insert_sql params = (s, Some (OtherException msg))) ->
  forall records st, exists st',
    for_records
      (load_sql_file_row (with_statement sql_execute load_sql_file_insert))
      records st = Ok st'
    /\ store st' = store st
    /\ inserted_count st' = inserted_count st
    /\ row_reports (logged st')
       = row_reports (logged st) + List.length records.
Proof.
  intros Hsql.
  induction records as [|record rest IH]; intros st; simpl.
  - exists st. repeat split. lia.
  - rewrite load_sql_file_row_writes.
    destruct (Hsql (store st) load_sql_file_insert (row_params 58 record))
      as [msg Hmsg]; [vm_compute; discriminate|].
    destruct (write_refused Store
                (with_statement sql_execute load_sql_file_insert)
                (record ++ repeat null_sentinel (58 - List.length record))
                (row_params 58 record) st msg Hmsg)
      as (st1 & Hw & Hs1 & Hc1 & Hr1).
    rewrite Hw. simpl.
    destruct (IH st1) as (st' & H' & Hs' & Hc' & Hr').
    exists st'. split; [exact H'|].
    split; [congruence|]. split; [congruence | lia].
Qed.

(** X15.  [load_sql_file] names 57 columns and binds 58 values.  A store
    that refuses a statement whose placeholders are not as many as its
    columns, as SQLite does ("58 values for 57 columns", an
    [OperationalError]), refuses every row of [load_sql_file]: whatever the
    file, the loader returns 0 and leaves the store as it was, and every
    row of records leaves one report in the log and none is counted.  The
    statement of [load_sample_cases_500] names 57 columns and binds 57
    values. *)
Theorem load_sql_file_writes_no_row (Store : Type)
    (sql_execute : Store -> insert_statement -> list string
                   -> Store * option exn) :
  (forall s insert_sql params,
      List.length (named_columns insert_sql) <> placeholders insert_sql ->
      exists msg,
        sql_execute s insert_sql params = (s, Some (OtherException msg))) ->
  List.length (named_columns load_sql_file_insert) = 57
  /\ placeholders load_sql_file_insert = 58
  /\ List.length (named_columns load_sample_cases_500_insert)
     = placeholders load_sample_cases_500_insert
  /\ (forall file s, exists r,
        load_sql_file (with_statement sql_execute load_sql_file_insert)
          file s = Ok r
        /\ returned r = 0
        /\ left_store r = s)
  /\ (forall records st, exists st',
        for_records
          (load_sql_file_row
             (with_statement sql_execute load_sql_file_insert))
          records st = Ok st'
        /\ inserted_count st' = inserted_count st
        /\ row_reports (logged st')
           = row_reports (logged st) + List.length records).
Proof.
  intros Hsql. do 3 (split; [reflexivity|]). split.
  - intros [| |sql_content] s; try (eexists; repeat split; reflexivity).
    unfold load_sql_file.
    destruct (parse_sql_values_total sql_content) as [[l records] Hp].
    rewrite Hp. cbn [bind snd fst].
    destruct records as [|record rest];
      [eexists; repeat split; reflexivity|].
    destruct (rows_are_refused Store sql_execute Hsql (record :: rest)
                (mk_loader s 0 [])) as (st & Hst & Hs & Hc & _).
    rewrite Hst. cbn [bind]. eexists. split; [reflexivity|].
    split; [exact Hc | exact Hs].
  - intros records st.
    destruct (rows_are_refused Store sql_execute Hsql records st)
      as (st' & Hst & _ & Hc & Hr).
    eauto.
Qed.

Lemma load_sql_file_writes_no_row_witness :
  exists r,
    load_sql_file (with_statement toy_sql_execute load_sql_file_insert)
      (Content
         (statements_nl [("Cases", "Case_Number, Subject_Description",
                          "'C-1', 'fan'")]))
      [] = Ok r
    /\ returned r = 0
    /\ left_store r = [].
Proof.
  exact (proj1 (proj2 (proj2 (proj2
           (load_sql_file_writes_no_row _ toy_sql_execute
              toy_sql_execute_checks))))
           (Content
              (statements_nl [("Cases", "Case_Number, Subject_Description",
                               "'C-1', 'fan'")]))
           []).
Defined.

(** ** The batches of the ingestion *)

Lemma prepare_maps (cases : list Ingest.case) :
  forall documents metadatas ids,
    Ingest.prepare cases documents metadatas ids
    = (documents ++ map Ingest.combined_text cases,
       metadatas ++ map Ingest.metadata_of cases,
       ids ++ map Ingest.id_of cases).
Proof.
  induction cases as [|c rest IH]; intros documents metadatas ids; simpl.
  - now rewrite !app_nil_r.
  - rewrite IH, <- !app_assoc. reflexivity.
Qed.

Lemma slice_map {A B : Type} (f : A -> B) (xs : list A) (i j : nat) :
  Ingest.slice (map f xs) i j = map f (Ingest.slice xs i j).
Proof. unfold Ingest.slice. now rewrite skipn_map, firstn_map. Qed.

Lemma slice_length {A : Type} (xs : list A) (i step : nat) :
  List.length (Ingest.slice xs i (i + step))
  = Nat.min step (List.length xs - i).
Proof.
  unfold Ingest.slice. rewrite length_firstn, length_skipn.
  now replace (i + step - i) with step by lia.
Qed.

Lemma range_from_steps (step : nat) :
  forall fuel start stop,
    Ingest.range_from fuel start stop step
    = map (fun k => start + k * step)
        (seq 0 (List.length (Ingest.range_from fuel start stop step))).
Proof.
  induction fuel as [|fuel IH]; intros start stop; [reflexivity|].
  cbn [Ingest.range_from]. destruct (start <? stop); [|reflexivity].
  cbn [List.length seq map]. f_equal; [lia|].
  rewrite <- seq_shift, map_map. rewrite (IH (start + step) stop) at 1.
  apply map_ext. intros k. lia.
Qed.

(** The fuel of [range] is enough: the values stop at [stop], not
    before. *)
Lemma range_from_length (step : nat) :
  1 <= step ->
  forall fuel start stop,
    stop - start <= fuel ->
    stop <= start + List.length (Ingest.range_from fuel start stop step) * step
    /\ (1 <= List.length (Ingest.range_from fuel start stop step) ->
        start + (List.length (Ingest.range_from fuel start stop step) - 1)
                * step < stop).
Proof.
  intros Hstep. induction fuel as [|fuel IH]; intros start stop Hfuel.
  - cbn [Ingest.range_from List.length]. split; lia.
  - cbn [Ingest.range_from]. destruct (start <? stop) eqn:Hlt.
    + apply Nat.ltb_lt in Hlt. cbn [List.length].
      destruct (IH (start + step) stop ltac:(lia)) as [H1 H2].
      set (L := List.length (Ingest.range_from fuel (start + step) stop step))
        in *.
      split; [lia|]. intros _. destruct L as [|L]; [lia|].
      specialize (H2 ltac:(lia)). simpl in H2 |- *. nia.
    + apply Nat.ltb_ge in Hlt. cbn [List.length]. split; lia.
Qed.

Lemma range_total (stop step : nat) :
  1 <= step ->
  Z.of_nat (List.length (Ingest.range 0 stop step))
  = ((Z.of_nat stop - 1) / Z.of_nat step + 1)%Z.
Proof.
  intros Hstep. unfold Ingest.range.
  destruct (range_from_length step Hstep (stop - 0) 0 stop (le_n _))
    as [H1 H2].
  set (L := List.length (Ingest.range_from (stop - 0) 0 stop step)) in *.
  assert (Hq : ((Z.of_nat stop - 1) / Z.of_nat step = Z.of_nat L - 1)%Z).
  { symmetry.
    apply (Z.div_unique_pos _ _ _
             (Z.of_nat stop - 1 - (Z.of_nat L - 1) * Z.of_nat step)%Z).
    - destruct L as [|L]; [nia|]. specialize (H2 ltac:(lia)). nia.
    - lia. }
  lia.
Qed.

Lemma slices_cover {A : Type} (xs : list A) (step : nat) :
  1 <= step ->
  forall fuel start,
    List.length xs - start <= fuel ->
    concat (map (fun i => Ingest.slice xs i (i + step))
              (Ingest.range_from fuel start (List.length xs) step))
    = skipn start xs.
Proof.
  intros Hstep. induction fuel as [|fuel IH]; intros start Hfuel.
  - cbn. symmetry. apply skipn_all2. lia.
  - cbn [Ingest.range_from]. destruct (start <? List.length xs) eqn:Hlt.
    + cbn [map concat]. rewrite IH by lia.
      unfold Ingest.slice. replace (start + step - start) with step by lia.
      rewrite Nat.add_comm, <- skipn_skipn. apply firstn_skipn.
    + apply Nat.ltb_ge in Hlt. cbn. symmetry. now apply skipn_all2.
Qed.

Lemma removelast_map {A B : Type} (f : A -> B) (l : list A) :
  removelast (map f l) = map f (removelast l).
Proof.
  induction l as [|a [|b l] IH]; [reflexivity | reflexivity |].
  change (f a :: removelast (map f (b :: l)) = f a :: map f (removelast (b :: l))).
  now rewrite IH.
Qed.

Lemma removelast_seq (n start : nat) :
  removelast (seq start n) = seq start (n - 1).
Proof.
  revert start. induction n as [|[|n] IH]; intros start;
    [reflexivity | reflexivity |].
  change (removelast (seq start (S (S n))))
    with (start :: removelast (seq (S start) (S n))).
  rewrite IH. simpl. now rewrite Nat.sub_0_r.
Qed.

(** The cases of the batches, batch by batch. *)
Lemma chunks_of_cases (cases : list Ingest.case) (step : nat) :
  1 <= step ->
  let chunks :=
    map (fun i => Ingest.slice cases i (i + step))
      (Ingest.range 0 (List.length cases) step) in
  concat chunks = cases
  /\ Forall (fun cs => 1 <= List.length cs <= step) chunks
  /\ Forall (fun cs => List.length cs = step) (removelast chunks).
Proof.
  intros Hstep chunks. subst chunks. unfold Ingest.range.
  destruct (range_from_length step Hstep (List.length cases - 0) 0
              (List.length cases) (le_n _)) as [H1 H2].
  split; [|split].
  - now rewrite slices_cover by lia.
  - rewrite range_from_steps. apply Forall_map, Forall_map, Forall_forall.
    intros k Hk. apply in_seq in Hk. rewrite slice_length.
    specialize (H2 ltac:(lia)). nia.
  - rewrite range_from_steps, removelast_map, removelast_map, removelast_seq.
    apply Forall_map, Forall_map, Forall_forall.
    intros k Hk. apply in_seq in Hk. rewrite slice_length.
    specialize (H2 ltac:(lia)). nia.
Qed.

Lemma batch_at_cases (cases : list Ingest.case) (k : nat) :
  Ingest.batch_at (map Ingest.combined_text cases)
    (map Ingest.metadata_of cases) (map Ingest.id_of cases)
    (k * Ingest.batch_size)
  = Ingest.add_of
      (List.length (Ingest.range 0 (List.length cases) Ingest.batch_size))
      k
      (Ingest.slice cases (k * Ingest.batch_size)
         (k * Ingest.batch_size + Ingest.batch_size)).
Proof.
  unfold Ingest.batch_at, Ingest.add_of. rewrite !slice_map, length_map.
  f_equal.
  - rewrite Nat2Z.inj_mul, Z.div_mul; [reflexivity | discriminate].
  - symmetry. apply range_total. unfold Ingest.batch_size. lia.
Qed.

Lemma ingest_chunks (cases : list Ingest.case) :
  Ingest.ingest cases
  = map (fun k =>
           Ingest.add_of
             (List.length
                (Ingest.range 0 (List.length cases) Ingest.batch_size))
             k
             (Ingest.slice cases (k * Ingest.batch_size)
                (k * Ingest.batch_size + Ingest.batch_size)))
      (seq 0 (List.length
                (Ingest.range 0 (List.length cases) Ingest.batch_size))).
Proof.
  unfold Ingest.ingest. rewrite prepare_maps. cbn [app].
  unfold Ingest.batches. rewrite length_map.
  unfold Ingest.range at 1. rewrite range_from_steps, map_map.
  fold (Ingest.range 0 (List.length cases) Ingest.batch_size).
  apply map_ext. intros k. apply batch_at_cases.
Qed.

Lemma combine_seq_map {A B : Type} (f : nat -> A -> B) (g : nat -> A) :
  forall n start,
    map (fun p => f (fst p) (snd p))
      (combine (seq start n) (map g (seq start n)))
    = map (fun k => f k (g k)) (seq start n).
Proof.
  induction n as [|n IH]; intros start; [reflexivity|].
  cbn [seq map combine fst snd]. now rewrite IH.
Qed.

(** X16.  The ingestion hands every case to the collection exactly once,
    in the order of the query, in batches of 100 with a last batch of 1 to
    100: the cases fall into consecutive chunks, and the calls
    [collection.add] are, chunk by chunk, the documents, the metadata and
    the ids of the cases of the chunk, so that the three lists of a call
    speak of the same cases.  The record logged behind call [k + 1] says
    "Processed batch k+1/n" with [n] the number of calls; without cases
    there is no call. *)
Theorem batches_cover_the_cases (cases : list Ingest.case) :
  exists chunks : list (list Ingest.case),
    concat chunks = cases
    /\ Forall (fun cs => 1 <= List.length cs <= Ingest.batch_size) chunks
    /\ Forall (fun cs => List.length cs = Ingest.batch_size)
         (removelast chunks)
    /\ Ingest.ingest cases
       = map (fun p => Ingest.add_of (List.length chunks) (fst p) (snd p))
           (combine (seq 0 (List.length chunks)) chunks).
Proof.
  assert (Hstep : 1 <= Ingest.batch_size) by (unfold Ingest.batch_size; lia).
  destruct (chunks_of_cases cases Ingest.batch_size Hstep)
    as (Hcat & Hlen & Hfull).
  eexists. split; [exact Hcat|]. split; [exact Hlen|].
  split; [exact Hfull|].
  rewrite ingest_chunks, length_map.
  set (n := List.length
              (Ingest.range 0 (List.length cases) Ingest.batch_size)).
  unfold Ingest.range at 1. rewrite range_from_steps, map_map.
  fold (Ingest.range 0 (List.length cases) Ingest.batch_size). fold n.
  symmetry.
  apply (combine_seq_map (Ingest.add_of n)
           (fun k => Ingest.slice cases (0 + k * Ingest.batch_size)
                       (0 + k * Ingest.batch_size + Ingest.batch_size))).
Qed.

Lemma ingest_ids (cases : list Ingest.case) :
  concat (map Ingest.batch_ids (Ingest.ingest cases))
  = map Ingest.id_of cases.
Proof.
  assert (Hstep : 1 <= Ingest.batch_size) by (unfold Ingest.batch_size; lia).
  rewrite ingest_chunks, map_map. cbn [Ingest.add_of Ingest.batch_ids].
  rewrite <- (map_map (fun k => Ingest.slice cases (k * Ingest.batch_size)
                                  (k * Ingest.batch_size + Ingest.batch_size))
                (map Ingest.id_of)).
  rewrite <- concat_map. f_equal.
  rewrite <- (proj1 (chunks_of_cases cases Ingest.batch_size Hstep)) at 2.
  f_equal. unfold Ingest.range. rewrite range_from_steps at 2.
  now rewrite map_map.
Qed.

Lemma id_of_inj (c1 c2 : Ingest.case) :
  Ingest.id_of c1 = Ingest.id_of c2 ->
  Ingest.case_number c1 = Ingest.case_number c2.
Proof. unfold Ingest.id_of. simpl. intros H. now injection H. Qed.

Lemma ids_nodup (cases : list Ingest.case) :
  NoDup (map Ingest.case_number cases) -> NoDup (map Ingest.id_of cases).
Proof.
  induction cases as [|c rest IH]; intros Hnd; [constructor|].
  cbn [map] in *. inversion Hnd as [|x l Hnotin Hrest]; subst.
  constructor; [|now apply IH].
  intros Hin. apply in_map_iff in Hin. destruct Hin as (c' & Hid & Hc').
  apply Hnotin. apply in_map_iff. exists c'.
  split; [now apply id_of_inj | exact Hc'].
Qed.

(** X17.  No id goes to the collection twice: when the case numbers of the
    cases are pairwise distinct, the ids of all the calls [collection.add]
    taken together are pairwise distinct, within a batch and from one batch
    to another. *)
Theorem ids_are_handed_over_once (cases : list Ingest.case) :
  NoDup (map Ingest.case_number cases) ->
  NoDup (concat (map Ingest.batch_ids (Ingest.ingest cases))).
Proof. intros Hnd. rewrite ingest_ids. now apply ids_nodup. Qed.

Lemma ids_are_handed_over_once_witness :
  NoDup (concat (map Ingest.batch_ids
                   (Ingest.ingest
                      [Ingest.mk_case "C-1" (Some "fan") None None None None
                         None None None None;
                       Ingest.mk_case "C-2" None None None (Some "") None
                         None None None None]))).
Proof.
  apply ids_are_handed_over_once. simpl.
  constructor;
    [intros [H|[]]; discriminate H | constructor; [intros [] | constructor]].
Defined.

(** ** The schema scripts *)

Lemma same_table_sym (a b : string) :
  Schema.same_table a b = Schema.same_table b a.
Proof. apply String.eqb_sym. Qed.

Lemma same_table_trans (a b c : string) :
  Schema.same_table a b = true -> Schema.same_table b c = true ->
  Schema.same_table a c = true.
Proof.
  unfold Schema.same_table. rewrite !String.eqb_eq. congruence.
Qed.

Lemma has_app (c1 c2 : Schema.catalog) (t : string) :
  Schema.has (c1 ++ c2) t = Schema.has c1 t || Schema.has c2 t.
Proof. apply existsb_app. Qed.

Lemma has_after_drop (c : Schema.catalog) (d t : string) :
  Schema.has (filter (fun x => negb (Schema.same_table d x)) c) t
  = Schema.has c t && negb (Schema.same_table t d).
Proof.
  induction c as [|x c IH]; [reflexivity|].
  cbn [filter]. unfold Schema.has in *. cbn [existsb].
  destruct (Schema.same_table d x) eqn:Hdx; cbn [negb existsb].
  - rewrite IH. destruct (Schema.same_table t x) eqn:Htx; [|reflexivity].
    rewrite same_table_sym in Hdx.
    rewrite (same_table_trans t x d Htx Hdx). cbn.
    now rewrite andb_false_r.
  - rewrite IH. destruct (Schema.same_table t x) eqn:Htx; [|reflexivity].
    destruct (Schema.same_table t d) eqn:Htd; [|reflexivity].
    rewrite same_table_sym in Htd.
    now rewrite (same_table_trans d t x Htd Htx) in Hdx.
Qed.

Lemma run_app (s1 s2 : list Schema.ddl) :
  forall c, Schema.run (s1 ++ s2) c
            = (c' <- Schema.run s1 c ;; Schema.run s2 c').
Proof.
  induction s1 as [|stmt s1 IH]; intros c; [reflexivity|].
  cbn [app Schema.run]. destruct (Schema.execute c stmt); cbn; auto.
Qed.

Lemma run_drops (ds : list string) :
  forall c, exists c',
    Schema.run (map Schema.Drop_table_if_exists ds) c = Ok c'
    /\ forall t, Schema.has c' t
                 = Schema.has c t && negb (existsb (Schema.same_table t) ds).
Proof.
  induction ds as [|d ds IH]; intros c.
  - exists c. split; [reflexivity|]. intros t. cbn. now rewrite andb_true_r.
  - cbn [map Schema.run Schema.execute bind].
    destruct (IH (filter (fun x => negb (Schema.same_table d x)) c))
      as (c' & Hrun & Hhas).
    exists c'. split; [exact Hrun|]. intros t.
    rewrite Hhas, has_after_drop. cbn [existsb].
    now rewrite negb_orb, andb_assoc.
Qed.

Lemma run_creates (cs : list string) :
  forall c,
    Schema.distinct cs = true ->
    (forall t, In t cs -> Schema.has c t = false) ->
    Schema.run (map Schema.Create_table cs) c = Ok (c ++ cs).
Proof.
  induction cs as [|t cs IH]; intros c Hd Hc.
  - cbn. now rewrite app_nil_r.
  - cbn [Schema.distinct] in Hd. apply andb_true_iff in Hd.
    destruct Hd as [Ht Hd]. apply negb_true_iff in Ht.
    cbn [map Schema.run Schema.execute].
    rewrite (Hc t (or_introl eq_refl)). cbn [bind].
    rewrite IH; [now rewrite <- app_assoc | exact Hd |].
    intros t' Hin. rewrite has_app, (Hc t' (or_intror Hin)).
    unfold Schema.has. cbn [existsb orb].
    rewrite orb_false_r.
    destruct (Schema.same_table t' t) eqn:Hsame; [|reflexivity].
    assert (Hex : existsb (Schema.same_table t) cs = true).
    { apply existsb_exists. exists t'. split; [exact Hin|].
      now rewrite same_table_sym. }
    congruence.
Qed.

Lemma run_create_refused (cs : list string) (t : string) (rest : list string) :
  forall c,
    Schema.distinct cs = true ->
    (forall t', In t' cs -> Schema.has c t' = false) ->
    Schema.has c t = true ->
    Schema.run (map Schema.Create_table (cs ++ t :: rest)) c
    = Raise (Schema.already_exists t).
Proof.
  intros c Hd Hc Ht. rewrite map_app, run_app, (run_creates cs c Hd Hc).
  cbn [bind map Schema.run Schema.execute].
  now rewrite has_app, Ht.
Qed.

Lemma complete_schema_refused (c : Schema.catalog) :
  Schema.has c "Knowledge_Articles" = true ->
  Schema.create_complete_schema c
  = Raise (Schema.already_exists "Knowledge_Articles").
Proof.
  intros Hka. unfold Schema.create_complete_schema. rewrite run_app.
  destruct (run_drops Schema.tables_to_drop c) as (c1 & Hrun & Hhas).
  rewrite Hrun. cbn [bind].
  apply (run_create_refused
           ["Cases"; "Case_Feed"; "EmailMessage"; "Feed_Comment";
            "Product_Hierarchy"; "Service_Delivery_task"]
           "Knowledge_Articles" []).
  - reflexivity.
  - intros t Hin. rewrite Hhas.
    repeat (destruct Hin as [<-|Hin]; [apply andb_false_r|]).
    destruct Hin.
  - rewrite Hhas, Hka. reflexivity.
Qed.

Lemma complete_schema_created (c : Schema.catalog) :
  Schema.has c "Knowledge_Articles" = false ->
  exists c',
    Schema.create_complete_schema c = Ok (c' ++ Schema.tables_to_create)
    /\ forall t, Schema.has c' t
                 = Schema.has c t
                   && negb (existsb (Schema.same_table t)
                              Schema.tables_to_drop).
Proof.
  intros Hka. unfold Schema.create_complete_schema. rewrite run_app.
  destruct (run_drops Schema.tables_to_drop c) as (c1 & Hrun & Hhas).
  rewrite Hrun. cbn [bind]. exists c1. split; [|exact Hhas].
  apply run_creates; [reflexivity|].
  intros t Hin. rewrite Hhas.
  repeat (destruct Hin as [<-|Hin];
          [first [apply andb_false_r | now rewrite Hka]|]).
  destruct Hin.
Qed.

(** X18.  [create_complete_schema] drops nine tables and creates seven,
    and [Knowledge_Articles], which it creates, is not among the tables it
    drops.  On a database without that table the script succeeds and
    leaves the seven tables; on a database that has it, and so on every
    database the script itself has made, the script raises "table
    Knowledge_Articles already exists": it cannot be run twice on one
    database file. *)
Theorem complete_schema_is_created_once (c : Schema.catalog) :
  (Schema.has c "Knowledge_Articles" = true ->
   Schema.create_complete_schema c
   = Raise (Schema.already_exists "Knowledge_Articles"))
  /\ (Schema.has c "Knowledge_Articles" = false ->
      exists c',
        Schema.create_complete_schema c = Ok c'
        /\ forallb (Schema.has c') Schema.tables_to_create = true
        /\ Schema.create_complete_schema c'
           = Raise (Schema.already_exists "Knowledge_Articles")).
Proof.
  split; [apply complete_schema_refused|].
  intros Hka. destruct (complete_schema_created c Hka) as (c1 & Hrun & Hhas).
  eexists. split; [exact Hrun|].
  assert (Hall : forall t, In t Schema.tables_to_create ->
                   Schema.has (c1 ++ Schema.tables_to_create) t = true).
  { intros t Hin. rewrite has_app.
    repeat (destruct Hin as [<-|Hin]; [apply orb_true_r|]).
    destruct Hin. }
  split.
  - apply forallb_forall. exact Hall.
  - apply complete_schema_refused, Hall. cbn. tauto.
Qed.

Lemma complete_schema_is_created_once_witness :
  exists c',
    Schema.create_complete_schema ["Notes"; "cases"] = Ok c'
    /\ forallb (Schema.has c') Schema.tables_to_create = true
    /\ Schema.create_complete_schema c'
       = Raise (Schema.already_exists "Knowledge_Articles").
Proof.
  exact (proj2 (complete_schema_is_created_once ["Notes"; "cases"]) eq_refl).
Defined.

(** X19.  [create_cases_table] can be run on every database, any number
    of times: it returns, the table [Cases] is there afterwards, and every
    other table is there exactly when it was there before. *)
Theorem cases_table_is_created_anew (c : Schema.catalog) :
  exists c',
    Schema.create_cases_table c = Ok c'
    /\ Schema.has c' "Cases" = true
    /\ (forall t, Schema.same_table t "Cases" = false ->
                  Schema.has c' t = Schema.has c t).
Proof.
  assert (Hrun : forall c0,
            Schema.create_cases_table c0
            = Ok (filter (fun x => negb (Schema.same_table "Cases" x)) c0
                  ++ ["Cases"])).
  { intros c0. unfold Schema.create_cases_table.
    cbn [Schema.run Schema.execute bind].
    now rewrite has_after_drop, andb_false_r. }
  eexists. split; [apply Hrun|]. split.
  - rewrite has_app. apply orb_true_r.
  - intros t Ht. rewrite has_app, has_after_drop, Ht.
    unfold Schema.has at 2. cbn [existsb]. rewrite Ht. cbn.
    now rewrite andb_true_r, orb_false_r.
Qed.

(** ** The sample rows of the related tables *)

Lemma flat_map_pairs {A B : Type} (f : A -> list B) (l : list A) :
  (forall x, List.length (f x) = 2) ->
  List.length (flat_map f l) = 2 * List.length l.
Proof.
  intros Hf. induction l as [|x l IH]; [reflexivity|].
  cbn [flat_map]. rewrite length_app, Hf, IH. cbn [List.length]. lia.
Qed.

Lemma Forall_flat_map_each {A B : Type} (P : B -> Prop) (f : A -> list B)
    (l : list A) :
  (forall x, Forall P (f x)) -> Forall P (flat_map f l).
Proof.
  intros Hf. induction l as [|x l IH]; [constructor|].
  cbn [flat_map]. apply Forall_app. split; [apply Hf | exact IH].
Qed.

Lemma enumerate_length {A : Type} (xs : list A) :
  List.length (Related.enumerate xs) = List.length xs.
Proof.
  unfold Related.enumerate. rewrite length_combine, length_seq. lia.
Qed.

Lemma firstn_In_more {A : Type} (x : A) :
  forall (l : list A) (n m : nat),
    n <= m -> In x (firstn n l) -> In x (firstn m l).
Proof.
  induction l as [|a l IH]; intros n m Hnm Hin.
  - destruct n; destruct Hin.
  - destruct n as [|n]; [destruct Hin|].
    destruct m as [|m]; [lia|].
    cbn [firstn] in *. destruct Hin as [Heq|Hin]; [now left|].
    right. apply (IH n m); [lia | exact Hin].
Qed.

(** X20.  The four [executemany] calls of [create_sample_related_data]
    are well formed whatever the cases: each statement has as many
    placeholders as columns, and every tuple handed over with it has as
    many values.  With [n >= 1] cases fetched, the calls carry
    [2 * min(10, n)] feed entries, [min(5, n)] mails,
    [2 * min(8, n)] comments and the 4 articles, and these are the numbers
    logged.  With no case fetched nothing is handed over at all, the four
    articles included. *)
Theorem sample_rows_fit_their_statements
    (c : option string * option string)
    (cases : list (option string * option string)) :
  Related.create_sample_related_data [] = Related.No_cases_found
  /\ exists calls,
       Related.create_sample_related_data (c :: cases)
       = Related.Created calls
           (map (fun call => List.length (snd call)) calls)
       /\ Forall
            (fun call =>
               List.length (named_columns (fst call)) = placeholders (fst call)
               /\ Forall
                    (fun row => List.length row = placeholders (fst call))
                    (snd call))
            calls
       /\ map (fun call => List.length (snd call)) calls
          = [2 * Nat.min 10 (S (List.length cases));
             Nat.min 5 (S (List.length cases));
             2 * Nat.min 8 (S (List.length cases));
             4].
Proof.
  split; [reflexivity|].
  exists [(Related.case_feed_insert, Related.feed_entries (c :: cases));
          (Related.email_message_insert, Related.email_entries (c :: cases));
          (Related.feed_comment_insert, Related.comment_entries (c :: cases));
          (Related.knowledge_articles_insert, Related.knowledge_articles)].
  split; [reflexivity|]. split.
  - repeat constructor; cbn [fst snd].
    + apply Forall_flat_map_each. intros x. repeat constructor.
    + apply Forall_map, Forall_forall. intros x _. reflexivity.
    + apply Forall_flat_map_each. intros x. repeat constructor.
  - cbn [map snd]. unfold Related.feed_entries, Related.email_entries,
      Related.comment_entries.
    rewrite !flat_map_pairs by reflexivity.
    rewrite length_map, enumerate_length, !length_firstn.
    reflexivity.
Qed.

Lemma sample_rows_fit_their_statements_example :
  Related.create_sample_related_data [(Some "C-7", None)]
  = Related.Created
      [(Related.case_feed_insert,
        Related.feed_entries_of (Some "C-7") None);
       (Related.email_message_insert,
        [Related.email_entry_of 0 (Some "C-7") None]);
       (Related.feed_comment_insert,
        Related.comment_entries_of (Some "C-7") None);
       (Related.knowledge_articles_insert, Related.knowledge_articles)]
      [2; 1; 2; 4]
  /\ Related.column Related.email_message_insert "Email_Id"
       (Related.email_entry_of 0 (Some "C-7") None)
     = Some (Related.Text "EMNone000").
Proof. split; reflexivity. Qed.

(** X21.  Every sample comment points to a sample feed entry of the same
    call: the [Feed_Item_Id] of each tuple of [comment_entries] is the
    [Case_Feed_Internal_Id] of a tuple of [feed_entries], and the two have
    the same [Parent_Id].  The comments are made for the first 8 cases and
    the feed entries for the first 10. *)
Theorem sample_comments_point_to_sample_feeds
    (cases : list (option string * option string)) :
  Forall
    (fun comment =>
       exists feed item parent,
         In feed (Related.feed_entries cases)
         /\ Related.column Related.feed_comment_insert "Feed_Item_Id" comment
            = Some item
         /\ Related.column Related.case_feed_insert "Case_Feed_Internal_Id"
              feed = Some item
         /\ Related.column Related.feed_comment_insert "Parent_Id" comment
            = Some parent
         /\ Related.column Related.case_feed_insert "Parent_Id" feed
            = Some parent)
    (Related.comment_entries cases).
Proof.
  apply Forall_forall. intros comment Hin.
  unfold Related.comment_entries in Hin. apply in_flat_map in Hin.
  destruct Hin as ([case_num case_id] & Hc & Hin).
  apply (firstn_In_more _ _ 8 10 ltac:(lia)) in Hc.
  exists (hd [] (Related.feed_entries_of case_num case_id)).
  exists (Related.Text ("CFI" ++ Related.fmt case_id ++ "001")).
  exists (Related.of_option case_id).
  split.
  - unfold Related.feed_entries. apply in_flat_map.
    exists (case_num, case_id). split; [exact Hc | now left].
  - destruct Hin as [<-|[<-|[]]]; repeat split; reflexivity.
Qed.

(** ** From the file to the store *)

Section WholeLoaders.

Variable Store : Type.
Variable execute : Store -> list string -> Store * option exn.
Hypothesis raises_exceptions :
  forall s p e, snd (execute s p) = Some e -> is_Exception e = true.

Lemma rows_are_written
    (row : loader_state Store -> list string -> result (loader_state Store))
    (seen : list string -> list string) (N : nat) :
  (forall st record,
      row st record = write execute (seen record) (row_params N record) st) ->
  forall records s, exists st,
    for_records row records (mk_loader s 0 []) = Ok st
    /\ store st = writes_of execute N records s
    /\ inserted_count st <= List.length records.
Proof.
  intros Hrow records s.
  destruct (for_records_attempts_all Store execute row (row_params N))
    with (records := records) (st := mk_loader s 0 []) as (st & Hst & Hs).
  { intros st0 record. rewrite Hrow.
    destruct (write_outcome Store execute (seen record)
                (row_params N record) st0 raises_exceptions)
      as (st' & Hw & Hs' & _).
    eauto. }
  destruct (for_records_accounts Store row) with (records := records)
    (st := mk_loader s 0 []) as (st2 & Hst2 & Hacc).
  { intros st0 record. rewrite Hrow.
    now apply write_accounts. }
  rewrite Hst in Hst2. injection Hst2 as <-.
  exists st. split; [exact Hst|]. split; [exact Hs|].
  cbn in Hacc. lia.
Qed.

Lemma load_sql_file_loads (sql_content : string) (l : log)
    (records : list (list string)) (s : Store) :
  parse_sql_values sql_content = Ok (l, records) ->
  exists r,
    load_sql_file execute (Content sql_content) s = Ok r
    /\ left_store r = writes_of execute 58 records s
    /\ returned r <= List.length records.
Proof.
  intros Hp. unfold load_sql_file. rewrite Hp. cbn [bind snd fst].
  destruct records as [|record rest].
  - eexists. split; [reflexivity|]. split; [reflexivity | apply le_n].
  - destruct (rows_are_written (load_sql_file_row execute)
                (fun record =>
                   record ++ repeat null_sentinel (58 - List.length record))
                58 (load_sql_file_row_writes execute) (record :: rest) s)
      as (st & Hst & Hs & Hc).
    rewrite Hst. cbn [bind]. eexists. split; [reflexivity|].
    split; [exact Hs | exact Hc].
Qed.

Lemma load_sample_cases_500_loads (sql_content : string)
    (records : list (list string)) (s : Store) :
  parse_sql_insert_statements sql_content = Ok records ->
  exists r,
    load_sample_cases_500 execute (Content sql_content) s = Ok r
    /\ left_store r = writes_of execute 57 records s
    /\ returned r <= List.length records.
Proof.
  intros Hp. unfold load_sample_cases_500. rewrite Hp. cbn [bind].
  destruct records as [|record rest].
  - eexists. split; [reflexivity|]. split; [reflexivity | apply le_n].
  - destruct (rows_are_written (load_sample_cases_500_row execute)
                (row_params 57) 57 (load_sample_cases_500_row_writes execute)
                (record :: rest) s)
      as (st & Hst & Hs & Hc).
    rewrite Hst. cbn [bind]. eexists. split; [reflexivity|].
    split; [exact Hs | exact Hc].
Qed.

End WholeLoaders.

(** X22.  From the file to the store, [load_sample_cases_500].  For a
    file of statements written one per line from a table name, a column
    list and the well-formed fields of a row, and a store that raises only
    errors derived from [Exception], the loader returns, and the store it
    leaves is the store after one write per statement that has a value, in
    the order of the file, the parameters of each write being the values
    of the statement's fields fitted to 57.  The count returned is at most
    the number of these statements. *)
Theorem written_file_is_loaded (Store : Type)
    (execute : Store -> list string -> Store * option exn)
    (stmts : list (string * string * list field)) (s : Store) :
  (forall s p e, snd (execute s p) = Some e -> is_Exception e = true) ->
  forallb written_ok stmts = true ->
  exists r,
    load_sample_cases_500 execute
      (Content (statements (map written stmts))) s = Ok r
    /\ left_store r
       = writes_of execute 57 (kept (map values_of stmts)) s
    /\ returned r <= List.length (kept (map values_of stmts)).
Proof.
  intros Hexc Hok. apply (load_sample_cases_500_loads Store execute Hexc).
  destruct (written_rows stmts Hok) as [Hst Hrows].
  unfold parse_sql_insert_statements. rewrite (findall_statements _ Hst).
  now apply parse_matches_values.
Qed.

Lemma written_file_is_loaded_witness :
  exists r,
    load_sample_cases_500 toy_execute
      (Content
         (statements
            (map written
               [("Cases", "a, b", [Quoted "C-1" ""; Bare "NULL"]);
                ("Cases", "a, b", [Quoted "C-1" ""; Bare "7"]);
                ("Cases", "a, b", [Quoted "C-2" ""; Quoted "x, y" ""])])))
      [] = Ok r
    /\ left_store r = ["C-1"; "C-2"]
    /\ returned r <= 3.
Proof.
  exact (written_file_is_loaded _ toy_execute
           [("Cases", "a, b", [Quoted "C-1" ""; Bare "NULL"]);
            ("Cases", "a, b", [Quoted "C-1" ""; Bare "7"]);
            ("Cases", "a, b", [Quoted "C-2" ""; Quoted "x, y" ""])]
           [] toy_execute_raises eq_refl).
Defined.

(** X23.  From the file to the store, [load_sql_file].  For a file of
    statements written with a line feed behind VALUES from a table name, a
    column list and the well-formed fields of one row, and a store that
    raises only errors derived from [Exception], the loader returns, and
    the store it leaves is the store after one write per statement that
    has a value, in the order of the file, the parameters of each write
    being the values of the statement's fields fitted to 58.  The count
    returned is at most the number of these statements. *)
Theorem written_file_with_line_feed_is_loaded (Store : Type)
    (execute : Store -> list string -> Store * option exn)
    (stmt : string * string * list field)
    (stmts : list (string * string * list field)) (s : Store) :
  (forall s p e, snd (execute s p) = Some e -> is_Exception e = true) ->
  forallb written_ok (stmt :: stmts) = true ->
  exists r,
    load_sql_file execute
      (Content (statements_nl (map written (stmt :: stmts)))) s = Ok r
    /\ left_store r
       = writes_of execute 58 (kept (map values_of (stmt :: stmts))) s
    /\ returned r <= List.length (kept (map values_of (stmt :: stmts))).
Proof.
  intros Hexc Hok.
  apply (load_sql_file_loads Store execute Hexc) with
    (l := [(INFO, Parsed_individual
                    (List.length (kept (map values_of (stmt :: stmts)))))]).
  destruct (written_rows_nl _ Hok) as [Hst Hrows].
  unfold parse_sql_values. rewrite (findall_statements_nl _ Hst).
  change (map row_of (map written (stmt :: stmts)))
    with (row_of (written stmt) :: map row_of (map written stmts)) in *.
  cbv iota.
  now rewrite (parse_matches_values parse_record_values _ _ Hrows).
Qed.

Lemma written_file_with_line_feed_is_loaded_witness :
  exists r,
    load_sql_file toy_execute
      (Content
         (statements_nl
            (map written
               [("Cases", "a, b", [Quoted "C-1" ""; Bare "NULL"]);
                ("Cases", "a, b", [Quoted "C-2" ""; Quoted "x, y" ""])])))
      [] = Ok r
    /\ left_store r = ["C-1"; "C-2"]
    /\ returned r <= 2.
Proof.
  exact (written_file_with_line_feed_is_loaded _ toy_execute
           ("Cases", "a, b", [Quoted "C-1" ""; Bare "NULL"])
           [("Cases", "a, b", [Quoted "C-2" ""; Quoted "x, y" ""])]
           [] toy_execute_raises eq_refl).
Defined.
